(** * MayreneO: resilience layer and tiered cache

    A shallow embedding of [src/util/retryUtils.js] and
    [src/util/cacheUtils.js], and the properties of their specification.

    Conventions of the embedding.
    - JavaScript numbers that hold timestamps, counters and durations are
      integers ([Z]); the delays of the back-off calculator, which multiply
      by a fractional factor and by [Math.random()], are rationals ([Q]).
    - A method is a computation in a state-and-exception monad [M W A]:
      a [throw] keeps the state reached so far, as in JavaScript.
    - The runtime is part of the state: [Date.now()] returns the next
      reading of a clock, [Math.random()] the next draw, and a remote
      operation settles as a script says, by the number of its invocation.
      What a run observes (invocations, sleeps, writes to [localStorage])
      is recorded in the state.
    - [await] runs the awaited computation to completion: one call site,
      no interleaving (the single-threaded event loop of section 5 of the
      specification).  The circuit breaker is shared by the call sites:
      calls of [execute] that overlap on it are modelled apart, as
      sequences of events of the event loop ([run_events]).
    - Errors are [Error] objects.
    - [localStorage] holds, for each string, the document the string
      denotes: a cache entry, the metadata index, or a text that does not
      parse.  The embedding follows the code for stores in which the slot of
      a cache key holds no index and the slot of the index holds no entry;
      the one cache key that would break this is [METADATA_KEY] itself,
      which names the slot of the index.
    - [console.warn] and [console.log] have no effect on the state modelled
      and are left out. *)

From Stdlib Require Import ZArith QArith Qminmax Qround Qpower String Ascii List Sorted Lia Lqa.
From stdpp Require Import gmap strings list fin_maps pretty.

Open Scope Z_scope.

(** ** JavaScript values, errors and the monad of effects *)

Module JS.

(** The values a cached operation may produce.  [VBigInt] stands for the
    values [JSON.stringify] rejects with a [TypeError]. *)
Inductive value : Type :=
| VUndefined
| VNull
| VNum (n : Z)
| VStr (s : string)
| VBigInt (n : Z).

(** [v !== null] is [negb (is_null v)]. *)
Definition is_null (v : value) : bool :=
  match v with VNull => true | _ => false end.

(** An [Error] object: its [name], its [message] and, for HTTP failures,
    [response.status]. *)
Record Error : Type := mkError {
  name : string;
  message : string;
  response : option Z
}.

(** What a [throw] statement carries: an [Error], or [undefined] (the
    value of a [let lastError;] never assigned). *)
Inductive thrown : Type :=
| ThrownUndefined
| ThrownError (e : Error).

(** How a promise returned by an operation settles. *)
Inductive outcome : Type :=
| Resolved (v : value)
| Rejected (e : Error).

Inductive completion (A : Type) : Type :=
| Normal (a : A)
| Throw (t : thrown).
Arguments Normal {A} a.
Arguments Throw {A} t.

Definition M (W A : Type) : Type := W -> completion A * W.

Definition ret {W A} (a : A) : M W A := fun w => (Normal a, w).

Definition bind {W A B} (m : M W A) (k : A -> M W B) : M W B :=
  fun w => match m w with
           | (Normal a, w') => k a w'
           | (Throw t, w') => (Throw t, w')
           end.

Definition throw {W A} (t : thrown) : M W A := fun w => (Throw t, w).

(** [try { body } catch (error) { handler error }] *)
Definition try_catch {W A} (body : M W A) (handler : thrown -> M W A) : M W A :=
  fun w => match body w with
           | (Normal a, w') => (Normal a, w')
           | (Throw t, w') => handler t w'
           end.

(** Reading and writing the state. *)
Definition gets {W A} (f : W -> A) : M W A := fun w => (Normal (f w), w).
Definition modify {W} (f : W -> W) : M W unit := fun w => (Normal tt, f w).

(** [for (const x of xs) { body x }] *)
Fixpoint for_of {W A} (xs : list A) (body : A -> M W unit) : M W unit :=
  match xs with
  | [] => ret tt
  | x :: rest => bind (body x) (fun _ => for_of rest body)
  end.

End JS.

Import JS.

Declare Scope js_scope.
Delimit Scope js_scope with js.
Notation "x <- m ;; k" := (bind m (fun x => k))
  (at level 100, m at next level, right associativity) : js_scope.
Notation "m ;;; k" := (bind m (fun _ => k))
  (at level 100, right associativity) : js_scope.
Open Scope js_scope.

(** ** retryUtils.js *)

Module RetryUtils.

(** The runtime a retry sequence runs in: how often the remote operation
    has been invoked, the readings [Date.now()] returns and how many were
    taken, the values [Math.random()] returns and how many were drawn, and
    the delays slept so far (latest first). *)
Record World : Type := mkWorld {
  calls : nat;
  clock : nat -> Z;
  ticks : nat;
  Math_random : nat -> Q;
  draws : nat;
  sleeps : list Q
}.

(** An asynchronous operation, run to the point where its promise
    settles. *)
Definition Operation : Type := World -> outcome * World.

(** A remote operation: [script i] is how its [i]-th invocation settles
    (counting from 0 over the life of the process).  Being invoked is its
    only effect. *)
Definition remote (script : nat -> outcome) : Operation :=
  fun w =>
    (script (calls w),
     mkWorld (S (calls w)) (clock w) (ticks w) (Math_random w) (draws w) (sleeps w)).

Definition Date_now : M World Z :=
  fun w =>
    (Normal (clock w (ticks w)),
     mkWorld (calls w) (clock w) (S (ticks w)) (Math_random w) (draws w) (sleeps w)).

(** [await operation()] *)
Definition await (operation : Operation) : M World value :=
  fun w => match operation w with
           | (Resolved v, w') => (Normal v, w')
           | (Rejected e, w') => (Throw (ThrownError e), w')
           end.

Definition random : M World Q :=
  fun w => (Normal (Math_random w (draws w)),
            mkWorld (calls w) (clock w) (ticks w) (Math_random w) (S (draws w)) (sleeps w)).

(** [sleep(ms)]: the caller is suspended for [ms]. *)
Definition sleep (ms : Q) : M World unit :=
  modify (fun w => mkWorld (calls w) (clock w) (ticks w) (Math_random w) (draws w)
                     (ms :: sleeps w)).

(** A configuration object; [None] is a property the caller left out. *)
Record Config : Type := mkConfig {
  maxAttempts : option Z;
  baseDelay : option Q;
  maxDelay : option Q;
  backoffFactor : option Q;
  retryCondition : option (Error -> bool)
}.

Module DEFAULT_RETRY_CONFIG.
Definition maxAttempts : Z := 3.
Definition baseDelay : Q := 1000.
Definition maxDelay : Q := 10000.
Definition backoffFactor : Q := 2.
Definition retryCondition (error : Error) : bool :=
  match response error with
  | None => true
  | Some status => (status >=? 500) || (status =? 429)
  end.
End DEFAULT_RETRY_CONFIG.

(** [{ ...DEFAULT_RETRY_CONFIG, ...config }] *)
Record Policy : Type := mkPolicy {
  p_maxAttempts : Z;
  p_baseDelay : Q;
  p_maxDelay : Q;
  p_backoffFactor : Q;
  p_retryCondition : Error -> bool
}.

Definition spread (config : Config) : Policy :=
  mkPolicy
    (default DEFAULT_RETRY_CONFIG.maxAttempts (maxAttempts config))
    (default DEFAULT_RETRY_CONFIG.baseDelay (baseDelay config))
    (default DEFAULT_RETRY_CONFIG.maxDelay (maxDelay config))
    (default DEFAULT_RETRY_CONFIG.backoffFactor (backoffFactor config))
    (default DEFAULT_RETRY_CONFIG.retryCondition (retryCondition config)).

Definition calculateDelay (attempt : Z) (baseDelay backoffFactor maxDelay : Q) : Q :=
  let delay := (baseDelay * backoffFactor ^ attempt)%Q in
  Qmin delay maxDelay.

Definition addJitter (delay : Q) (jitterFactor : Q) : M World Q :=
  r <- random ;;
  let jitter := (delay * jitterFactor * r)%Q in
  ret (delay + jitter)%Q.

(** How the [for] loop is left: by [return result], or by [break] or a
    false loop condition with [lastError] as it then stands. *)
Inductive loop_exit : Type :=
| Returned (result : value)
| Left (lastError : thrown).

(** The loop [for (let attempt = 0; attempt < maxAttempts; attempt++)],
    entered with [remaining = maxAttempts - attempt] turns to go. *)
Fixpoint attempts (operation : Operation) (policy : Policy)
    (remaining : nat) (attempt : Z) (lastError : thrown) : World -> loop_exit * World :=
  fun w =>
    match remaining with
    | O => (Left lastError, w)
    | S remaining' =>
        match operation w with
        | (Resolved result, w1) => (Returned result, w1)
        | (Rejected error, w1) =>
            let lastError := ThrownError error in
            if attempt =? p_maxAttempts policy - 1 then (Left lastError, w1)
            else if negb (p_retryCondition policy error) then (Left lastError, w1)
            else
              let delay := calculateDelay attempt (p_baseDelay policy)
                             (p_backoffFactor policy) (p_maxDelay policy) in
              match (delayWithJitter <- addJitter delay (1 # 10) ;;
                     sleep delayWithJitter) w1 with
              | (_, w2) => attempts operation policy remaining' (attempt + 1) lastError w2
              end
        end
    end.

Definition retryWithBackoff (operation : Operation) (config : Config) : M World value :=
  fun w =>
    let policy := spread config in
    match attempts operation policy (Z.to_nat (p_maxAttempts policy)) 0 ThrownUndefined w with
    | (Returned result, w') => (Normal result, w')
    | (Left lastError, w') => (Throw lastError, w')
    end.

Module RETRY_CONFIGS.
Definition QUICK : Config := mkConfig (Some 2) (Some 500%Q) (Some 2000%Q) (Some 2%Q) None.
Definition STANDARD : Config := mkConfig (Some 3) (Some 1000%Q) (Some 5000%Q) (Some 2%Q) None.
Definition CRITICAL : Config := mkConfig (Some 5) (Some 1000%Q) (Some 10000%Q) (Some (3 # 2)%Q) None.
Definition BACKGROUND : Config := mkConfig (Some 3) (Some 2000%Q) (Some 30000%Q) (Some 3%Q) None.
End RETRY_CONFIGS.

(** *** CircuitBreaker *)

Inductive breaker_state : Type := CLOSED | OPEN | HALF_OPEN.

Record CircuitBreaker : Type := mkCircuitBreaker {
  failureThreshold : Z;
  resetTimeout : Z;
  monitoringPeriod : Z;
  state : breaker_state;
  failureCount : Z;
  lastFailureTime : option Z;
  successCount : Z
}.

Record BreakerConfig : Type := mkBreakerConfig {
  c_failureThreshold : option Z;
  c_resetTimeout : option Z;
  c_monitoringPeriod : option Z
}.

(** [x || d] on an optional number: [undefined] and [0] are falsy. *)
Definition or_else (x : option Z) (d : Z) : Z :=
  match x with
  | Some 0 | None => d
  | Some n => n
  end.

Definition new_CircuitBreaker (config : BreakerConfig) : CircuitBreaker :=
  mkCircuitBreaker
    (or_else (c_failureThreshold config) 5)
    (or_else (c_resetTimeout config) 60000)
    (or_else (c_monitoringPeriod config) 10000)
    CLOSED 0 None 0.

Definition set_state (s : breaker_state) (this : CircuitBreaker) : CircuitBreaker :=
  mkCircuitBreaker (failureThreshold this) (resetTimeout this) (monitoringPeriod this)
    s (failureCount this) (lastFailureTime this) (successCount this).
Definition set_failureCount (n : Z) (this : CircuitBreaker) : CircuitBreaker :=
  mkCircuitBreaker (failureThreshold this) (resetTimeout this) (monitoringPeriod this)
    (state this) n (lastFailureTime this) (successCount this).
Definition set_lastFailureTime (t : option Z) (this : CircuitBreaker) : CircuitBreaker :=
  mkCircuitBreaker (failureThreshold this) (resetTimeout this) (monitoringPeriod this)
    (state this) (failureCount this) t (successCount this).
Definition set_successCount (n : Z) (this : CircuitBreaker) : CircuitBreaker :=
  mkCircuitBreaker (failureThreshold this) (resetTimeout this) (monitoringPeriod this)
    (state this) (failureCount this) (lastFailureTime this) n.

Definition is_state (s : breaker_state) (this : CircuitBreaker) : bool :=
  match s, state this with
  | CLOSED, CLOSED | OPEN, OPEN | HALF_OPEN, HALF_OPEN => true
  | _, _ => false
  end.

(** A method of the breaker runs on the breaker ([this]) and the
    runtime. *)
Definition Method (A : Type) : Type := M (CircuitBreaker * World) A.

(** [this.field] *)
Definition this_ {A} (field : CircuitBreaker -> A) : Method A :=
  gets (fun s => field (fst s)).

(** [this.field = ...] *)
Definition assign (update : CircuitBreaker -> CircuitBreaker) : Method unit :=
  modify (fun s => (update (fst s), snd s)).

(** A step of the runtime, within a method. *)
Definition in_world {A} (m : M World A) : Method A :=
  fun s => match m (snd s) with (r, w) => (r, (fst s, w)) end.

Definition onSuccess : Method unit :=
  assign (set_failureCount 0) ;;;
  halfOpen <- this_ (is_state HALF_OPEN) ;;
  if halfOpen : bool then
    assign (fun this => set_successCount (successCount this + 1) this) ;;;
    successCount <- this_ successCount ;;
    if successCount >=? 3 then assign (set_state CLOSED) else ret tt
  else ret tt.

Definition onFailure : Method unit :=
  assign (fun this => set_failureCount (failureCount this + 1) this) ;;;
  now <- in_world Date_now ;;
  assign (set_lastFailureTime (Some now)) ;;;
  failureCount <- this_ failureCount ;;
  failureThreshold <- this_ failureThreshold ;;
  if failureCount >=? failureThreshold then assign (set_state OPEN) else ret tt.

Definition breaker_open_error : Error :=
  mkError "Error" "Circuit breaker is OPEN - operation not allowed" None.

(** In [Date.now() - this.lastFailureTime] a [null] time counts as 0. *)
Definition execute (operation : Operation) : Method value :=
  open <- this_ (is_state OPEN) ;;
  (if open : bool then
     now <- in_world Date_now ;;
     lastFailureTime <- this_ lastFailureTime ;;
     resetTimeout <- this_ resetTimeout ;;
     if now - default 0 lastFailureTime >? resetTimeout then
       assign (set_state HALF_OPEN) ;;;
       assign (set_successCount 0)
     else throw (ThrownError breaker_open_error)
   else ret tt) ;;;
  try_catch
    (result <- in_world (await operation) ;;
     onSuccess ;;;
     ret result)
    (fun error =>
       onFailure ;;;
       throw error).

(** The states a breaker goes through when its calls do not overlap:
    created by [new CircuitBreaker], then driven by calls of [execute] on
    remote operations, each settled before the next is made, under a clock
    that never runs backwards. *)
Definition monotone (c : nat -> Z) : Prop := forall i j, (i <= j)%nat -> c i <= c j.

Inductive reachable : CircuitBreaker * World -> Prop :=
| reach_new config w :
    monotone (clock w) -> reachable (new_CircuitBreaker config, w)
| reach_execute script this w r this' w' :
    reachable (this, w) ->
    execute (remote script) (this, w) = (r, (this', w')) ->
    reachable (this', w').

(** [n] calls of [breaker.execute(operation)], one after the other. *)
Fixpoint execute_times (script : nat -> outcome) (n : nat)
    (s : CircuitBreaker * World) : CircuitBreaker * World :=
  match n with
  | O => s
  | S n' =>
      snd (execute (remote script) (execute_times script n' s))
  end.

(** What holds of a breaker between two calls of [execute], when calls
    do not overlap: it is OPEN exactly when the failures counted have
    reached the threshold; the counters are not negative; [successCount]
    counts up to the three successes that close a HALF_OPEN breaker, which
    has seen one or two; and an OPEN breaker has the time of a failure. *)
Definition breaker_invariant (this : CircuitBreaker) : Prop :=
  (state this = OPEN <-> failureThreshold this <= failureCount this)
  /\ 0 <= failureCount this
  /\ 0 <= successCount this <= 3
  /\ (state this = HALF_OPEN -> 1 <= successCount this <= 2)
  /\ (state this = OPEN -> is_Some (lastFailureTime this)).

(** *** Calls of [execute] that overlap

    [execute] is an [async] function.  A call runs the gate and invokes
    the operation, and is suspended at [await operation()]; it is resumed
    when the promise of the operation settles, with [onSuccess] or with
    [onFailure].  Between the two, other calls on the same breaker may
    start, and other suspended calls may be resumed. *)

(** [execute], up to the invocation of the operation: the gate. *)
Definition execute_gate : Method unit :=
  open <- this_ (is_state OPEN) ;;
  if open : bool then
    now <- in_world Date_now ;;
    lastFailureTime <- this_ lastFailureTime ;;
    resetTimeout <- this_ resetTimeout ;;
    if now - default 0 lastFailureTime >? resetTimeout then
      assign (set_state HALF_OPEN) ;;;
      assign (set_successCount 0)
    else throw (ThrownError breaker_open_error)
  else ret tt.

(** [execute], from the point where the promise of the operation has
    settled. *)
Definition execute_resume (settled : outcome) : Method value :=
  match settled with
  | Resolved result => onSuccess ;;; ret result
  | Rejected error => onFailure ;;; throw (ThrownError error)
  end.

(** A breaker that several callers share: the breaker, the runtime, and
    the promises of the calls that are suspended, each with the way it
    will settle (oldest first). *)
Record Shared : Type := mkShared {
  breaker : CircuitBreaker;
  runtime : World;
  pending : list outcome
}.

(** What happens on the event loop: a caller calls
    [breaker.execute(operation)], on an operation whose promise will
    settle as [settles]; or the [i]-th of the pending promises settles, and
    its call is resumed. *)
Inductive event : Type :=
| Call (settles : outcome)
| Settle (i : nat).

(** A call that the gate rejects does not invoke its operation; a
    [Settle] for a promise that is not pending is no event. *)
Definition step (s : Shared) (e : event) : Shared :=
  match e with
  | Call settles =>
      match execute_gate (breaker s, runtime s) with
      | (Normal _, (this, w)) =>
          mkShared this (snd (remote (fun _ => settles) w)) (pending s ++ [settles])
      | (Throw _, (this, w)) => mkShared this w (pending s)
      end
  | Settle i =>
      match pending s !! i with
      | Some settled =>
          let s' := snd (execute_resume settled (breaker s, runtime s)) in
          mkShared (fst s') (snd s') (delete i (pending s))
      | None => s
      end
  end.

Definition run_events (events : list event) (s : Shared) : Shared :=
  foldl step s events.

(** What holds of a shared breaker at every point, whatever the order
    in which calls start and settle: it is CLOSED only with fewer counted
    failures than the threshold; the counters are not negative;
    [successCount] is at most 3, and at most 2 while the breaker is
    HALF_OPEN; and a breaker that is not CLOSED has the time of a
    failure. *)
Definition shared_breaker_invariant (this : CircuitBreaker) : Prop :=
  (state this = CLOSED -> failureCount this < failureThreshold this)
  /\ 0 <= failureCount this
  /\ 0 <= successCount this <= 3
  /\ (state this = HALF_OPEN -> successCount this <= 2)
  /\ (state this <> CLOSED -> is_Some (lastFailureTime this)).

(** [createRetryWrapper(fn, config)]: the wrapped function passes its
    arguments on to [fn]. *)
Definition createRetryWrapper {Args : Type} (fn : Args -> Operation) (config : Config)
    : Args -> M World value :=
  fun args => retryWithBackoff (fun w => fn args w) config.

(** [Math.random()] returns numbers from 0 (included) up to 1
    (excluded). *)
Definition unit_interval (random : nat -> Q) : Prop :=
  forall n, (0 <= random n)%Q /\ (random n < 1)%Q.

(** What [retryWithBackoff] sleeps after the failure of attempt
    [attempt], when the jitter is the [draw]-th value of
    [Math.random()]. *)
Definition delayWithJitter (policy : Policy) (random : nat -> Q) (attempt draw : nat) : Q :=
  let delay := calculateDelay (Z.of_nat attempt) (p_baseDelay policy)
                 (p_backoffFactor policy) (p_maxDelay policy) in
  (delay + delay * (1 # 10) * random draw)%Q.

End RetryUtils.

(** ** cacheUtils.js *)

Module CacheUtils.

Module CACHE_CONFIG.
Definition SEARCH_RESULTS : Z := 5 * 60 * 1000.
Definition USER_PLAYLISTS : Z := 10 * 60 * 1000.
Definition TRACK_DETAILS : Z := 30 * 60 * 1000.
Definition USER_PROFILE : Z := 60 * 60 * 1000.
Definition MAX_ENTRIES : Z := 100.
Definition STORAGE_PREFIX : string := "music_platform_cache_".
Definition METADATA_KEY : string := "cache_metadata".
End CACHE_CONFIG.

(** *** Data *)

(** A cache entry [{ data, expiresAt, createdAt }]. *)
Record Item : Type := mkItem {
  data : value;
  expiresAt : Z;
  createdAt : Z
}.

(** A record of the metadata index, [{ expiresAt, size }]. *)
Record Meta : Type := mkMeta {
  m_expiresAt : Z;
  size : Z
}.

(** An insertion-ordered dictionary with string keys: a [Map], and a
    plain object whose keys are not array indices (no key generator of
    the program produces one), so that [Object.entries] enumerates it in
    insertion order. *)
Abbreviation Dict A := (list (string * A)) (only parsing).

Section Dict.
Context {A : Type}.

Fixpoint dict_get (key : string) (d : Dict A) : option A :=
  match d with
  | [] => None
  | (k, v) :: rest => if String.eqb key k then Some v else dict_get key rest
  end.

Definition dict_has (key : string) (d : Dict A) : bool :=
  match dict_get key d with Some _ => true | None => false end.

(** [d.delete(key)], [delete d[key]] *)
Fixpoint dict_delete (key : string) (d : Dict A) : Dict A :=
  match d with
  | [] => []
  | (k, v) :: rest =>
      if String.eqb key k then dict_delete key rest else (k, v) :: dict_delete key rest
  end.

(** [d.set(key, v)], [d[key] = v]: a key already present keeps its
    place, a new key goes to the end. *)
Fixpoint dict_set (key : string) (v : A) (d : Dict A) : Dict A :=
  match d with
  | [] => [(key, v)]
  | (k, v0) :: rest =>
      if String.eqb key k then (k, v) :: rest else (k, v0) :: dict_set key v rest
  end.

(** [object[key] = v] on a plain object: the property of that name is
    replaced or added, but for the key ["__proto__"]: unless the object
    has a property of its own of that name (which [JSON.parse] can
    create), the assignment sets the prototype of the object and adds no
    property. *)
Definition set_property (key : string) (v : A) (object : Dict A) : Dict A :=
  if String.eqb key "__proto__" && negb (dict_has key object)
  then object
  else dict_set key v object.

Definition dict_keys (d : Dict A) : list string := map fst d.

(** [d.keys().next().value]; [None] is [undefined]. *)
Definition first_key (d : Dict A) : option string := head (dict_keys d).

(** [{ ...target, ...source }]: the properties of [source] are set on
    [target], in the order of [source]. *)
Definition object_spread (target source : Dict A) : Dict A :=
  foldl (fun object entry => dict_set (fst entry) (snd entry) object) target source.
End Dict.

(** *** JSON texts

    [localStorage] holds strings; the embedding keeps, for each string,
    the document it denotes: an entry, the metadata index, or a text
    [JSON.parse] rejects.  [text_of] is the text itself (for ASCII
    strings), used for the lengths the code and the quota measure. *)
Inductive doc : Type :=
| DItem (item : Item)
| DMeta (metadata : Dict Meta)
| DRaw (text : string).

Definition dquote : string := String (ascii_of_nat 34) EmptyString.

Definition hex_digit (n : nat) : string :=
  String (ascii_of_nat (if (n <? 10)%nat then 48 + n else 87 + n)) EmptyString.

Definition escape_char (c : ascii) : string :=
  let n := nat_of_ascii c in
  if (n =? 34)%nat then "\" +:+ dquote
  else if (n =? 92)%nat then "\\"
  else if (n =? 8)%nat then "\b"
  else if (n =? 9)%nat then "\t"
  else if (n =? 10)%nat then "\n"
  else if (n =? 12)%nat then "\f"
  else if (n =? 13)%nat then "\r"
  else if (n <? 32)%nat then "\u00" +:+ hex_digit (n / 16) +:+ hex_digit (n mod 16)
  else String c EmptyString.

Fixpoint escape (s : string) : string :=
  match s with
  | EmptyString => EmptyString
  | String c rest => escape_char c +:+ escape rest
  end.

Definition quoted (s : string) : string := dquote +:+ escape s +:+ dquote.

Definition text_of_value (v : value) : string :=
  match v with
  | VNull => "null"
  | VNum n => pretty n
  | VStr s => quoted s
  | VUndefined | VBigInt _ => EmptyString
  end.

(** A property whose value is [undefined] is left out of the text. *)
Definition text_of_item (item : Item) : string :=
  "{" +:+
  match data item with
  | VUndefined => EmptyString
  | v => quoted "data" +:+ ":" +:+ text_of_value v +:+ ","
  end +:+
  quoted "expiresAt" +:+ ":" +:+ pretty (expiresAt item) +:+ "," +:+
  quoted "createdAt" +:+ ":" +:+ pretty (createdAt item) +:+ "}".

Definition text_of_meta (entry : string * Meta) : string :=
  quoted (fst entry) +:+ ":{" +:+
  quoted "expiresAt" +:+ ":" +:+ pretty (m_expiresAt (snd entry)) +:+ "," +:+
  quoted "size" +:+ ":" +:+ pretty (size (snd entry)) +:+ "}".

Fixpoint comma_separated (texts : list string) : string :=
  match texts with
  | [] => EmptyString
  | [t] => t
  | t :: rest => t +:+ "," +:+ comma_separated rest
  end.

Definition text_of (d : doc) : string :=
  match d with
  | DItem item => text_of_item item
  | DMeta metadata => "{" +:+ comma_separated (map text_of_meta metadata) +:+ "}"
  | DRaw text => text
  end.

(** [JSON.stringify(item)]: a [TypeError] for a value it does not know
    how to serialize. *)
Definition TypeError : Error := mkError "TypeError" "Do not know how to serialize a BigInt" None.
Definition SyntaxError : Error := mkError "SyntaxError" "Unexpected token" None.
Definition QuotaExceededError : Error :=
  mkError "QuotaExceededError" "The quota has been exceeded." None.

(** *** The state: the runtime and the one [globalCache] *)

Record Stats : Type := mkStats {
  hits : Z;
  misses : Z;
  sets : Z
}.

Record memory_cache : Type := mkMemoryCache {
  cache : Dict Item;
  maxSize : Z
}.

(** [calls], [clock] and [ticks] are as in [RetryUtils.World];
    [localStorage] is the origin's storage area, which takes [quota]
    characters of keys and values; [writes] lists the calls of
    [localStorage.setItem] (latest first) and whether each succeeded. *)
Record World : Type := mkWorld {
  calls : nat;
  clock : nat -> Z;
  ticks : nat;
  localStorage : gmap string doc;
  quota : nat;
  writes : list (string * bool);
  memoryCache : memory_cache;
  storagePrefix : string;
  stats : Stats
}.

Definition with_calls (n : nat) (w : World) : World :=
  mkWorld n (clock w) (ticks w) (localStorage w) (quota w) (writes w)
    (memoryCache w) (storagePrefix w) (stats w).
Definition with_ticks (n : nat) (w : World) : World :=
  mkWorld (calls w) (clock w) n (localStorage w) (quota w) (writes w)
    (memoryCache w) (storagePrefix w) (stats w).
Definition with_localStorage (s : gmap string doc) (w : World) : World :=
  mkWorld (calls w) (clock w) (ticks w) s (quota w) (writes w)
    (memoryCache w) (storagePrefix w) (stats w).
Definition with_writes (l : list (string * bool)) (w : World) : World :=
  mkWorld (calls w) (clock w) (ticks w) (localStorage w) (quota w) l
    (memoryCache w) (storagePrefix w) (stats w).
Definition with_cache (c : Dict Item) (w : World) : World :=
  mkWorld (calls w) (clock w) (ticks w) (localStorage w) (quota w) (writes w)
    (mkMemoryCache c (maxSize (memoryCache w))) (storagePrefix w) (stats w).
Definition with_stats (s : Stats) (w : World) : World :=
  mkWorld (calls w) (clock w) (ticks w) (localStorage w) (quota w) (writes w)
    (memoryCache w) (storagePrefix w) s.

Definition Operation : Type := World -> outcome * World.

Definition remote (script : nat -> outcome) : Operation :=
  fun w => (script (calls w), with_calls (S (calls w)) w).

(** [await operation()] *)
Definition await (operation : Operation) : M World value :=
  fun w => match operation w with
           | (Resolved v, w') => (Normal v, w')
           | (Rejected e, w') => (Throw (ThrownError e), w')
           end.

Definition Date_now : M World Z :=
  fun w => (Normal (clock w (ticks w)), with_ticks (S (ticks w)) w).

(** *** localStorage *)

Definition storage_bytes (s : gmap string doc) : nat :=
  map_fold (fun k d acc => (String.length k + String.length (text_of d) + acc)%nat) 0%nat s.

Definition localStorage_getItem (k : string) : M World (option doc) :=
  gets (fun w => localStorage w !! k).

Definition localStorage_setItem (k : string) (d : doc) : M World unit :=
  fun w =>
    let s := <[k := d]> (localStorage w) in
    if (storage_bytes s <=? quota w)%nat
    then (Normal tt, with_writes ((k, true) :: writes w) (with_localStorage s w))
    else (Throw (ThrownError QuotaExceededError), with_writes ((k, false) :: writes w) w).

Definition localStorage_removeItem (k : string) : M World unit :=
  modify (fun w => with_localStorage (base.delete k (localStorage w)) w).

Definition serializable (v : value) : bool :=
  match v with VBigInt _ => false | _ => true end.

Definition JSON_stringify (item : Item) : M World doc :=
  if serializable (data item) then ret (DItem item)
  else throw (ThrownError TypeError).

(** *** MemoryCache: the fast tier *)

Module MemoryCache.

Definition get (key : string) : M World value :=
  item <- gets (fun w => dict_get key (cache (memoryCache w))) ;;
  match item with
  | None => ret VNull
  | Some item =>
      now <- Date_now ;;
      if now >? expiresAt item then
        modify (fun w => with_cache (dict_delete key (cache (memoryCache w))) w) ;;;
        ret VNull
      else
        modify (fun w => with_cache (dict_delete key (cache (memoryCache w))) w) ;;;
        modify (fun w => with_cache (dict_set key item (cache (memoryCache w))) w) ;;;
        ret (data item)
  end.

Definition set (key : string) (data : value) (ttl : option Z) : M World unit :=
  let ttl := default (5 * 60 * 1000) ttl in
  atCapacity <- gets (fun w =>
    Z.of_nat (length (cache (memoryCache w))) >=? maxSize (memoryCache w)) ;;
  (if atCapacity : bool then
     modify (fun w =>
       match first_key (cache (memoryCache w)) with
       | Some firstKey => with_cache (dict_delete firstKey (cache (memoryCache w))) w
       | None => w
       end)
   else ret tt) ;;;
  now1 <- Date_now ;;
  now2 <- Date_now ;;
  modify (fun w =>
    with_cache (dict_set key (mkItem data (now1 + ttl) now2) (cache (memoryCache w))) w).

Definition delete (key : string) : M World bool :=
  present <- gets (fun w => dict_has key (cache (memoryCache w))) ;;
  modify (fun w => with_cache (dict_delete key (cache (memoryCache w))) w) ;;;
  ret present.

Definition clear : M World unit :=
  modify (with_cache []).

Definition size : M World Z :=
  gets (fun w => Z.of_nat (length (cache (memoryCache w)))).

(** Entries deleted while a [Map] is iterated are not visited later;
    each entry is visited once. *)
Definition cleanup : M World unit :=
  now <- Date_now ;;
  entries <- gets (fun w => cache (memoryCache w)) ;;
  for_of entries (fun entry =>
    if now >? expiresAt (snd entry) then
      modify (fun w => with_cache (dict_delete (fst entry) (cache (memoryCache w))) w)
    else ret tt).

End MemoryCache.

(** *** PersistentCache: the durable tier *)

Module PersistentCache.

Definition metadataKey (w : World) : string :=
  storagePrefix w +:+ CACHE_CONFIG.METADATA_KEY.

Definition _getStorageKey (key : string) : M World string :=
  gets (fun w => storagePrefix w +:+ key).

(** A stored text that is not a metadata index is read like one that
    does not parse: the result is [{}]. *)
Definition _getMetadata : M World (Dict Meta) :=
  try_catch
    (k <- gets metadataKey ;;
     metadata <- localStorage_getItem k ;;
     match metadata with
     | None => ret []
     | Some (DMeta m) => ret m
     | Some _ => throw (ThrownError SyntaxError)
     end)
    (fun error => ret []).

Definition _setMetadata (metadata : Dict Meta) : M World unit :=
  try_catch
    (k <- gets metadataKey ;;
     localStorage_setItem k (DMeta metadata))
    (fun error => ret tt).

Definition delete (key : string) : M World bool :=
  try_catch
    (storageKey <- _getStorageKey key ;;
     localStorage_removeItem storageKey ;;;
     metadata <- _getMetadata ;;
     let metadata := dict_delete key metadata in
     _setMetadata metadata ;;;
     ret true)
    (fun error => ret false).

(** A stored text that is not an entry is read like one that does not
    parse: a miss. *)
Definition get (key : string) : M World value :=
  try_catch
    (storageKey <- _getStorageKey key ;;
     item <- localStorage_getItem storageKey ;;
     match item with
     | None => ret VNull
     | Some (DItem parsed) =>
         now <- Date_now ;;
         if now >? expiresAt parsed then
           delete key ;;;
           ret VNull
         else ret (data parsed)
     | Some _ => throw (ThrownError SyntaxError)
     end)
    (fun error => ret VNull).

(** The loop of [cleanup] over [Object.entries(metadata)], building
    [updatedMetadata]. *)
Fixpoint cleanup_entries (now : Z) (entries : Dict Meta) (updatedMetadata : Dict Meta)
    : M World (Dict Meta) :=
  match entries with
  | [] => ret updatedMetadata
  | (key, meta) :: rest =>
      if now >? m_expiresAt meta then
        storageKey <- _getStorageKey key ;;
        localStorage_removeItem storageKey ;;;
        cleanup_entries now rest updatedMetadata
      else
        cleanup_entries now rest (dict_set key meta updatedMetadata)
  end.

Definition cleanup : M World unit :=
  now <- Date_now ;;
  metadata <- _getMetadata ;;
  updatedMetadata <- cleanup_entries now metadata [] ;;
  _setMetadata updatedMetadata.

(** [entries.sort(([, a], [, b]) => a.expiresAt - b.expiresAt)]: the
    sort is stable. *)
Fixpoint sort_insert (x : string * Meta) (sorted : Dict Meta) : Dict Meta :=
  match sorted with
  | [] => [x]
  | y :: rest =>
      if m_expiresAt (snd x) - m_expiresAt (snd y) <=? 0
      then x :: y :: rest
      else y :: sort_insert x rest
  end.

Definition sort_by_expiresAt (entries : Dict Meta) : Dict Meta :=
  foldr sort_insert [] entries.

(** [Math.floor(CACHE_CONFIG.MAX_ENTRIES * 0.2)] *)
Definition eviction_batch : nat :=
  Z.to_nat (Qfloor (inject_Z CACHE_CONFIG.MAX_ENTRIES * (2 # 10))%Q).

Definition _cleanupIfNeeded : M World unit :=
  metadata <- _getMetadata ;;
  let totalEntries := Z.of_nat (length metadata) in
  if totalEntries >? CACHE_CONFIG.MAX_ENTRIES then
    let entries := take eviction_batch (sort_by_expiresAt metadata) in
    for_of entries (fun entry => delete (fst entry) ;;; ret tt)
  else ret tt.

Definition set (key : string) (data : value) (ttl : option Z) : M World unit :=
  let ttl := default (5 * 60 * 1000) ttl in
  storageKey <- _getStorageKey key ;;
  now1 <- Date_now ;;
  now2 <- Date_now ;;
  let item := mkItem data (now1 + ttl) now2 in
  try_catch
    (text <- JSON_stringify item ;;
     localStorage_setItem storageKey text ;;;
     metadata <- _getMetadata ;;
     text' <- JSON_stringify item ;;
     let metadata :=
       set_property key (mkMeta (expiresAt item) (Z.of_nat (String.length (text_of text'))))
         metadata in
     _setMetadata metadata ;;;
     _cleanupIfNeeded)
    (fun error =>
       match error with
       | ThrownUndefined => throw (ThrownError TypeError)
       | ThrownError e =>
           if String.eqb (name e) "QuotaExceededError" then
             cleanup ;;;
             try_catch
               (text <- JSON_stringify item ;;
                localStorage_setItem storageKey text)
               (fun retryError => ret tt)
           else ret tt
       end).

Definition clear : M World unit :=
  try_catch
    (metadata <- _getMetadata ;;
     for_of (dict_keys metadata) (fun key =>
       storageKey <- _getStorageKey key ;;
       localStorage_removeItem storageKey) ;;;
     k <- gets metadataKey ;;
     localStorage_removeItem k)
    (fun error => ret tt).

(** [getStats()]: the object returned lists [totalEntries], [totalSize],
    [expiredCount] and [hitRate], all numbers.  No method assigns
    [this.hitRate]: it is [undefined]. *)
Definition getStats : M World (Dict Q) :=
  metadata <- _getMetadata ;;
  now <- Date_now ;;
  let totals :=
    foldl (fun totals entry =>
             (fst totals + RetryUtils.or_else (Some (size (snd entry))) 0,
              if now >? m_expiresAt (snd entry) then snd totals + 1 else snd totals))
      (0, 0) metadata in
  ret [("totalEntries", inject_Z (Z.of_nat (length (dict_keys metadata))));
       ("totalSize", inject_Z (fst totals));
       ("expiredCount", inject_Z (snd totals));
       ("hitRate", inject_Z (RetryUtils.or_else None 0))].

End PersistentCache.

(** *** HybridCache: the two tiers and the statistics *)

Module HybridCache.

Definition bump_hits : M World unit :=
  modify (fun w => with_stats
    (mkStats (hits (stats w) + 1) (misses (stats w)) (sets (stats w))) w).
Definition bump_misses : M World unit :=
  modify (fun w => with_stats
    (mkStats (hits (stats w)) (misses (stats w) + 1) (sets (stats w))) w).
Definition bump_sets : M World unit :=
  modify (fun w => with_stats
    (mkStats (hits (stats w)) (misses (stats w)) (sets (stats w) + 1)) w).

Definition get (key : string) : M World value :=
  data <- MemoryCache.get key ;;
  if negb (is_null data) then
    bump_hits ;;;
    ret data
  else
    data <- PersistentCache.get key ;;
    if negb (is_null data) then
      MemoryCache.set key data (Some (5 * 60 * 1000)) ;;;
      bump_hits ;;;
      ret data
    else
      bump_misses ;;;
      ret VNull.

Definition set (key : string) (data : value) (ttl : option Z) : M World unit :=
  let ttl := default (5 * 60 * 1000) ttl in
  MemoryCache.set key data (Some (Z.min ttl (5 * 60 * 1000))) ;;;
  PersistentCache.set key data (Some ttl) ;;;
  bump_sets.

Definition delete (key : string) : M World bool :=
  MemoryCache.delete key ;;;
  PersistentCache.delete key.

Definition clear : M World unit :=
  MemoryCache.clear ;;;
  PersistentCache.clear ;;;
  modify (with_stats (mkStats 0 0 0)).

Definition cleanup : M World unit :=
  MemoryCache.cleanup ;;;
  PersistentCache.cleanup.

(** [Math.round(x)] *)
Definition Math_round (x : Q) : Z := Qfloor (x + (1 # 2))%Q.

(** [getStats()]: the object literal is built from left to right, a
    later property of the same name replacing the value of an earlier
    one.  The ratio is a rational here. *)
Definition getStats : M World (Dict Q) :=
  persistentStats <- PersistentCache.getStats ;;
  stats <- gets stats ;;
  let hitRate :=
    if hits stats + misses stats >? 0
    then (inject_Z (hits stats) / inject_Z (hits stats + misses stats))%Q
    else 0%Q in
  let object :=
    object_spread []
      [("hits", inject_Z (hits stats)); ("misses", inject_Z (misses stats));
       ("sets", inject_Z (sets stats))] in
  let object := dict_set "hitRate" (inject_Z (Math_round (hitRate * 100)) / 100)%Q object in
  memorySize <- MemoryCache.size ;;
  let object := dict_set "memorySize" (inject_Z memorySize) object in
  ret (object_spread object persistentStats).

End HybridCache.

(** [new HybridCache()], on a given runtime: both tiers with their
    default parameters, the counters at 0. *)
Definition new_HybridCache (clock : nat -> Z) (storage : gmap string doc) (quota : nat)
    : World :=
  mkWorld 0 clock 0 storage quota []
    (mkMemoryCache [] CACHE_CONFIG.MAX_ENTRIES) CACHE_CONFIG.STORAGE_PREFIX
    (mkStats 0 0 0).

(** *** withCache *)

Section withCache.
Context {Args : Type}.

Definition withCache (fn : Args -> Operation) (keyGenerator : Args -> string)
    (ttl : option Z) : Args -> M World value :=
  let ttl := default CACHE_CONFIG.SEARCH_RESULTS ttl in
  fun args =>
    let cacheKey := keyGenerator args in
    cached <- HybridCache.get cacheKey ;;
    if negb (is_null cached) then ret cached
    else
      try_catch
        (result <- await (fn args) ;;
         HybridCache.set cacheKey result (Some ttl) ;;;
         ret result)
        (fun error => throw error).
End withCache.

(** *** Key generators and cache management *)

(** The generators that prefix an identifier (a string). *)
Module cacheKeys.
Definition userPlaylists (userId : string) : string := "playlists:" +:+ userId.
Definition trackDetails (trackId : string) : string := "track:" +:+ trackId.
Definition userProfile (userId : string) : string := "profile:" +:+ userId.
Definition playlistTracks (playlistId : string) : string := "playlist_tracks:" +:+ playlistId.
End cacheKeys.

Module cacheManager.
Definition invalidateUser (userId : string) : M World unit :=
  HybridCache.delete (cacheKeys.userProfile userId) ;;;
  HybridCache.delete (cacheKeys.userPlaylists userId) ;;;
  ret tt.
End cacheManager.

(** *** What the statements below observe *)

(** The metadata index as [_getMetadata] reads it. *)
Definition metadata_of (w : World) : Dict Meta :=
  match localStorage w !! PersistentCache.metadataKey w with
  | Some (DMeta m) => m
  | _ => []
  end.

(** The slot of the durable medium that belongs to a cache key. *)
Definition slot (w : World) (key : string) : option doc :=
  localStorage w !! (storagePrefix w +:+ key).

(** The durable medium is within its capacity. *)
Definition within_quota (w : World) : Prop :=
  (storage_bytes (localStorage w) <= quota w)%nat.

(** The invariant of the metadata index: one record per key, and a key
    has a record exactly when the durable medium holds an entry for it.
    [METADATA_KEY] is the name of the index itself, not a cache key. *)
Definition index_consistent (w : World) : Prop :=
  NoDup (dict_keys (metadata_of w))
  /\ forall key, key <> CACHE_CONFIG.METADATA_KEY ->
       (is_Some (slot w key) <-> key ∈ dict_keys (metadata_of w)).

(** The operations of the durable tier, for sequences of calls. *)
Inductive store_op : Type :=
| OpSet (key : string) (data : value) (ttl : option Z)
| OpDelete (key : string)
| OpClear
| OpCleanup.

Definition run_op (op : store_op) : M World unit :=
  match op with
  | OpSet key data ttl => PersistentCache.set key data ttl
  | OpDelete key => PersistentCache.delete key ;;; ret tt
  | OpClear => PersistentCache.clear
  | OpCleanup => PersistentCache.cleanup
  end.

(** A step of the durable tier: it may change [localStorage], the list
    of [writes] and the number of clock readings, and nothing else. *)
Definition durable_step (w w' : World) : Prop :=
  calls w' = calls w
  /\ clock w' = clock w
  /\ quota w' = quota w
  /\ memoryCache w' = memoryCache w
  /\ storagePrefix w' = storagePrefix w
  /\ stats w' = stats w.

(** A step of the durable tier that reads no clock. *)
Definition quiet_step (w w' : World) : Prop :=
  durable_step w w' /\ ticks w' = ticks w.

(** The order of the sort: [a] expires no later than [b]. *)
Definition expires_le (a b : string * Meta) : Prop :=
  m_expiresAt (snd a) <= m_expiresAt (snd b).

(** A step of the fast tier: it may change the entries of the map and
    the number of clock readings, and nothing else. *)
Definition fast_step (w w' : World) : Prop :=
  calls w' = calls w
  /\ clock w' = clock w
  /\ localStorage w' = localStorage w
  /\ quota w' = quota w
  /\ writes w' = writes w
  /\ maxSize (memoryCache w') = maxSize (memoryCache w)
  /\ storagePrefix w' = storagePrefix w
  /\ stats w' = stats w.

(** No tier holds, under [key], an entry whose value is not [null]. *)
Definition only_null (key : string) (w : World) : Prop :=
  (forall item, dict_get key (cache (memoryCache w)) = Some item -> data item = VNull)
  /\ (forall item, slot w key = Some (DItem item) -> data item = VNull).




(** The durable medium of [w] after [localStorage.removeItem] on the
    slot of each of the cache keys [keys]. *)
Definition remove_slots (keys : list string) (w : World) : gmap string doc :=
  foldl (fun storage key => base.delete (storagePrefix w +:+ key) storage)
    (localStorage w) keys.

(** The operations of [globalCache], for sequences of calls. *)
Inductive cache_op : Type :=
| CacheGet (key : string)
| CacheSet (key : string) (data : value) (ttl : option Z)
| CacheDelete (key : string)
| CacheClear
| CacheCleanup.

Definition run_cache_op (op : cache_op) : M World unit :=
  match op with
  | CacheGet key => HybridCache.get key ;;; ret tt
  | CacheSet key data ttl => HybridCache.set key data ttl
  | CacheDelete key => HybridCache.delete key ;;; ret tt
  | CacheClear => HybridCache.clear
  | CacheCleanup => HybridCache.cleanup
  end.


(** The cache key an operation of the cache names is not the name of
    the index. *)
Definition cache_op_names_no_index (op : cache_op) : Prop :=
  match op with
  | CacheGet key | CacheSet key _ _ | CacheDelete key => key <> CACHE_CONFIG.METADATA_KEY
  | CacheClear | CacheCleanup => True
  end.

(** The fast tier holds one entry per key, and no more entries than its
    capacity (one entry, when the capacity is less). *)
Definition fast_tier_bounded (w : World) : Prop :=
  NoDup (dict_keys (cache (memoryCache w)))
  /\ Z.of_nat (length (cache (memoryCache w))) <= Z.max 1 (maxSize (memoryCache w)).

(** The cache key an operation of the durable tier names is not the
    name of the index. *)
Definition names_no_index (op : store_op) : Prop :=
  match op with
  | OpSet key _ _ | OpDelete key => key <> CACHE_CONFIG.METADATA_KEY
  | OpClear | OpCleanup => True
  end.

(** A [set] whose key becomes a property of the index object:
    [metadata[key] = record] adds or replaces the record of every key but
    ["__proto__"] (see [set_property]). *)
Definition sets_own_property (op : store_op) : Prop :=
  match op with
  | OpSet key _ _ => key <> "__proto__"
  | OpDelete _ | OpClear | OpCleanup => True
  end.

(** The durable tier in order: the index is consistent with the medium
    and does not list its own name, and the medium is within its
    capacity. *)
Definition durable_tier_ok (w : World) : Prop :=
  index_consistent w
  /\ within_quota w
  /\ CACHE_CONFIG.METADATA_KEY ∉ dict_keys (metadata_of w).

(** A record of the index has expired at time [now]. *)
Definition expired (now : Z) (entry : string * Meta) : Prop :=
  m_expiresAt (snd entry) < now.

#[global] Instance expired_dec now entry : Decision (expired now entry).
Proof. unfold expired. apply _. Defined.

End CacheUtils.

(** * Properties of the resilience layer *)

Import RetryUtils.

(** Running a turn of the loop on a remote operation that is rejected
    with an error the policy does not retry leaves the loop at once. *)
Lemma attempts_not_retried script policy remaining attempt lastError w error :
  script (calls w) = Rejected error ->
  p_retryCondition policy error = false ->
  attempts (remote script) policy (S remaining) attempt lastError w =
    (Left (ThrownError error), snd (remote script w)).
Proof.
  intros Hrej Hcond. cbn [attempts remote snd]. rewrite Hrej, Hcond. cbn [negb].
  destruct (attempt =? p_maxAttempts policy - 1); reflexivity.
Qed.

(** A turn whose attempt is rejected with a retried error, not being the
    last, draws one jitter, sleeps once and goes round again. *)
Lemma attempts_retried script policy remaining attempt lastError w error :
  script (calls w) = Rejected error ->
  p_retryCondition policy error = true ->
  attempt <> p_maxAttempts policy - 1 ->
  exists w2,
    attempts (remote script) policy (S remaining) attempt lastError w =
      attempts (remote script) policy remaining (attempt + 1) (ThrownError error) w2
    /\ calls w2 = S (calls w)
    /\ length (sleeps w2) = S (length (sleeps w)).
Proof.
  intros Hrej Hcond Hlast. cbn [attempts remote]. rewrite Hrej, Hcond.
  apply Z.eqb_neq in Hlast. rewrite Hlast. cbn [negb].
  eexists. split; [reflexivity|]. split; reflexivity.
Qed.

(** The loop stops at the first error the policy does not retry: after
    [k] retried failures and one that is not, the operation has been
    invoked [k + 1] times and the caller has slept [k] times. *)
Lemma attempts_short_circuit script policy error :
  forall (k : nat) remaining attempt lastError w,
    (forall i, (i < k)%nat ->
       exists e, script (calls w + i)%nat = Rejected e /\ p_retryCondition policy e = true) ->
    script (calls w + k)%nat = Rejected error ->
    p_retryCondition policy error = false ->
    (k < remaining)%nat ->
    attempt + Z.of_nat k < p_maxAttempts policy - 1 ->
    exists w',
      attempts (remote script) policy remaining attempt lastError w =
        (Left (ThrownError error), w')
      /\ calls w' = (calls w + k + 1)%nat
      /\ length (sleeps w') = (length (sleeps w) + k)%nat.
Proof.
  induction k as [|k IH]; intros remaining attempt lastError w Hpre Hrej Hcond Hrem Hatt.
  - destruct remaining as [|remaining]; [lia|].
    rewrite Nat.add_0_r in Hrej.
    rewrite (attempts_not_retried _ _ _ _ _ _ _ Hrej Hcond).
    eexists. split; [reflexivity|]. cbn. split; lia.
  - destruct remaining as [|remaining]; [lia|].
    destruct (Hpre 0%nat ltac:(lia)) as (e & He & Hce).
    rewrite Nat.add_0_r in He.
    destruct (attempts_retried script policy remaining attempt lastError w e He Hce
                ltac:(lia)) as (w2 & -> & Hcalls & Hsleeps).
    destruct (IH remaining (attempt + 1) (ThrownError e) w2) as (w' & -> & Hc' & Hs').
    + intros i Hi. rewrite Hcalls.
      destruct (Hpre (S i) ltac:(lia)) as (e' & He' & Hce').
      exists e'. split; [|exact Hce'].
      rewrite <- He'. f_equal. lia.
    + rewrite Hcalls. rewrite <- Hrej. f_equal. lia.
    + exact Hcond.
    + lia.
    + lia.
    + exists w'. split; [reflexivity|]. split; lia.
Qed.

(** C7. An operation that fails with an error for which
    [policy.retryCondition(error)] is false, on an attempt that is not the
    last one allowed, ends [retryWithBackoff] at once: the operation has
    been invoked exactly once, nothing was slept (and no jitter drawn), and
    that very error is thrown to the caller. *)
Theorem C7_non_retryable_error_short_circuits :
  forall (script : nat -> outcome) (config : Config) (w : World) (error : Error),
    script (calls w) = Rejected error ->
    p_retryCondition (spread config) error = false ->
    1 < p_maxAttempts (spread config) ->
    retryWithBackoff (remote script) config w =
      (Throw (ThrownError error),
       mkWorld (S (calls w)) (clock w) (ticks w) (Math_random w) (draws w) (sleeps w)).
Proof.
  intros script config w error Hrej Hcond Hmax.
  unfold retryWithBackoff. cbn zeta.
  destruct (Z.to_nat (p_maxAttempts (spread config))) as [|remaining] eqn:Hn; [lia|].
  rewrite (attempts_not_retried _ _ _ _ _ _ _ Hrej Hcond). reflexivity.
Qed.

Lemma C7_witness :
  let script := fun _ : nat => Rejected (mkError "Error" "Not Found" (Some 404)) in
  let w := mkWorld 0 (fun n => Z.of_nat n) 0 (fun _ => (1 # 2)%Q) 0 [] in
  retryWithBackoff (remote script) RETRY_CONFIGS.STANDARD w =
    (Throw (ThrownError (mkError "Error" "Not Found" (Some 404))),
     mkWorld 1 (clock w) (ticks w) (Math_random w) (draws w) (sleeps w)).
Proof.
  intros script w.
  apply (C7_non_retryable_error_short_circuits script RETRY_CONFIGS.STANDARD w
           (mkError "Error" "Not Found" (Some 404))).
  - reflexivity.
  - reflexivity.
  - vm_compute. reflexivity.
Defined.

(** What the loop guarantees, whatever the script: it invokes the
    operation at most [remaining] times, one after the other; it returns
    the value of the last invocation; and once an attempt was made it is
    left with the error of the last invocation. *)
Lemma attempts_spec script policy :
  forall remaining attempt lastError w,
    let r := attempts (remote script) policy remaining attempt lastError w in
    (calls w <= calls (snd r) <= calls w + remaining)%nat
    /\ match fst r with
       | Returned v =>
           (calls w < calls (snd r))%nat
           /\ script (calls (snd r) - 1)%nat = Resolved v
       | Left t =>
           (remaining = 0%nat /\ t = lastError /\ calls (snd r) = calls w)
           \/ ((calls w < calls (snd r))%nat
               /\ exists e, t = ThrownError e
                            /\ script (calls (snd r) - 1)%nat = Rejected e)
       end.
Proof.
  induction remaining as [|remaining IH]; intros attempt lastError w.
  - cbn. split; [lia|]. left. auto.
  - cbn [attempts remote].
    destruct (script (calls w)) as [v|e] eqn:Hs.
    + cbn [fst snd calls]. split; [lia|]. split; [lia|].
      replace (S (calls w) - 1)%nat with (calls w) by lia. exact Hs.
    + set (w1 := mkWorld (S (calls w)) (clock w) (ticks w) (Math_random w) (draws w) (sleeps w)).
      assert (Hhere : script (calls w1 - 1)%nat = Rejected e).
      { cbn [calls w1]. replace (S (calls w) - 1)%nat with (calls w) by lia. exact Hs. }
      destruct (attempt =? p_maxAttempts policy - 1).
      { cbn [fst snd]. split; [cbn; lia|]. right. split; [cbn; lia|]. eauto. }
      destruct (p_retryCondition policy e); cbn [negb].
      2:{ cbn [fst snd]. split; [cbn; lia|]. right. split; [cbn; lia|]. eauto. }
      unfold addJitter, sleep, random, bind, modify, ret. cbn beta iota.
      match goal with
      | |- context [attempts _ _ remaining ?a ?l ?w2] =>
          specialize (IH a l w2); change (calls w2) with (S (calls w)) in IH;
          cbn zeta in IH |- *;
          destruct (attempts (remote script) policy remaining a l w2) as [x w'] eqn:Hrec
      end.
      cbn [fst snd] in IH |- *. destruct IH as [Hb Hx].
      split; [lia|].
      destruct x as [v|t].
      * destruct Hx as [Hlt Hv]. split; [lia|exact Hv].
      * right. destruct Hx as [(-> & -> & Hc)|(Hlt & e' & -> & He')].
        -- split; [lia|]. exists e. split; [reflexivity|]. rewrite Hc. exact Hhere.
        -- split; [lia|]. eauto.
Qed.

(** C8. With [maxAttempts >= 1], [retryWithBackoff] invokes the
    operation at least once and at most [maxAttempts] times, one
    invocation after the other; a value it returns is the value of the
    last invocation; and if every attempt made fails, the error thrown to
    the caller is the error of the last attempt made. *)
Theorem C8_attempt_budget_and_last_error :
  forall (script : nat -> outcome) (config : Config) (w : World),
    1 <= p_maxAttempts (spread config) ->
    let r := retryWithBackoff (remote script) config w in
    let made := (calls (snd r) - calls w)%nat in
    (calls w <= calls (snd r))%nat
    /\ (1 <= made)%nat
    /\ Z.of_nat made <= p_maxAttempts (spread config)
    /\ (forall v, fst r = Normal v -> script (calls (snd r) - 1)%nat = Resolved v)
    /\ ((forall i, (calls w <= i < calls (snd r))%nat -> exists e, script i = Rejected e) ->
        exists e, fst r = Throw (ThrownError e)
                  /\ script (calls (snd r) - 1)%nat = Rejected e).
Proof.
  intros script config w Hmax. unfold retryWithBackoff. cbn zeta.
  pose proof (attempts_spec script (spread config)
                (Z.to_nat (p_maxAttempts (spread config))) 0 ThrownUndefined w) as H.
  cbn zeta in H.
  destruct (attempts (remote script) (spread config)
              (Z.to_nat (p_maxAttempts (spread config))) 0 ThrownUndefined w) as [x w'].
  cbn [fst snd] in H. destruct H as [Hb Hx].
  destruct x as [v|t]; cbn [fst snd].
  - destruct Hx as [Hlt Hv].
    split; [lia|]. split; [lia|]. split; [lia|]. split.
    + intros v' [= <-]. exact Hv.
    + intros Hall. destruct (Hall (calls w' - 1)%nat ltac:(lia)) as [e He]. congruence.
  - destruct Hx as [(H0 & _)|(Hlt & e & -> & He)]; [lia|].
    split; [lia|]. split; [lia|]. split; [lia|]. split.
    + intros v' [=].
    + intros _. eauto.
Qed.

Lemma C8_witness :
  let e503 := mkError "Error" "Service Unavailable" (Some 503) in
  let e500 := mkError "Error" "Internal Server Error" (Some 500) in
  let script := fun i : nat => if (i <? 2)%nat then Rejected e503 else Rejected e500 in
  let w := mkWorld 0 (fun n => Z.of_nat n) 0 (fun _ => (1 # 2)%Q) 0 [] in
  let r := retryWithBackoff (remote script) RETRY_CONFIGS.STANDARD w in
  1 <= p_maxAttempts (spread RETRY_CONFIGS.STANDARD)
  /\ (1 <= calls (snd r) - calls w)%nat
  /\ Z.of_nat (calls (snd r) - calls w) <= p_maxAttempts (spread RETRY_CONFIGS.STANDARD)
  /\ exists e, fst r = Throw (ThrownError e)
               /\ script (calls (snd r) - 1)%nat = Rejected e.
Proof.
  intros e503 e500 script w r.
  assert (Hmax : 1 <= p_maxAttempts (spread RETRY_CONFIGS.STANDARD))
    by (vm_compute; discriminate).
  split; [exact Hmax|].
  destruct (C8_attempt_budget_and_last_error script RETRY_CONFIGS.STANDARD w Hmax)
    as (_ & H1 & H2 & _ & H4).
  split; [exact H1|]. split; [exact H2|].
  apply H4. intros i _. unfold script. destruct (i <? 2)%nat; eauto.
Defined.

(** ** The circuit breaker *)

(** A failure always resets [lastFailureTime]; it opens the breaker only
    when the failure count reaches the threshold, and otherwise leaves the
    state as it was. *)
Lemma onFailure_spec this w :
  onFailure (this, w) =
    (Normal tt,
     (mkCircuitBreaker (failureThreshold this) (resetTimeout this) (monitoringPeriod this)
        (if failureCount this + 1 >=? failureThreshold this then OPEN else state this)
        (failureCount this + 1) (Some (clock w (ticks w))) (successCount this),
      mkWorld (calls w) (clock w) (S (ticks w)) (Math_random w) (draws w) (sleeps w))).
Proof.
  unfold onFailure, bind, assign, this_, in_world, modify, gets, ret, Date_now. cbn.
  destruct (failureCount this + 1 >=? failureThreshold this); reflexivity.
Qed.

(** A call that gets past the gate and fails: the error of the operation
    is re-thrown after [onFailure]. *)
Lemma execute_failure script this w error :
  state this <> OPEN ->
  script (calls w) = Rejected error ->
  execute (remote script) (this, w) =
    (Throw (ThrownError error), snd (onFailure (this, snd (remote script w)))).
Proof.
  intros Hst Hrej.
  assert (Hopen : is_state OPEN this = false)
    by (unfold is_state; destruct (state this); congruence).
  unfold execute. unfold bind at 1. unfold this_ at 1, gets. cbn [fst]. rewrite Hopen.
  unfold bind at 1. unfold ret at 1. unfold try_catch, bind at 1, in_world, await.
  cbn [snd fst]. unfold remote at 1. rewrite Hrej.
  unfold bind, throw. rewrite !onFailure_spec. reflexivity.
Qed.

(** In HALF_OPEN a failed call re-throws the error and resets
    [lastFailureTime], and the breaker opens exactly when
    [failureCount + 1] reaches [failureThreshold]. *)
Lemma execute_half_open_failure script this w error :
  state this = HALF_OPEN ->
  script (calls w) = Rejected error ->
  let r := execute (remote script) (this, w) in
  fst r = Throw (ThrownError error)
  /\ lastFailureTime (fst (snd r)) = Some (clock w (ticks w))
  /\ state (fst (snd r)) =
       if failureCount this + 1 >=? failureThreshold this then OPEN else HALF_OPEN.
Proof.
  intros Hst Hrej r. subst r.
  rewrite (execute_failure script this w error) by (rewrite ?Hst; congruence).
  rewrite onFailure_spec. cbn. rewrite Hst. auto.
Qed.

Lemma reachable_execute_times script n s :
  reachable s -> reachable (execute_times script n s).
Proof.
  intros Hs. induction n as [|n IH]; [exact Hs|].
  cbn [execute_times].
  destruct (execute_times script n s) as [this w].
  destruct (execute (remote script) (this, w)) as [r [this' w']] eqn:E.
  exact (reach_execute script this w r this' w' IH E).
Qed.

(** Whatever a call of [execute] does, it leaves the breaker OPEN only
    with [failureThreshold] counted failures or more, and it keeps the
    configuration. *)
Lemma execute_open_tripped script this w :
  let this' := fst (snd (execute (remote script) (this, w))) in
  (state this = OPEN -> failureThreshold this <= failureCount this) ->
  failureThreshold this' = failureThreshold this
  /\ resetTimeout this' = resetTimeout this
  /\ (state this' = OPEN -> failureThreshold this' <= failureCount this').
Proof.
  intros this'. subst this'. destruct this as [thr rt mp st fc lft sc].
  unfold execute, onSuccess, onFailure, bind, this_, assign, in_world, try_catch, gets,
    modify, ret, throw, await, remote, Date_now, is_state,
    set_state, set_failureCount, set_lastFailureTime, set_successCount.
  cbn. destruct st; cbn;
    repeat match goal with
           | |- context [?a >? ?b] => destruct (Z.gtb_spec a b); cbn
           end;
    destruct (script (calls w)); cbn;
    repeat match goal with
           | |- context [?a >=? ?b] => destruct (Z.geb_spec a b); cbn
           end;
    intros Hinv; repeat split; intros; try discriminate; try lia; auto.
Qed.

Lemma reachable_open_tripped s :
  reachable s -> state (fst s) = OPEN -> failureThreshold (fst s) <= failureCount (fst s).
Proof.
  induction 1 as [config w Hclock|script this w r this' w' Hreach IH Hexec].
  - cbn. discriminate.
  - pose proof (execute_open_tripped script this w IH) as (_ & _ & Hinv).
    rewrite Hexec in Hinv. exact Hinv.
Qed.

(** What does hold of a failure in HALF_OPEN: the trial call that the
    breaker lets through once the reset timeout has passed puts it back to
    OPEN, with [lastFailureTime] reset, when it fails. *)
Lemma trial_call_failure_reopens script this w error :
  reachable (this, w) ->
  state this = OPEN ->
  clock w (ticks w) - default 0 (lastFailureTime this) > resetTimeout this ->
  script (calls w) = Rejected error ->
  let r := execute (remote script) (this, w) in
  fst r = Throw (ThrownError error)
  /\ state (fst (snd r)) = OPEN
  /\ lastFailureTime (fst (snd r)) = Some (clock w (S (ticks w))).
Proof.
  intros Hreach Hst Htimeout Hrej r. subst r.
  pose proof (reachable_open_tripped _ Hreach Hst) as Htripped. cbn [fst] in Htripped.
  destruct this as [thr rt mp st fc lft sc]. cbn in Hst, Htimeout, Htripped. subst st.
  unfold execute, onSuccess, onFailure, bind, this_, assign, in_world, try_catch, gets,
    modify, ret, throw, await, remote, Date_now, is_state,
    set_state, set_failureCount, set_lastFailureTime, set_successCount.
  cbn. destruct (Z.gtb_spec (clock w (ticks w) - default 0 lft) rt); [|lia].
  cbn. rewrite Hrej. cbn.
  destruct (Z.geb_spec (fc + 1) thr); [|lia].
  cbn. auto.
Qed.

(** C1 (not met by the code).  A breaker with the default configuration
    opens after five failures; once the reset timeout has passed, a
    successful call puts it in HALF_OPEN and sets [failureCount] back
    to 0.  The next call fails: its error is re-thrown and
    [lastFailureTime] is reset, but the breaker stays HALF_OPEN, because
    [onFailure] opens it only at [failureThreshold] counted failures. *)
Theorem C1_failure_after_success_stays_half_open :
  let config := mkBreakerConfig None None None in
  let error := mkError "Error" "Service Unavailable" (Some 503) in
  let script := fun i : nat => if (i =? 5)%nat then Resolved (VNum 1) else Rejected error in
  let clock := fun n : nat => if (n <? 5)%nat then Z.of_nat n else 100000 + Z.of_nat n in
  let w0 := mkWorld 0 clock 0 (fun _ => 0%Q) 0 [] in
  let s := execute_times script 6 (new_CircuitBreaker config, w0) in
  let r := execute (remote script) s in
  reachable s
  /\ state (fst s) = HALF_OPEN
  /\ script (calls (snd s)) = Rejected error
  /\ fst r = Throw (ThrownError error)
  /\ lastFailureTime (fst (snd r)) = Some (clock (ticks (snd s)))
  /\ state (fst (snd r)) = HALF_OPEN
  /\ state (fst (snd r)) <> OPEN.
Proof.
  intros config error script clock w0 s r.
  split.
  { apply reachable_execute_times. apply reach_new.
    intros i j Hij. change (clock i <= clock j). unfold clock.
    destruct (Nat.ltb_spec i 5), (Nat.ltb_spec j 5); lia. }
  split; [vm_compute; reflexivity|]. split; [vm_compute; reflexivity|].
  split; [vm_compute; reflexivity|]. split; [vm_compute; reflexivity|].
  split; [vm_compute; reflexivity|]. vm_compute. discriminate.
Qed.

(** * Further properties of the resilience layer *)

(** ** Back-off delays *)

(** The delay is not negative when the parameters are not. *)
Lemma calculateDelay_nonneg attempt baseDelay backoffFactor maxDelay :
  (0 <= baseDelay)%Q -> (0 <= backoffFactor)%Q -> (0 <= maxDelay)%Q ->
  (0 <= calculateDelay attempt baseDelay backoffFactor maxDelay)%Q.
Proof.
  intros Hb Hf Hm. unfold calculateDelay. apply Q.min_glb; [|exact Hm].
  apply Qmult_le_0_compat; [exact Hb|]. apply Qpower_0_le, Hf.
Qed.

(** X1. For attempts counted from 0, a base delay that is not negative and a
    factor of at least 1: the delay never exceeds [maxDelay], it is
    [min(baseDelay, maxDelay)] for the first attempt and never less
    afterwards, and it does not decrease from an attempt to a later
    one. *)
Theorem calculateDelay_capped_and_monotone :
  forall (attempt attempt' : Z) (baseDelay backoffFactor maxDelay : Q),
    0 <= attempt <= attempt' ->
    (0 <= baseDelay)%Q ->
    (1 <= backoffFactor)%Q ->
    (calculateDelay attempt baseDelay backoffFactor maxDelay <= maxDelay)%Q
    /\ (calculateDelay 0 baseDelay backoffFactor maxDelay == Qmin baseDelay maxDelay)%Q
    /\ (Qmin baseDelay maxDelay <= calculateDelay attempt baseDelay backoffFactor maxDelay)%Q
    /\ (calculateDelay attempt baseDelay backoffFactor maxDelay <=
        calculateDelay attempt' baseDelay backoffFactor maxDelay)%Q.
Proof.
  intros attempt attempt' b f m [H0 Hle] Hb Hf. unfold calculateDelay. cbn zeta.
  assert (Hmono : forall n n' : Z, n <= n' -> (b * f ^ n <= b * f ^ n')%Q).
  { intros n n' Hn. rewrite !(Qmult_comm b). apply Qmult_le_compat_r; [|exact Hb].
    apply Qpower_le_compat_l; assumption. }
  assert (H1 : (b * f ^ 0 == b)%Q) by (cbn; ring).
  split; [apply Q.le_min_r|]. split; [rewrite H1; reflexivity|]. split.
  - rewrite <- H1 at 1. apply Q.min_le_compat_r, Hmono, H0.
  - apply Q.min_le_compat_r, Hmono, Hle.
Qed.

Lemma calculateDelay_capped_and_monotone_witness :
  (calculateDelay 1 1000 2 10000 <= 10000)%Q
  /\ (calculateDelay 1 1000 2 10000 <= calculateDelay 4 1000 2 10000)%Q.
Proof.
  destruct (calculateDelay_capped_and_monotone 1 4 1000 2 10000) as (H1 & _ & _ & H4).
  - lia.
  - vm_compute. discriminate.
  - vm_compute. discriminate.
  - split; [exact H1|exact H4].
Defined.

(** X2. [addJitter] draws one random number and returns a delay between
    [delay] and [delay * (1 + jitterFactor)]: jitter only lengthens a
    delay, by the fraction [jitterFactor] at most. *)
Theorem addJitter_adds_bounded_jitter :
  forall (delay jitterFactor : Q) (w : World),
    (0 <= delay)%Q ->
    (0 <= jitterFactor)%Q ->
    unit_interval (Math_random w) ->
    exists delayWithJitter,
      addJitter delay jitterFactor w =
        (Normal delayWithJitter,
         mkWorld (calls w) (clock w) (ticks w) (Math_random w) (S (draws w)) (sleeps w))
      /\ (delay <= delayWithJitter)%Q
      /\ (delayWithJitter <= delay * (1 + jitterFactor))%Q.
Proof.
  intros delay jf w Hd Hj Hr. eexists. split; [reflexivity|].
  destruct (Hr (draws w)) as [H0 H1].
  set (r := Math_random w (draws w)) in *.
  assert (Hdj : (0 <= delay * jf)%Q) by (apply Qmult_le_0_compat; assumption).
  split.
  - assert (0 <= delay * jf * r)%Q by (apply Qmult_le_0_compat; assumption). lra.
  - assert (delay * jf * r <= delay * jf * 1)%Q.
    { rewrite !(Qmult_comm (delay * jf)). apply Qmult_le_compat_r; [lra|exact Hdj]. }
    lra.
Qed.

Lemma addJitter_adds_bounded_jitter_witness :
  let w := mkWorld 0 (fun n => Z.of_nat n) 0 (fun _ => (1 # 2)%Q) 0 [] in
  exists d, fst (addJitter 1000 (1 # 10) w) = Normal d /\ (1000 <= d)%Q /\ (d <= 1100)%Q.
Proof.
  intros w.
  destruct (addJitter_adds_bounded_jitter 1000 (1 # 10) w) as (d & Heq & Hlo & Hhi).
  - vm_compute. discriminate.
  - vm_compute. discriminate.
  - intros n. split; vm_compute; [discriminate|reflexivity].
  - exists d. rewrite Heq. split; [reflexivity|]. split; [exact Hlo|].
    eapply Qle_trans; [exact Hhi|]. vm_compute. discriminate.
Defined.

(** ** The retry loop *)

(** After [k] failures that the policy retries, none of them on the last
    attempt allowed, the loop is at its turn [attempt + k], having invoked
    the operation and slept [k] times. *)
Lemma attempts_retry_prefix script policy :
  forall (k remaining : nat) attempt lastError w,
    (forall i, (i < k)%nat ->
       exists e, script (calls w + i)%nat = Rejected e /\ p_retryCondition policy e = true) ->
    (k <= remaining)%nat ->
    attempt + Z.of_nat k <= p_maxAttempts policy - 1 ->
    exists w' lastError',
      attempts (remote script) policy remaining attempt lastError w =
        attempts (remote script) policy (remaining - k) (attempt + Z.of_nat k) lastError' w'
      /\ calls w' = (calls w + k)%nat
      /\ length (sleeps w') = (length (sleeps w) + k)%nat.
Proof.
  induction k as [|k IH]; intros remaining attempt lastError w Hpre Hrem Hatt.
  - exists w, lastError. rewrite Nat.sub_0_r, Z.add_0_r, !Nat.add_0_r. auto.
  - destruct remaining as [|remaining]; [lia|].
    destruct (Hpre 0%nat ltac:(lia)) as (e & He & Hce).
    rewrite Nat.add_0_r in He.
    destruct (attempts_retried script policy remaining attempt lastError w e He Hce
                ltac:(lia)) as (w2 & -> & Hcalls & Hsleeps).
    destruct (IH remaining (attempt + 1) (ThrownError e) w2) as (w' & l' & -> & Hc' & Hs').
    + intros i Hi. rewrite Hcalls.
      destruct (Hpre (S i) ltac:(lia)) as (e' & He' & Hce').
      exists e'. split; [|exact Hce'].
      rewrite <- He'. f_equal. lia.
    + lia.
    + lia.
    + exists w', l'. cbn [Nat.sub].
      replace (attempt + 1 + Z.of_nat k) with (attempt + Z.of_nat (S k)) by lia.
      split; [reflexivity|]. split; lia.
Qed.

(** X3. Transient failures are retried until the operation succeeds: after
    [k] failures the policy retries, [k] being less than [maxAttempts], a
    success is returned to the caller; the operation has been invoked
    [k + 1] times and the caller has slept [k] times. *)
Theorem retryWithBackoff_returns_first_success :
  forall (script : nat -> outcome) (config : Config) (w : World) (k : nat) (v : value),
    (forall i, (i < k)%nat ->
       exists e, script (calls w + i)%nat = Rejected e
                 /\ p_retryCondition (spread config) e = true) ->
    script (calls w + k)%nat = Resolved v ->
    Z.of_nat k < p_maxAttempts (spread config) ->
    let r := retryWithBackoff (remote script) config w in
    fst r = Normal v
    /\ calls (snd r) = (calls w + k + 1)%nat
    /\ length (sleeps (snd r)) = (length (sleeps w) + k)%nat.
Proof.
  intros script config w k v Hpre Hres Hk r. subst r. unfold retryWithBackoff. cbn zeta.
  destruct (attempts_retry_prefix script (spread config) k
              (Z.to_nat (p_maxAttempts (spread config))) 0 ThrownUndefined w Hpre
              ltac:(lia) ltac:(lia)) as (w' & l' & -> & Hc & Hs).
  destruct (Z.to_nat (p_maxAttempts (spread config)) - k)%nat as [|n] eqn:En; [lia|].
  cbn [attempts remote]. rewrite Hc, Hres. cbn [fst snd calls sleeps].
  split; [reflexivity|]. split; lia.
Qed.

Lemma retryWithBackoff_returns_first_success_witness :
  let e503 := mkError "Error" "Service Unavailable" (Some 503) in
  let script := fun i : nat => if (i <? 2)%nat then Rejected e503 else Resolved (VNum 7) in
  let w := mkWorld 0 (fun n => Z.of_nat n) 0 (fun _ => (1 # 2)%Q) 0 [] in
  let r := retryWithBackoff (remote script) RETRY_CONFIGS.STANDARD w in
  fst r = Normal (VNum 7) /\ calls (snd r) = 3%nat /\ length (sleeps (snd r)) = 2%nat.
Proof.
  intros e503 script w r.
  apply (retryWithBackoff_returns_first_success script RETRY_CONFIGS.STANDARD w 2 (VNum 7)).
  - intros i Hi. exists e503. unfold script. cbn [calls w Nat.add].
    destruct (Nat.ltb_spec i 2); [|lia]. split; reflexivity.
  - reflexivity.
  - vm_compute. reflexivity.
Defined.

(** X4. When every attempt fails and the policy retries each failure, the
    budget is used up: the operation is invoked exactly [maxAttempts]
    times, the caller sleeps between the attempts and not after the last,
    and the error of the last attempt is thrown, whether or not the policy
    would retry it. *)
Theorem retryWithBackoff_exhausts_budget :
  forall (script : nat -> outcome) (config : Config) (w : World) (n : nat) (error : Error),
    p_maxAttempts (spread config) = Z.of_nat (S n) ->
    (forall i, (i < n)%nat ->
       exists e, script (calls w + i)%nat = Rejected e
                 /\ p_retryCondition (spread config) e = true) ->
    script (calls w + n)%nat = Rejected error ->
    let r := retryWithBackoff (remote script) config w in
    fst r = Throw (ThrownError error)
    /\ calls (snd r) = (calls w + S n)%nat
    /\ length (sleeps (snd r)) = (length (sleeps w) + n)%nat.
Proof.
  intros script config w n error Hmax Hpre Hrej r. subst r.
  unfold retryWithBackoff. cbn zeta.
  destruct (attempts_retry_prefix script (spread config) n
              (Z.to_nat (p_maxAttempts (spread config))) 0 ThrownUndefined w Hpre
              ltac:(lia) ltac:(lia)) as (w' & l' & -> & Hc & Hs).
  replace (Z.to_nat (p_maxAttempts (spread config)) - n)%nat with 1%nat by lia.
  cbn [attempts remote]. rewrite Hc, Hrej.
  replace (0 + Z.of_nat n =? p_maxAttempts (spread config) - 1) with true
    by (symmetry; apply Z.eqb_eq; lia).
  cbn [fst snd calls sleeps]. split; [reflexivity|]. split; lia.
Qed.

Lemma retryWithBackoff_exhausts_budget_witness :
  let e503 := mkError "Error" "Service Unavailable" (Some 503) in
  let e404 := mkError "Error" "Not Found" (Some 404) in
  let script := fun i : nat => if (i <? 2)%nat then Rejected e503 else Rejected e404 in
  let w := mkWorld 0 (fun n => Z.of_nat n) 0 (fun _ => (1 # 2)%Q) 0 [] in
  let r := retryWithBackoff (remote script) RETRY_CONFIGS.STANDARD w in
  fst r = Throw (ThrownError e404) /\ calls (snd r) = 3%nat
  /\ length (sleeps (snd r)) = 2%nat.
Proof.
  intros e503 e404 script w r.
  apply (retryWithBackoff_exhausts_budget script RETRY_CONFIGS.STANDARD w 2 e404).
  - reflexivity.
  - intros i Hi. exists e503. unfold script. cbn [calls w Nat.add].
    destruct (Nat.ltb_spec i 2); [|lia]. split; reflexivity.
  - reflexivity.
Defined.

(** X5. With [maxAttempts] of 0 or less the loop is not entered: the
    operation is never invoked, and what is thrown is the [undefined]
    that [lastError] still holds. *)
Theorem retryWithBackoff_without_attempts_throws_undefined :
  forall (operation : Operation) (config : Config) (w : World),
    p_maxAttempts (spread config) <= 0 ->
    retryWithBackoff operation config w = (Throw ThrownUndefined, w).
Proof.
  intros operation config w Hmax. unfold retryWithBackoff. cbn zeta.
  replace (Z.to_nat (p_maxAttempts (spread config))) with 0%nat by lia.
  reflexivity.
Qed.

Lemma retryWithBackoff_without_attempts_throws_undefined_witness :
  let w := mkWorld 0 (fun n => Z.of_nat n) 0 (fun _ => (1 # 2)%Q) 0 [] in
  retryWithBackoff (remote (fun _ => Resolved (VNum 7)))
    (mkConfig (Some 0) None None None None) w = (Throw ThrownUndefined, w).
Proof.
  intros w.
  apply (retryWithBackoff_without_attempts_throws_undefined _
           (mkConfig (Some 0) None None None None) w).
  vm_compute. discriminate.
Defined.

(** The delays slept, in the loop entered at turn [a] with as many turns
    to go as the budget leaves: one sleep between an attempt and the
    next, each of the delay of its attempt with its jitter. *)
Lemma attempts_schedule script policy :
  forall (remaining a : nat) lastError w,
    (remaining = 0%nat \/ Z.of_nat remaining + Z.of_nat a = p_maxAttempts policy) ->
    let r := attempts (remote script) policy remaining (Z.of_nat a) lastError w in
    let made := (calls (snd r) - calls w)%nat in
    (calls w <= calls (snd r))%nat
    /\ (remaining <> 0%nat -> (1 <= made)%nat)
    /\ sleeps (snd r) =
         rev (map (fun i => delayWithJitter policy (Math_random w) (a + i) (draws w + i))
                (seq 0 (made - 1))) ++ sleeps w
    /\ draws (snd r) = (draws w + (made - 1))%nat
    /\ Math_random (snd r) = Math_random w.
Proof.
  induction remaining as [|remaining IH]; intros a lastError w Hinv r made.
  - subst r made. cbn [attempts fst snd]. rewrite Nat.sub_diag. cbn.
    repeat split; try lia; try reflexivity.
  - destruct Hinv as [|Hinv]; [discriminate|].
    subst r made. cbn [attempts remote].
    destruct (script (calls w)) as [v|error].
    + cbn [fst snd calls sleeps draws Math_random].
      replace (S (calls w) - calls w - 1)%nat with 0%nat by lia. cbn.
      repeat split; try lia; try reflexivity.
    + destruct (Z.eqb_spec (Z.of_nat a) (p_maxAttempts policy - 1)) as [Hlast|Hlast];
        [|destruct (p_retryCondition policy error)]; cbn [negb].
      * cbn [fst snd calls sleeps draws Math_random].
        replace (S (calls w) - calls w - 1)%nat with 0%nat by lia. cbn.
        repeat split; try lia; try reflexivity.
      * unfold addJitter, sleep, random, bind, modify, ret. cbn beta iota.
        cbn [calls clock ticks Math_random draws sleeps].
        match goal with
        | |- context [attempts _ _ _ _ _ ?W] => set (w2 := W)
        end.
        replace (Z.of_nat a + 1) with (Z.of_nat (S a)) by lia.
        assert (Hrem : remaining <> 0%nat) by lia.
        specialize (IH (S a) (ThrownError error) w2 ltac:(right; lia)).
        cbn zeta in IH. destruct IH as (Hle & Hmade & Hs & Hd & Hr).
        specialize (Hmade Hrem).
        change (calls w2) with (S (calls w)) in *.
        change (draws w2) with (S (draws w)) in *.
        change (Math_random w2) with (Math_random w) in *.
        change (sleeps w2) with
          (delayWithJitter policy (Math_random w) a (draws w) :: sleeps w) in Hs.
        set (r := attempts (remote script) policy remaining (Z.of_nat (S a))
                    (ThrownError error) w2) in *.
        split; [lia|]. split; [lia|]. split; [|split; [lia|exact Hr]].
        rewrite Hs.
        replace (calls (snd r) - calls w - 1)%nat
          with (S (calls (snd r) - S (calls w) - 1)) by lia.
        set (m := (calls (snd r) - S (calls w) - 1)%nat).
        cbn [seq map rev]. rewrite <- seq_shift, map_map, <- !app_assoc. cbn [app].
        rewrite !Nat.add_0_r. f_equal. f_equal.
        apply map_ext. intros i. f_equal; lia.
      * cbn [fst snd calls sleeps draws Math_random].
        replace (S (calls w) - calls w - 1)%nat with 0%nat by lia. cbn.
        repeat split; try lia; try reflexivity.
Qed.

(** The jittered delay of an attempt lies between the delay of the
    attempt and that delay plus a tenth. *)
Lemma delayWithJitter_bounds policy random attempt draw :
  (0 <= p_baseDelay policy)%Q ->
  (0 <= p_backoffFactor policy)%Q ->
  (0 <= p_maxDelay policy)%Q ->
  unit_interval random ->
  let delay := calculateDelay (Z.of_nat attempt) (p_baseDelay policy)
                 (p_backoffFactor policy) (p_maxDelay policy) in
  (delay <= delayWithJitter policy random attempt draw)%Q
  /\ (delayWithJitter policy random attempt draw <= delay * (11 # 10))%Q
  /\ (delayWithJitter policy random attempt draw <= p_maxDelay policy * (11 # 10))%Q.
Proof.
  intros Hb Hf Hm Hr delay.
  assert (Hd : (0 <= delay)%Q) by (apply calculateDelay_nonneg; assumption).
  assert (Hcap : (delay <= p_maxDelay policy)%Q) by apply Q.le_min_r.
  unfold delayWithJitter. fold delay. cbn zeta.
  destruct (Hr draw) as [H0 H1]. set (x := random draw) in *.
  assert (Hdj : (0 <= delay * (1 # 10))%Q) by (apply Qmult_le_0_compat; [exact Hd|lra]).
  assert (Hlo : (0 <= delay * (1 # 10) * x)%Q) by (apply Qmult_le_0_compat; assumption).
  assert (Hhi : (delay * (1 # 10) * x <= delay * (1 # 10) * 1)%Q).
  { rewrite !(Qmult_comm (delay * (1 # 10))). apply Qmult_le_compat_r; [lra|exact Hdj]. }
  repeat split; lra.
Qed.

(** X6. The waits of a retry sequence follow the back-off schedule: between
    two attempts the caller sleeps exactly once (so one time less than the
    operation is invoked), the [i]-th wait being [calculateDelay(i, ...)]
    plus a jitter of a tenth of it at most; with parameters that are not
    negative no wait exceeds [maxDelay] by more than a tenth. *)
Theorem retryWithBackoff_sleeps_follow_schedule :
  forall (script : nat -> outcome) (config : Config) (w : World),
    let policy := spread config in
    let r := retryWithBackoff (remote script) config w in
    let made := (calls (snd r) - calls w)%nat in
    let waits :=
      map (fun i => delayWithJitter policy (Math_random w) i (draws w + i))
        (seq 0 (made - 1)) in
    sleeps (snd r) = rev waits ++ sleeps w
    /\ draws (snd r) = (draws w + (made - 1))%nat
    /\ ((0 <= p_baseDelay policy)%Q ->
        (0 <= p_backoffFactor policy)%Q ->
        (0 <= p_maxDelay policy)%Q ->
        unit_interval (Math_random w) ->
        forall i wait, waits !! i = Some wait ->
          let delay := calculateDelay (Z.of_nat i) (p_baseDelay policy)
                         (p_backoffFactor policy) (p_maxDelay policy) in
          (delay <= wait)%Q /\ (wait <= delay * (11 # 10))%Q
          /\ (wait <= p_maxDelay policy * (11 # 10))%Q).
Proof.
  intros script config w policy r made waits.
  pose proof (attempts_schedule script policy (Z.to_nat (p_maxAttempts policy)) 0
                ThrownUndefined w) as H.
  cbn zeta in H.
  assert (Hrun : calls (snd r) =
                 calls (snd (attempts (remote script) policy
                               (Z.to_nat (p_maxAttempts policy)) 0 ThrownUndefined w))
                 /\ sleeps (snd r) = sleeps (snd (attempts (remote script) policy
                               (Z.to_nat (p_maxAttempts policy)) 0 ThrownUndefined w))
                 /\ draws (snd r) = draws (snd (attempts (remote script) policy
                               (Z.to_nat (p_maxAttempts policy)) 0 ThrownUndefined w))).
  { subst r. unfold retryWithBackoff. cbn zeta. fold policy.
    destruct (attempts (remote script) policy (Z.to_nat (p_maxAttempts policy)) 0
                ThrownUndefined w) as [[v|t] w']; auto. }
  destruct Hrun as (Hc & Hs & Hd).
  destruct H as (_ & _ & Hsl & Hdr & _).
  { destruct (Z.to_nat (p_maxAttempts policy)) eqn:E; [left; reflexivity|right; lia]. }
  change (Z.of_nat 0) with 0 in *.
  rewrite <- Hc in Hsl, Hdr. rewrite <- Hs in Hsl. rewrite <- Hd in Hdr.
  split; [exact Hsl|]. split; [exact Hdr|].
  intros Hb Hf Hm Hr i wait Hi delay.
  subst waits. rewrite list_lookup_fmap in Hi.
  destruct (seq 0 (made - 1) !! i) as [j|] eqn:Ej; [|discriminate].
  apply lookup_seq in Ej as [-> _]. cbn in Hi. injection Hi as <-.
  apply delayWithJitter_bounds; assumption.
Qed.

Lemma retryWithBackoff_sleeps_follow_schedule_witness :
  let e503 := mkError "Error" "Service Unavailable" (Some 503) in
  let w := mkWorld 0 (fun n => Z.of_nat n) 0 (fun _ => (1 # 2)%Q) 0 [] in
  let r := retryWithBackoff (remote (fun _ => Rejected e503)) RETRY_CONFIGS.STANDARD w in
  sleeps (snd r) = [(2000 + 2000 * (1 # 10) * (1 # 2))%Q; (1000 + 1000 * (1 # 10) * (1 # 2))%Q]
  /\ forall wait, wait ∈ sleeps (snd r) -> (wait <= 5000 * (11 # 10))%Q.
Proof.
  intros e503 w r.
  destruct (retryWithBackoff_sleeps_follow_schedule (fun _ => Rejected e503)
              RETRY_CONFIGS.STANDARD w) as (Hs & _ & Hb).
  fold r in Hs, Hb. split.
  - vm_compute. reflexivity.
  - intros wait Hin. rewrite Hs, app_nil_r in Hin.
    apply list_elem_of_In, in_rev, list_elem_of_In, list_elem_of_lookup in Hin as [i Hi].
    refine (proj2 (proj2 (Hb _ _ _ _ i wait Hi))).
    + vm_compute. discriminate.
    + vm_compute. discriminate.
    + vm_compute. discriminate.
    + intros n. split; vm_compute; [discriminate|reflexivity].
Defined.

(** X7. A configuration that leaves [retryCondition] out has the default
    one.  After a first failure, more attempts being allowed: an error
    without a response (a network error), with a status of 500 or more, or
    with status 429 is retried (the caller sleeps and the operation is
    invoked again); an error with any other status ends the sequence at
    once, with that error. *)
Theorem default_retryCondition_retries_server_errors :
  forall (script : nat -> outcome) (config : Config) (w : World) (error : Error),
    retryCondition config = None ->
    1 < p_maxAttempts (spread config) ->
    script (calls w) = Rejected error ->
    let r := retryWithBackoff (remote script) config w in
    ((response error = None
      \/ exists status, response error = Some status /\ (500 <= status \/ status = 429)) ->
     (calls w + 2 <= calls (snd r))%nat
     /\ (length (sleeps w) + 1 <= length (sleeps (snd r)))%nat)
    /\ (forall status,
          response error = Some status -> status < 500 -> status <> 429 ->
          r = (Throw (ThrownError error),
               mkWorld (S (calls w)) (clock w) (ticks w) (Math_random w) (draws w)
                 (sleeps w))).
Proof.
  intros script config w error Hnone Hmax Hrej r.
  assert (Hcond : p_retryCondition (spread config) = DEFAULT_RETRY_CONFIG.retryCondition)
    by (unfold spread; rewrite Hnone; reflexivity).
  destruct (Z.to_nat (p_maxAttempts (spread config))) as [|remaining] eqn:En; [lia|].
  split.
  - intros Hretry.
    assert (Htrue : p_retryCondition (spread config) error = true).
    { rewrite Hcond. unfold DEFAULT_RETRY_CONFIG.retryCondition.
      destruct Hretry as [->|(status & -> & [H|H])]; [reflexivity| |].
      - apply orb_true_iff. left. apply Z.geb_le. exact H.
      - apply orb_true_iff. right. apply Z.eqb_eq. exact H. }
    destruct (attempts_retried script (spread config) remaining 0 ThrownUndefined w error
                Hrej Htrue ltac:(lia)) as (w2 & Heq & Hc & Hs).
    pose proof (attempts_schedule script (spread config) remaining 1 (ThrownError error) w2
                  ltac:(right; lia)) as H.
    cbn zeta in H. change (Z.of_nat 1) with (0 + 1) in H.
    destruct H as (_ & Hmade & Hsl & _). specialize (Hmade ltac:(lia)).
    subst r. unfold retryWithBackoff. cbn zeta. rewrite En, Heq.
    destruct (attempts (remote script) (spread config) remaining (0 + 1) (ThrownError error)
                w2) as [[v|t] w']; cbn [fst snd] in *;
      (split; [lia|]); rewrite Hsl, length_app, Hs; lia.
  - intros status Hst Hlt Hne.
    assert (Hfalse : p_retryCondition (spread config) error = false).
    { rewrite Hcond. unfold DEFAULT_RETRY_CONFIG.retryCondition. rewrite Hst.
      apply orb_false_iff. split; [rewrite Z.geb_leb; apply Z.leb_gt; exact Hlt|apply Z.eqb_neq; exact Hne]. }
    subst r. unfold retryWithBackoff. cbn zeta. rewrite En.
    rewrite (attempts_not_retried _ _ _ _ _ _ _ Hrej Hfalse). reflexivity.
Qed.

Lemma default_retryCondition_retries_server_errors_witness :
  let w := mkWorld 0 (fun n => Z.of_nat n) 0 (fun _ => (1 # 2)%Q) 0 [] in
  let failing := fun status : Z =>
    retryWithBackoff (remote (fun _ => Rejected (mkError "Error" "failed" (Some status))))
      RETRY_CONFIGS.QUICK w in
  (2 <= calls (snd (failing 503%Z)))%nat
  /\ calls (snd (failing 404)) = 1%nat.
Proof.
  intros w failing.
  destruct (default_retryCondition_retries_server_errors
              (fun _ => Rejected (mkError "Error" "failed" (Some 503)))
              RETRY_CONFIGS.QUICK w (mkError "Error" "failed" (Some 503)))
    as [Hretried _]; [reflexivity|vm_compute; reflexivity|reflexivity|].
  destruct (default_retryCondition_retries_server_errors
              (fun _ => Rejected (mkError "Error" "failed" (Some 404)))
              RETRY_CONFIGS.QUICK w (mkError "Error" "failed" (Some 404)))
    as [_ Hstopped]; [reflexivity|vm_compute; reflexivity|reflexivity|].
  split.
  - apply Hretried. right. exists 503. split; [reflexivity|lia].
  - unfold failing. rewrite (Hstopped 404); [reflexivity|reflexivity|lia|lia].
Defined.

(** All attempts failing with errors the policy retries, the budget is
    used up. *)
Lemma retryWithBackoff_exhausted script config w (n : nat) error :
  p_maxAttempts (spread config) = Z.of_nat (S n) ->
  (forall i, (i < n)%nat ->
     exists e, script (calls w + i)%nat = Rejected e
               /\ p_retryCondition (spread config) e = true) ->
  script (calls w + n)%nat = Rejected error ->
  exists w',
    retryWithBackoff (remote script) config w = (Throw (ThrownError error), w')
    /\ calls w' = (calls w + S n)%nat
    /\ length (sleeps w') = (length (sleeps w) + n)%nat.
Proof.
  intros Hmax Hpre Hrej. unfold retryWithBackoff. cbn zeta.
  destruct (attempts_retry_prefix script (spread config) n
              (Z.to_nat (p_maxAttempts (spread config))) 0 ThrownUndefined w Hpre
              ltac:(lia) ltac:(lia)) as (w' & l' & -> & Hc & Hs).
  replace (Z.to_nat (p_maxAttempts (spread config)) - n)%nat with 1%nat by lia.
  cbn [attempts remote]. rewrite Hc, Hrej.
  replace (0 + Z.of_nat n =? p_maxAttempts (spread config) - 1) with true
    by (symmetry; apply Z.eqb_eq; lia).
  eexists. split; [reflexivity|]. cbn [calls sleeps]. split; lia.
Qed.

(** X8. A function wrapped by [createRetryWrapper] is invoked with the
    arguments of the call, and each call of the wrapper has the whole
    budget: of two calls whose every attempt fails with an error the
    policy retries, each invokes the function [maxAttempts] times and
    throws the error of its own last attempt. *)
Theorem createRetryWrapper_gives_each_call_its_budget :
  forall (Args : Type) (script : Args -> nat -> outcome) (config : Config)
         (args1 args2 : Args) (w : World) (n : nat),
    p_maxAttempts (spread config) = Z.of_nat (S n) ->
    (forall args i, exists e, script args i = Rejected e
                              /\ p_retryCondition (spread config) e = true) ->
    let wrapped := createRetryWrapper (fun args => remote (script args)) config in
    let r1 := wrapped args1 w in
    let r2 := wrapped args2 (snd r1) in
    (exists e, script args1 (calls w + n)%nat = Rejected e /\ fst r1 = Throw (ThrownError e))
    /\ calls (snd r1) = (calls w + S n)%nat
    /\ (exists e, script args2 (calls w + S n + n)%nat = Rejected e
                  /\ fst r2 = Throw (ThrownError e))
    /\ calls (snd r2) = (calls w + 2 * S n)%nat
    /\ length (sleeps (snd r2)) = (length (sleeps w) + 2 * n)%nat.
Proof.
  intros Args script config args1 args2 w n Hmax Hall wrapped r1 r2.
  destruct (Hall args1 (calls w + n)%nat) as (e1 & He1 & _).
  destruct (retryWithBackoff_exhausted (script args1) config w n e1 Hmax
              ltac:(intros; apply Hall) He1) as (w1 & Hr1 & Hc1 & Hs1).
  destruct (Hall args2 (calls w1 + n)%nat) as (e2 & He2 & _).
  destruct (retryWithBackoff_exhausted (script args2) config w1 n e2 Hmax
              ltac:(intros; apply Hall) He2) as (w2 & Hr2 & Hc2 & Hs2).
  assert (E1 : r1 = (Throw (ThrownError e1), w1)) by exact Hr1.
  assert (E2 : r2 = (Throw (ThrownError e2), w2)).
  { subst r2. rewrite E1. exact Hr2. }
  rewrite E1, E2. cbn [fst snd]. rewrite Hc1 in He2.
  split; [eauto|]. split; [lia|]. split; [eauto|]. split; lia.
Qed.

Lemma createRetryWrapper_gives_each_call_its_budget_witness :
  let e503 := mkError "Error" "Service Unavailable" (Some 503) in
  let w := mkWorld 0 (fun n => Z.of_nat n) 0 (fun _ => (1 # 2)%Q) 0 [] in
  let wrapped :=
    createRetryWrapper (fun _ : string => remote (fun _ => Rejected e503))
      RETRY_CONFIGS.STANDARD in
  calls (snd (wrapped "b" (snd (wrapped "a" w)))) = 6%nat.
Proof.
  intros e503 w wrapped.
  refine (proj1 (proj2 (proj2 (proj2
    (createRetryWrapper_gives_each_call_its_budget string (fun _ _ => Rejected e503)
       RETRY_CONFIGS.STANDARD "a" "b" w 2 _ _))))).
  - reflexivity.
  - intros args i. exists e503. split; reflexivity.
Defined.

(** ** More on the circuit breaker *)

Ltac breaker_cases :=
  unfold execute, onSuccess, onFailure, bind, this_, assign, in_world, try_catch, gets,
    modify, ret, throw, await, remote, Date_now, is_state,
    set_state, set_failureCount, set_lastFailureTime, set_successCount;
  cbn.

(** X9. While the breaker is OPEN and the reset timeout has not passed,
    [execute] rejects the call with its own error without invoking the
    operation: apart from the reading of the clock, nothing changes. *)
Theorem execute_fails_fast_while_open :
  forall (operation : Operation) (this : CircuitBreaker) (w : World),
    state this = OPEN ->
    clock w (ticks w) - default 0 (lastFailureTime this) <= resetTimeout this ->
    execute operation (this, w) =
      (Throw (ThrownError breaker_open_error),
       (this, mkWorld (calls w) (clock w) (S (ticks w)) (Math_random w) (draws w)
                (sleeps w))).
Proof.
  intros operation this w Hst Hwait. destruct this as [thr rt mp st fc lft sc].
  cbn in Hst, Hwait. subst st. breaker_cases.
  destruct (Z.gtb_spec (clock w (ticks w) - default 0 lft) rt); [lia|reflexivity].
Qed.

Lemma execute_fails_fast_while_open_witness :
  let this := mkCircuitBreaker 5 60000 10000 OPEN 5 (Some 1000) 0 in
  let w := mkWorld 0 (fun n => 2000 + Z.of_nat n) 0 (fun _ => 0%Q) 0 [] in
  execute (remote (fun _ => Resolved (VNum 1))) (this, w) =
    (Throw (ThrownError breaker_open_error),
     (this, mkWorld 0 (clock w) 1 (Math_random w) 0 [])).
Proof.
  intros this w.
  apply (execute_fails_fast_while_open (remote (fun _ => Resolved (VNum 1))) this w).
  - reflexivity.
  - vm_compute. discriminate.
Defined.

(** A call on a CLOSED breaker reaches the operation. *)
Lemma execute_closed_step script this w :
  state this = CLOSED ->
  let s := snd (execute (remote script) (this, w)) in
  failureThreshold (fst s) = failureThreshold this
  /\ calls (snd s) = S (calls w)
  /\ match script (calls w) with
     | Resolved _ => state (fst s) = CLOSED /\ failureCount (fst s) = 0
     | Rejected _ =>
         failureCount (fst s) = failureCount this + 1
         /\ state (fst s) =
              if failureCount this + 1 >=? failureThreshold this then OPEN else CLOSED
     end.
Proof.
  intros Hst s. subst s. destruct this as [thr rt mp st fc lft sc].
  cbn in Hst. subst st. breaker_cases.
  destruct (script (calls w)); cbn; [auto|].
  destruct (fc + 1 >=? thr); cbn; auto.
Qed.

(** A breaker that is CLOSED opens at the failure that brings the count
    of consecutive failures to the threshold, and not before. *)
Lemma execute_times_failures script :
  forall (n : nat) this w,
    state this = CLOSED ->
    failureCount this = 0 ->
    (forall i, (i < n)%nat -> exists e, script (calls w + i)%nat = Rejected e) ->
    Z.of_nat n <= failureThreshold this ->
    1 <= failureThreshold this ->
    let s := execute_times script n (this, w) in
    failureThreshold (fst s) = failureThreshold this
    /\ failureCount (fst s) = Z.of_nat n
    /\ calls (snd s) = (calls w + n)%nat
    /\ state (fst s) = if Z.of_nat n =? failureThreshold this then OPEN else CLOSED.
Proof.
  induction n as [|n IH]; intros this w Hst Hfc Hrej Hn Hthr s; subst s.
  - cbn [execute_times fst snd]. rewrite Hfc, Hst, Nat.add_0_r.
    destruct (Z.eqb_spec (Z.of_nat 0) (failureThreshold this)); [lia|auto].
  - cbn [execute_times].
    destruct (IH this w Hst Hfc ltac:(intros; apply Hrej; lia) ltac:(lia) Hthr)
      as (Ht & Hc & Hcalls & Hs).
    destruct (Z.eqb_spec (Z.of_nat n) (failureThreshold this)) as [|Hne]; [lia|].
    destruct (execute_times script n (this, w)) as [this1 w1]. cbn [fst snd] in *.
    destruct (execute_closed_step script this1 w1 Hs) as (Ht' & Hcalls' & Hout).
    destruct (Hrej n ltac:(lia)) as [e He]. rewrite Hcalls, He in Hout.
    destruct Hout as [Hfc' Hst'].
    split; [congruence|]. split; [lia|]. split; [lia|].
    rewrite Hst', Hc, Ht.
    destruct (Z.geb_spec (Z.of_nat n + 1) (failureThreshold this));
      destruct (Z.eqb_spec (Z.of_nat (S n)) (failureThreshold this)); auto; lia.
Qed.

(** X10. A new breaker lets failing calls through until [failureThreshold]
    consecutive calls have failed: it is CLOSED after fewer failures and
    OPEN after the failure that reaches the threshold, every one of these
    calls having invoked the operation. *)
Theorem breaker_opens_at_threshold :
  forall (config : BreakerConfig) (script : nat -> outcome) (w : World) (n : nat),
    let this := new_CircuitBreaker config in
    1 <= failureThreshold this ->
    Z.of_nat n <= failureThreshold this ->
    (forall i, (i < n)%nat -> exists e, script (calls w + i)%nat = Rejected e) ->
    let s := execute_times script n (this, w) in
    state (fst s) = (if Z.of_nat n =? failureThreshold this then OPEN else CLOSED)
    /\ failureCount (fst s) = Z.of_nat n
    /\ calls (snd s) = (calls w + n)%nat.
Proof.
  intros config script w n this Hthr Hn Hrej s.
  destruct (execute_times_failures script n this w) as (_ & Hfc & Hc & Hs); auto.
Qed.

Lemma breaker_opens_at_threshold_witness :
  let e503 := mkError "Error" "Service Unavailable" (Some 503) in
  let w := mkWorld 0 (fun n => Z.of_nat n) 0 (fun _ => 0%Q) 0 [] in
  let after := fun n =>
    execute_times (fun _ => Rejected e503) n
      (new_CircuitBreaker (mkBreakerConfig None None None), w) in
  state (fst (after 4%nat)) = CLOSED /\ state (fst (after 5%nat)) = OPEN.
Proof.
  intros e503 w after. split.
  - refine (proj1 (breaker_opens_at_threshold (mkBreakerConfig None None None)
                     (fun _ => Rejected e503) w 4 _ _ _)).
    + vm_compute. discriminate.
    + vm_compute. discriminate.
    + intros i _. exists e503. reflexivity.
  - vm_compute. reflexivity.
Defined.

(** X11. A breaker stays CLOSED, and lets every call through to the
    operation, as long as no [failureThreshold] consecutive calls fail: a
    success resets the count of failures. *)
Theorem breaker_stays_closed_without_consecutive_failures :
  forall (config : BreakerConfig) (script : nat -> outcome) (w : World) (n : nat),
    let this := new_CircuitBreaker config in
    let threshold := Z.to_nat (failureThreshold this) in
    1 <= failureThreshold this ->
    (forall i, (i + threshold <= n)%nat ->
       exists j v, (i <= j < i + threshold)%nat /\ script (calls w + j)%nat = Resolved v) ->
    let s := execute_times script n (this, w) in
    state (fst s) = CLOSED
    /\ failureCount (fst s) < failureThreshold this
    /\ calls (snd s) = (calls w + n)%nat.
Proof.
  intros config script w n this threshold Hthr Hwin s.
  assert (Hinv : failureThreshold (fst s) = failureThreshold this
                 /\ state (fst s) = CLOSED
                 /\ calls (snd s) = (calls w + n)%nat
                 /\ 0 <= failureCount (fst s) <= Z.of_nat n
                 /\ failureCount (fst s) < failureThreshold this
                 /\ forall j, (n - Z.to_nat (failureCount (fst s)) <= j < n)%nat ->
                      exists e, script (calls w + j)%nat = Rejected e).
  { subst s. induction n as [|n IH].
    - cbn. repeat split; try lia; try reflexivity.
      unfold this in Hthr. cbn in Hthr. lia.
    - cbn [execute_times].
      destruct IH as (Ht & Hst & Hc & Hfc & Hlt & Hrun).
      { intros i Hi. apply Hwin. lia. }
      destruct (execute_times script n (this, w)) as [this1 w1]. cbn [fst snd] in *.
      destruct (execute_closed_step script this1 w1 Hst) as (Ht' & Hc' & Hout).
      rewrite Hc in Hout.
      destruct (script (calls w + n)%nat) as [v|e] eqn:Hn.
      + destruct Hout as [Hs' Hf']. rewrite Hf'.
        repeat split; try congruence; try lia.
      + destruct Hout as [Hf' Hs']. rewrite Ht in Hs'.
        destruct (Z.geb_spec (failureCount this1 + 1) (failureThreshold this)) as [Hge|Hlt'].
        * exfalso.
          destruct (Hwin (S n - threshold)%nat ltac:(subst threshold; lia))
            as (j & v & Hj & Hv).
          destruct (Nat.eq_dec j n) as [->|Hjn]; [congruence|].
          destruct (Hrun j ltac:(subst threshold; lia)) as [e' He']. congruence.
        * rewrite Hf'. repeat split; try congruence; try lia.
          intros j Hj.
          destruct (Nat.eq_dec j n) as [->|Hjn]; [eauto|].
          apply Hrun. lia. }
  destruct Hinv as (_ & Hst & Hc & _ & Hlt & _). auto.
Qed.

Lemma breaker_stays_closed_without_consecutive_failures_witness :
  let e503 := mkError "Error" "Service Unavailable" (Some 503) in
  let script := fun i : nat => if (i mod 5 =? 4)%nat then Resolved (VNum 1) else Rejected e503 in
  let w := mkWorld 0 (fun n => Z.of_nat n) 0 (fun _ => 0%Q) 0 [] in
  let s := execute_times script 20 (new_CircuitBreaker (mkBreakerConfig None None None), w) in
  state (fst s) = CLOSED /\ calls (snd s) = 20%nat.
Proof.
  intros e503 script w s.
  destruct (breaker_stays_closed_without_consecutive_failures
              (mkBreakerConfig None None None) script w 20) as (Hst & _ & Hc).
  - vm_compute. discriminate.
  - intros i Hi. change (Z.to_nat _) with 5%nat in *.
    exists (i + (4 - i mod 5))%nat, (VNum 1).
    pose proof (Nat.mod_upper_bound i 5 ltac:(lia)) as Hm.
    split; [lia|]. cbn [calls w Nat.add]. unfold script.
    replace ((i + (4 - i mod 5)) mod 5)%nat with 4%nat; [reflexivity|].
    rewrite (Nat.div_mod_eq i 5) at 1.
    replace (5 * (i / 5) + i mod 5 + (4 - i mod 5))%nat with (4 + (i / 5) * 5)%nat by lia.
    rewrite Nat.Div0.mod_add. reflexivity.
  - split; [exact Hst|exact Hc].
Defined.

(** X12. Recovery: once the reset timeout has passed, the next call is let
    through as a trial (HALF_OPEN), and the third consecutive success
    closes the breaker, whatever [failureThreshold] is; the count of
    failures is back to 0. *)
Theorem breaker_closes_after_three_successes :
  forall (script : nat -> outcome) (this : CircuitBreaker) (w : World) (v1 v2 v3 : value),
    state this = OPEN ->
    clock w (ticks w) - default 0 (lastFailureTime this) > resetTimeout this ->
    script (calls w) = Resolved v1 ->
    script (S (calls w)) = Resolved v2 ->
    script (S (S (calls w))) = Resolved v3 ->
    let r1 := execute (remote script) (this, w) in
    let r2 := execute (remote script) (snd r1) in
    let r3 := execute (remote script) (snd r2) in
    (fst r1 = Normal v1 /\ state (fst (snd r1)) = HALF_OPEN)
    /\ (fst r2 = Normal v2 /\ state (fst (snd r2)) = HALF_OPEN)
    /\ (fst r3 = Normal v3 /\ state (fst (snd r3)) = CLOSED
        /\ failureCount (fst (snd r3)) = 0)
    /\ calls (snd (snd r3)) = S (S (S (calls w))).
Proof.
  intros script this w v1 v2 v3 Hst Hwait H1 H2 H3.
  destruct this as [thr rt mp st fc lft sc]. cbn in Hst, Hwait. subst st.
  breaker_cases.
  destruct (Z.gtb_spec (clock w (ticks w) - default 0 lft) rt); [|lia].
  cbn. rewrite H1. cbn. change (0 + 1 >=? 3) with false. cbn.
  rewrite H2. cbn. change (0 + 1 + 1 >=? 3) with false. cbn.
  rewrite H3. cbn. change (0 + 1 + 1 + 1 >=? 3) with true. cbn. auto 10.
Qed.

Lemma breaker_closes_after_three_successes_witness :
  let this := mkCircuitBreaker 5 60000 10000 OPEN 5 (Some 1000) 0 in
  let w := mkWorld 0 (fun n => 100000 + Z.of_nat n) 0 (fun _ => 0%Q) 0 [] in
  let script := fun _ : nat => Resolved (VNum 1) in
  let r1 := execute (remote script) (this, w) in
  let r2 := execute (remote script) (snd r1) in
  let r3 := execute (remote script) (snd r2) in
  state (fst (snd r2)) = HALF_OPEN /\ state (fst (snd r3)) = CLOSED.
Proof.
  intros this w script r1 r2 r3.
  destruct (breaker_closes_after_three_successes script this w (VNum 1) (VNum 1) (VNum 1))
    as (_ & (_ & H2) & (_ & H3 & _) & _); try reflexivity.
  split; [exact H2|exact H3].
Defined.

(** A call of [execute] keeps the invariant of the breaker, and its
    threshold. *)
Lemma execute_keeps_breaker_invariant script this w :
  1 <= failureThreshold this ->
  breaker_invariant this ->
  let this' := fst (snd (execute (remote script) (this, w))) in
  failureThreshold this' = failureThreshold this /\ breaker_invariant this'.
Proof.
  intros Hthr Hinv this'. subst this'. destruct this as [thr rt mp st fc lft sc].
  unfold breaker_invariant in *. cbn in Hthr, Hinv.
  destruct Hinv as ([Ho1 Ho2] & Hfc & Hsc & Hhalf & Hlft).
  breaker_cases.
  destruct st; cbn;
    repeat match goal with
           | |- context [?a >? ?b] => destruct (Z.gtb_spec a b); cbn
           end;
    destruct (script (calls w)); cbn;
    repeat match goal with
           | |- context [?a >=? ?b] => destruct (Z.geb_spec a b); cbn
           end;
    (split; [reflexivity|]);
    repeat match goal with
           | |- _ /\ _ => split
           | |- _ <-> _ => split
           | |- _ -> _ => intros ?
           end;
    try discriminate; try reflexivity; try lia; eauto;
    try (specialize (Hhalf eq_refl); lia);
    try (specialize (Ho1 eq_refl); lia).
Qed.

(** When calls do not overlap, a breaker built with a threshold of at
    least 1 is, between calls, OPEN exactly when its count of failures has
    reached the threshold. *)
Lemma breaker_invariant_without_overlap :
  forall s : CircuitBreaker * World,
    reachable s ->
    1 <= failureThreshold (fst s) ->
    breaker_invariant (fst s).
Proof.
  intros s Hs.
  induction Hs as [config w Hmono|script this w r this' w' Hs IH Hexec]; intros Hthr.
  - cbn [fst] in *. unfold breaker_invariant, new_CircuitBreaker in *. cbn in *.
    repeat split; try lia; try discriminate.
  - cbn [fst] in *.
    pose proof (execute_keeps_breaker_invariant script this w) as Hstep. cbn zeta in Hstep.
    rewrite Hexec in Hstep. cbn [fst snd] in Hstep.
    assert (Hsame : failureThreshold this' = failureThreshold this).
    { destruct this as [thr rt mp st fc lft sc]. revert Hexec. breaker_cases.
      destruct st; cbn;
        repeat match goal with
               | |- context [?a >? ?b] => destruct (Z.gtb_spec a b); cbn
               end;
        destruct (script (calls w)); cbn;
        repeat match goal with
               | |- context [?a >=? ?b] => destruct (Z.geb_spec a b); cbn
               end;
        intros [= <- <- <-]; reflexivity. }
    apply Hstep; [lia|]. apply IH. lia.
Qed.

(** ** Calls that overlap on a shared breaker *)

Ltac shared_cases :=
  unfold step, execute_gate, execute_resume, execute, onSuccess, onFailure, bind, this_,
    assign, in_world, try_catch, gets, modify, ret, throw, await, remote, Date_now, is_state,
    set_state, set_failureCount, set_lastFailureTime, set_successCount;
  cbn.

(** A call of [execute] that no other call overlaps is the event of the
    call followed by the event of its promise settling. *)
Lemma execute_is_call_then_settle script this w :
  let s := snd (execute (remote script) (this, w)) in
  step (step (mkShared this w []) (Call (script (calls w)))) (Settle 0) =
    mkShared (fst s) (snd s) [].
Proof.
  destruct this as [thr rt mp st fc lft sc]. shared_cases.
  destruct st; cbn;
    repeat match goal with
           | |- context [?a >? ?b] => destruct (Z.gtb_spec a b); cbn
           end;
    destruct (script (calls w)); cbn;
    repeat match goal with
           | |- context [?a >=? ?b] => destruct (Z.geb_spec a b); cbn
           end;
    reflexivity.
Qed.

(** The calls that do not overlap are among the runs of events: a state
    that whole calls of [execute] reach is reached by a run in which each
    call is followed by its promise settling. *)
Lemma reachable_run_events s :
  reachable s ->
  exists config w events,
    run_events events (mkShared (new_CircuitBreaker config) w []) =
      mkShared (fst s) (snd s) [].
Proof.
  induction 1 as [config w Hclock|script this w r this' w' Hreach IH Hexec].
  - exists config, w, []. reflexivity.
  - destruct IH as (config & w0 & events & Hrun). cbn [fst snd] in *.
    exists config, w0, (events ++ [Call (script (calls w)); Settle 0]).
    unfold run_events in *. rewrite foldl_app, Hrun. cbn [foldl].
    pose proof (execute_is_call_then_settle script this w) as Hstep. cbn zeta in Hstep.
    rewrite Hexec in Hstep. exact Hstep.
Qed.

(** An event keeps the invariant of the shared breaker, and its
    threshold. *)
Lemma step_keeps_shared_breaker_invariant s e :
  1 <= failureThreshold (breaker s) ->
  shared_breaker_invariant (breaker s) ->
  failureThreshold (breaker (step s e)) = failureThreshold (breaker s)
  /\ shared_breaker_invariant (breaker (step s e)).
Proof.
  intros Hthr Hinv. destruct s as [[thr rt mp st fc lft sc] w p].
  unfold shared_breaker_invariant in *. cbn in Hthr, Hinv.
  destruct Hinv as (Hclosed & Hfc & Hsc & Hhalf & Hlft).
  destruct e as [settles|i].
  - shared_cases.
    destruct st; cbn;
      repeat match goal with
             | |- context [?a >? ?b] => destruct (Z.gtb_spec a b); cbn
             end;
      (split; [reflexivity|]);
      repeat match goal with
             | |- _ /\ _ => split
             | |- _ -> _ => intros ?
             end;
      try discriminate; try lia; eauto;
      try (apply Hlft; discriminate).
  - unfold step. cbn [pending breaker runtime].
    destruct (p !! i) as [[v|error]|]; [| |cbn; auto 10].
    + shared_cases.
      destruct st; cbn;
        repeat match goal with
               | |- context [?a >=? ?b] => destruct (Z.geb_spec a b); cbn
               end;
        (split; [reflexivity|]);
        repeat match goal with
               | |- _ /\ _ => split
               | |- _ -> _ => intros ?
               end;
        try discriminate; try congruence; try lia; eauto;
        try (apply Hlft; discriminate);
        try (specialize (Hhalf eq_refl); lia).
    + shared_cases.
      destruct st; cbn;
        repeat match goal with
               | |- context [?a >=? ?b] => destruct (Z.geb_spec a b); cbn
               end;
        (split; [reflexivity|]);
        repeat match goal with
               | |- _ /\ _ => split
               | |- _ -> _ => intros ?
               end;
        try discriminate; try congruence; try lia; eauto;
        try (specialize (Hclosed eq_refl); lia);
        try (specialize (Hhalf eq_refl); lia).
Qed.

Lemma run_events_keep_shared_breaker_invariant events :
  forall s,
    1 <= failureThreshold (breaker s) ->
    shared_breaker_invariant (breaker s) ->
    failureThreshold (breaker (run_events events s)) = failureThreshold (breaker s)
    /\ shared_breaker_invariant (breaker (run_events events s)).
Proof.
  induction events as [|e events IH]; intros s Hthr Hinv; [auto|].
  cbn [run_events foldl].
  destruct (step_keeps_shared_breaker_invariant s e Hthr Hinv) as [Hsame Hinv'].
  destruct (IH (step s e) ltac:(lia) Hinv') as [Hsame' Hinv''].
  unfold run_events in *. split; [congruence|exact Hinv''].
Qed.

(** X13. Whatever the order in which calls of [execute] on a shared
    breaker start and settle, overlapping or not, a breaker built with a
    threshold of at least 1 is never CLOSED with [failureThreshold] counted
    failures or more; its counters are never negative, [successCount] never
    exceeds 3, nor 2 while the breaker is HALF_OPEN; and a breaker that is
    OPEN or HALF_OPEN always has a [lastFailureTime]. *)
Theorem breaker_invariant_under_overlapping_calls :
  forall (config : BreakerConfig) (w : World) (events : list event),
    let this := new_CircuitBreaker config in
    1 <= failureThreshold this ->
    let s := run_events events (mkShared this w []) in
    failureThreshold (breaker s) = failureThreshold this
    /\ shared_breaker_invariant (breaker s).
Proof.
  intros config w events this Hthr s.
  apply (run_events_keep_shared_breaker_invariant events (mkShared this w [])); [exact Hthr|].
  unfold shared_breaker_invariant, this, new_CircuitBreaker in *. cbn in *.
  repeat split; try lia; try discriminate. intros H. congruence.
Qed.

(** Five failures open the breaker; after the timeout two calls are let
    through and overlap: the second fails first, then the first
    succeeds. *)
Lemma breaker_invariant_under_overlapping_calls_witness :
  let e503 := mkError "Error" "Service Unavailable" (Some 503) in
  let clk := fun n : nat => if (n <? 5)%nat then Z.of_nat n else 100000 + Z.of_nat n in
  let w := mkWorld 0 clk 0 (fun _ => 0%Q) 0 [] in
  let failure := [Call (Rejected e503); Settle 0] in
  let events := failure ++ failure ++ failure ++ failure ++ failure
                ++ [Call (Resolved (VNum 1)); Call (Rejected e503); Settle 1; Settle 0] in
  let this := new_CircuitBreaker (mkBreakerConfig None None None) in
  let s := run_events events (mkShared this w []) in
  shared_breaker_invariant (breaker s)
  /\ state (breaker s) = OPEN /\ failureCount (breaker s) = 0 /\ pending s = [].
Proof.
  intros e503 clk w failure events this s. split; [|vm_compute; auto].
  refine (proj2 (breaker_invariant_under_overlapping_calls
                   (mkBreakerConfig None None None) w events _)).
  vm_compute. discriminate.
Defined.

(** The invariant of calls that do not overlap does not survive calls
    that do: in the run above the breaker is left OPEN with no failure
    counted. *)
Lemma overlapping_calls_break_breaker_invariant :
  let e503 := mkError "Error" "Service Unavailable" (Some 503) in
  let clk := fun n : nat => if (n <? 5)%nat then Z.of_nat n else 100000 + Z.of_nat n in
  let w := mkWorld 0 clk 0 (fun _ => 0%Q) 0 [] in
  let failure := [Call (Rejected e503); Settle 0] in
  let events := failure ++ failure ++ failure ++ failure ++ failure
                ++ [Call (Resolved (VNum 1)); Call (Rejected e503); Settle 1; Settle 0] in
  let this := new_CircuitBreaker (mkBreakerConfig None None None) in
  let s := run_events events (mkShared this w []) in
  pending s = [] /\ ~ breaker_invariant (breaker s).
Proof.
  intros e503 clk w failure events this s. split; [vm_compute; reflexivity|].
  intros ([Hopen _] & _).
  assert (Hst : state (breaker s) = OPEN) by (vm_compute; reflexivity).
  specialize (Hopen Hst). vm_compute in Hopen. apply Hopen. reflexivity.
Qed.

(** ** The trial call of a breaker that failures have opened *)

(** X14. A trial call that fails puts the breaker back to OPEN and starts the
    reset timeout again, when the count of failures stands at
    [failureThreshold - 1] or more, as it does in a breaker that
    consecutive failures have opened: once the timeout has passed, a call
    is let through; when it fails its error is re-thrown, the breaker is
    OPEN with [lastFailureTime] at the time of this failure, and a call
    made within [resetTimeout] of it is rejected without reaching the
    operation. *)
Theorem failed_trial_call_restarts_the_timeout :
  forall (script : nat -> outcome) (next : Operation) (this : CircuitBreaker) (w : World)
         (error : Error),
    state this = OPEN ->
    failureThreshold this <= failureCount this + 1 ->
    clock w (ticks w) - default 0 (lastFailureTime this) > resetTimeout this ->
    script (calls w) = Rejected error ->
    clock w (S (S (ticks w))) - clock w (S (ticks w)) <= resetTimeout this ->
    let r1 := execute (remote script) (this, w) in
    let r2 := execute next (snd r1) in
    fst r1 = Throw (ThrownError error)
    /\ state (fst (snd r1)) = OPEN
    /\ failureCount (fst (snd r1)) = failureCount this + 1
    /\ lastFailureTime (fst (snd r1)) = Some (clock w (S (ticks w)))
    /\ fst r2 = Throw (ThrownError breaker_open_error)
    /\ state (fst (snd r2)) = OPEN
    /\ calls (snd (snd r2)) = S (calls w).
Proof.
  intros script next this w error Hst Htripped Htimeout Hrej Hsoon.
  destruct this as [thr rt mp st fc lft sc]. cbn in Hst, Htimeout, Htripped, Hsoon.
  subst st. breaker_cases.
  destruct (Z.gtb_spec (clock w (ticks w) - default 0 lft) rt); [|lia].
  cbn. rewrite Hrej. cbn.
  destruct (Z.geb_spec (fc + 1) thr); [|lia].
  cbn.
  destruct (Z.gtb_spec (clock w (S (S (ticks w))) - clock w (S (ticks w))) rt); [lia|].
  cbn. auto 10.
Qed.

Lemma failed_trial_call_restarts_the_timeout_witness :
  let e503 := mkError "Error" "Service Unavailable" (Some 503) in
  let clk := fun n : nat => if (n <? 5)%nat then Z.of_nat n else 100000 + Z.of_nat n in
  let w0 := mkWorld 0 clk 0 (fun _ => 0%Q) 0 [] in
  let s := execute_times (fun _ => Rejected e503) 5
             (new_CircuitBreaker (mkBreakerConfig None None None), w0) in
  let r1 := execute (remote (fun _ => Rejected e503)) s in
  let r2 := execute (remote (fun _ => Resolved (VNum 1))) (snd r1) in
  state (fst s) = OPEN
  /\ fst r1 = Throw (ThrownError e503)
  /\ fst r2 = Throw (ThrownError breaker_open_error)
  /\ calls (snd (snd r2)) = 6%nat.
Proof.
  intros e503 clk w0 s r1 r2. split; [vm_compute; reflexivity|].
  destruct (failed_trial_call_restarts_the_timeout (fun _ => Rejected e503)
              (remote (fun _ => Resolved (VNum 1))) (fst s) (snd s) e503)
    as (H1 & _ & _ & _ & H2 & _).
  - vm_compute. reflexivity.
  - vm_compute. discriminate.
  - vm_compute. reflexivity.
  - reflexivity.
  - vm_compute. discriminate.
  - replace (fst s, snd s) with s in * by (destruct s; reflexivity).
    split; [exact H1|]. split; [exact H2|]. vm_compute. reflexivity.
Defined.

(** * Properties of the tiered cache *)

Import CacheUtils.

(** Projections of updated states. *)
Ltac world_simpl :=
  cbn [fst snd calls clock ticks localStorage quota writes memoryCache storagePrefix stats
       cache maxSize with_calls with_ticks with_localStorage with_writes with_cache
       with_stats default id] in *.

(** ** Insertion-ordered dictionaries *)

Section DictFacts.
Context {A : Type}.
Implicit Types (d : Dict A) (key k : string) (v : A).

Lemma dict_get_None key d : dict_get key d = None <-> key ∉ dict_keys d.
Proof.
  induction d as [|[k v] d IH]; cbn.
  - split; [intros _; apply not_elem_of_nil|reflexivity].
  - destruct (String.eqb_spec key k) as [->|Hne].
    + split; [discriminate|]. intros H. exfalso. apply H. left.
    + rewrite IH. rewrite not_elem_of_cons. tauto.
Qed.

Lemma dict_has_true key d : dict_has key d = true <-> key ∈ dict_keys d.
Proof.
  unfold dict_has. pose proof (dict_get_None key d) as H.
  destruct (dict_get key d).
  - split; [intros _|reflexivity].
    destruct (decide (key ∈ dict_keys d)) as [Hin|Hnin]; [exact Hin|].
    apply H in Hnin. discriminate.
  - split; [discriminate|]. intros Hin. exfalso. apply (proj1 H); [reflexivity|exact Hin].
Qed.

Lemma dict_has_false key d : dict_has key d = false <-> key ∉ dict_keys d.
Proof.
  rewrite <- dict_has_true. destruct (dict_has key d); split; congruence.
Qed.

Lemma dict_delete_absent key d : key ∉ dict_keys d -> dict_delete key d = d.
Proof.
  induction d as [|[k v] d IH]; cbn; [reflexivity|].
  rewrite not_elem_of_cons. intros [Hne Hnin].
  destruct (String.eqb_spec key k); [congruence|]. f_equal. auto.
Qed.

(** Deleting the first key of a dictionary leaves its tail. *)
Lemma dict_delete_first k v d :
  NoDup (dict_keys ((k, v) :: d)) -> dict_delete k ((k, v) :: d) = d.
Proof.
  cbn. rewrite NoDup_cons. intros [Hnin _].
  rewrite String.eqb_refl. apply dict_delete_absent, Hnin.
Qed.

Lemma dict_set_absent key v d : key ∉ dict_keys d -> dict_set key v d = d ++ [(key, v)].
Proof.
  induction d as [|[k v0] d IH]; cbn; [reflexivity|].
  rewrite not_elem_of_cons. intros [Hne Hnin].
  destruct (String.eqb_spec key k); [congruence|]. f_equal. auto.
Qed.

(** For every key but ["__proto__"], an assignment sets the property. *)
Lemma set_property_plain key v d :
  key <> "__proto__" -> set_property key v d = dict_set key v d.
Proof.
  intros Hkey. unfold set_property.
  destruct (String.eqb_spec key "__proto__"); [contradiction|reflexivity].
Qed.

(** An assignment sets the property or, for ["__proto__"], leaves the
    properties of the object as they are. *)
Lemma set_property_cases key v d :
  set_property key v d = dict_set key v d \/ set_property key v d = d.
Proof.
  unfold set_property.
  destruct (String.eqb key "__proto__" && negb (dict_has key d)); auto.
Qed.

Lemma dict_set_keys_present key v d :
  key ∈ dict_keys d -> dict_keys (dict_set key v d) = dict_keys d.
Proof.
  induction d as [|[k v0] d IH]; cbn.
  - intros H. apply elem_of_nil in H. contradiction.
  - destruct (String.eqb_spec key k) as [->|Hne]; [reflexivity|].
    rewrite elem_of_cons. intros [?|Hin]; [congruence|]. cbn. f_equal. auto.
Qed.

Lemma dict_get_set_eq key v d : dict_get key (dict_set key v d) = Some v.
Proof.
  induction d as [|[k v0] d IH]; cbn.
  - rewrite String.eqb_refl. reflexivity.
  - destruct (String.eqb_spec key k) as [->|Hne]; cbn.
    + rewrite String.eqb_refl. reflexivity.
    + destruct (String.eqb_spec key k); [congruence|]. exact IH.
Qed.

Lemma dict_get_set_ne key k v d : key <> k -> dict_get key (dict_set k v d) = dict_get key d.
Proof.
  intros Hne. induction d as [|[k0 v0] d IH]; cbn.
  - destruct (String.eqb_spec key k); [congruence|]. reflexivity.
  - destruct (String.eqb_spec k k0) as [->|Hne0]; cbn.
    + destruct (String.eqb_spec key k0); [congruence|]. reflexivity.
    + destruct (String.eqb_spec key k0); [reflexivity|]. exact IH.
Qed.

Lemma dict_get_delete_eq key d : dict_get key (dict_delete key d) = None.
Proof.
  induction d as [|[k v] d IH]; cbn; [reflexivity|].
  destruct (String.eqb_spec key k) as [->|Hne]; [exact IH|].
  cbn. destruct (String.eqb_spec key k); [congruence|]. exact IH.
Qed.

Lemma dict_get_delete_ne key k d : key <> k -> dict_get key (dict_delete k d) = dict_get key d.
Proof.
  intros Hne. induction d as [|[k0 v] d IH]; cbn; [reflexivity|].
  destruct (String.eqb_spec k k0) as [->|Hne0].
  - destruct (String.eqb_spec key k0); [congruence|]. exact IH.
  - cbn. destruct (String.eqb_spec key k0); [reflexivity|]. exact IH.
Qed.

Lemma dict_keys_delete key d :
  dict_keys (dict_delete key d) = filter (fun k => k <> key) (dict_keys d).
Proof.
  induction d as [|[k v] d IH]; [reflexivity|].
  change (dict_keys ((k, v) :: d)) with (k :: dict_keys d).
  rewrite filter_cons. cbn [dict_delete].
  destruct (String.eqb_spec key k) as [->|Hne].
  - destruct (decide (k <> k)); [congruence|]. exact IH.
  - destruct (decide (k <> key)) as [_|Hn]; [|exfalso; apply Hn; congruence].
    change (dict_keys ((k, v) :: dict_delete key d)) with (k :: dict_keys (dict_delete key d)).
    f_equal. exact IH.
Qed.

Lemma dict_delete_NoDup key d : NoDup (dict_keys d) -> NoDup (dict_keys (dict_delete key d)).
Proof. rewrite dict_keys_delete. apply NoDup_filter. Qed.

Lemma dict_set_NoDup key v d : NoDup (dict_keys d) -> NoDup (dict_keys (dict_set key v d)).
Proof.
  intros Hnd. destruct (decide (key ∈ dict_keys d)) as [Hin|Hnin].
  - rewrite dict_set_keys_present by exact Hin. exact Hnd.
  - rewrite dict_set_absent by exact Hnin. unfold dict_keys. rewrite map_app. cbn.
    apply NoDup_app. split; [exact Hnd|]. split.
    + intros x Hx Hx'. apply list_elem_of_singleton in Hx'. subst x. exact (Hnin Hx).
    + apply NoDup_singleton.
Qed.
End DictFacts.

(** ** The fast tier *)

(** [MemoryCache.set] in one step: two clock readings, the eviction of
    the first key when the map is at capacity, and the write. *)
Lemma MemoryCache_set_eq key v ttl w :
  MemoryCache.set key v ttl w =
    (Normal tt,
     with_cache
       (dict_set key
          (mkItem v (clock w (ticks w) + default (5 * 60 * 1000) ttl) (clock w (S (ticks w))))
          (if Z.of_nat (length (cache (memoryCache w))) >=? maxSize (memoryCache w)
           then match first_key (cache (memoryCache w)) with
                | Some firstKey => dict_delete firstKey (cache (memoryCache w))
                | None => cache (memoryCache w)
                end
           else cache (memoryCache w)))
       (with_ticks (S (S (ticks w))) w)).
Proof.
  unfold MemoryCache.set, bind, gets, modify, ret, Date_now. cbn.
  destruct (Z.of_nat (length (cache (memoryCache w))) >=? maxSize (memoryCache w)).
  - destruct (first_key (cache (memoryCache w))); reflexivity.
  - reflexivity.
Qed.

Lemma MemoryCache_set_maxSize key v ttl w :
  maxSize (memoryCache (snd (MemoryCache.set key v ttl w))) = maxSize (memoryCache w).
Proof. rewrite MemoryCache_set_eq. reflexivity. Qed.

(** The keys after [set] of a key that is not in the map: the new key at
    the most-recently-used end, the first key gone if the map was full. *)
Lemma MemoryCache_set_fresh_keys key v ttl w :
  NoDup (dict_keys (cache (memoryCache w))) ->
  key ∉ dict_keys (cache (memoryCache w)) ->
  dict_keys (cache (memoryCache (snd (MemoryCache.set key v ttl w)))) =
    (if Z.of_nat (length (cache (memoryCache w))) >=? maxSize (memoryCache w)
     then tail (dict_keys (cache (memoryCache w)))
     else dict_keys (cache (memoryCache w))) ++ [key].
Proof.
  intros Hnd Hnin. rewrite MemoryCache_set_eq. cbn [snd with_cache memoryCache cache].
  destruct (Z.of_nat (length (cache (memoryCache w))) >=? maxSize (memoryCache w)).
  - destruct (cache (memoryCache w)) as [|[k0 v0] rest] eqn:Hc.
    + reflexivity.
    + cbn [first_key dict_keys map fst head]. rewrite dict_delete_first by exact Hnd.
      change (dict_keys ((k0, v0) :: rest)) with (k0 :: dict_keys rest) in Hnin.
      apply not_elem_of_cons in Hnin as [_ Hnin].
      rewrite dict_set_absent by exact Hnin.
      unfold dict_keys. rewrite map_app. reflexivity.
  - rewrite dict_set_absent by exact Hnin. unfold dict_keys. rewrite map_app. reflexivity.
Qed.

(** Setting distinct new keys one after the other keeps the last
    [maxSize] keys of the insertion order. *)
Lemma MemoryCache_set_each_keys (value_of : string -> value) ttl :
  forall (keys : list string) (w : World),
    1 <= maxSize (memoryCache w) ->
    Z.of_nat (length (cache (memoryCache w))) <= maxSize (memoryCache w) ->
    NoDup (dict_keys (cache (memoryCache w)) ++ keys) ->
    let w' := snd (for_of keys (fun key => MemoryCache.set key (value_of key) ttl) w) in
    let all := dict_keys (cache (memoryCache w)) ++ keys in
    dict_keys (cache (memoryCache w')) =
      drop (length all - Z.to_nat (maxSize (memoryCache w))) all.
Proof.
  induction keys as [|key keys IH]; intros w Hmax Hlen Hnd.
  - cbn. rewrite app_nil_r.
    assert (Hk : length (dict_keys (cache (memoryCache w))) = length (cache (memoryCache w)))
      by (unfold dict_keys; apply length_map).
    replace (length (dict_keys (cache (memoryCache w))) -
             Z.to_nat (maxSize (memoryCache w)))%nat
      with 0%nat by lia.
    reflexivity.
  - cbn [for_of]. unfold bind at 1.
    pose proof (MemoryCache_set_eq key (value_of key) ttl w) as Heq.
    destruct (MemoryCache.set key (value_of key) ttl w) as [r w1] eqn:Hset.
    injection Heq as -> Hw1.
    assert (Hkeys := MemoryCache_set_fresh_keys key (value_of key) ttl w).
    rewrite Hset in Hkeys. cbn [snd] in Hkeys.
    assert (Hmax1 : maxSize (memoryCache w1) = maxSize (memoryCache w)).
    { rewrite Hw1. reflexivity. }
    apply NoDup_app in Hnd as (Hnd1 & Hdisj & Hnd2).
    apply NoDup_cons in Hnd2 as [Hkey Hnd2].
    specialize (Hkeys Hnd1 ltac:(intros Hin; apply (Hdisj _ Hin); left)).
    assert (Hlenk : length (dict_keys (cache (memoryCache w))) =
                    length (cache (memoryCache w))) by (unfold dict_keys; apply length_map).
    assert (Hlen1 : length (cache (memoryCache w1)) =
                    length (dict_keys (cache (memoryCache w1))))
      by (unfold dict_keys; symmetry; apply length_map).
    specialize (IH w1). cbn zeta in IH |- *. rewrite Hmax1 in IH.
    rewrite IH; clear IH.
    + rewrite Hkeys.
      destruct (Z.geb_spec (Z.of_nat (length (cache (memoryCache w))))
                  (maxSize (memoryCache w))) as [Hfull|Hroom].
      * destruct (dict_keys (cache (memoryCache w))) as [|k0 ks0] eqn:Hk; cbn in Hlenk; [lia|].
        cbn [tail]. rewrite <- app_assoc. cbn [app].
        change ((k0 :: ks0) ++ key :: keys) with (k0 :: (ks0 ++ key :: keys)).
        rewrite !length_app. cbn [length]. rewrite length_app. cbn [length].
        replace (S (length ks0 + S (length keys)) - Z.to_nat (maxSize (memoryCache w)))%nat
          with (S (length ks0 + S (length keys) - Z.to_nat (maxSize (memoryCache w))))%nat
          by lia.
        reflexivity.
      * rewrite <- app_assoc. reflexivity.
    + exact Hmax.
    + rewrite Hlen1, Hkeys. rewrite length_app. cbn [length].
      destruct (Z.geb_spec (Z.of_nat (length (cache (memoryCache w))))
                  (maxSize (memoryCache w))) as [Hfull|Hroom].
      * destruct (dict_keys (cache (memoryCache w))) as [|k0 ks0]; cbn in Hlenk |- *; lia.
      * lia.
    + rewrite Hkeys. rewrite <- app_assoc. cbn [app].
      apply NoDup_app. split; [|split].
      * destruct (Z.of_nat (length (cache (memoryCache w))) >=? maxSize (memoryCache w));
          [|exact Hnd1].
        destruct (dict_keys (cache (memoryCache w))); [constructor|].
        apply NoDup_cons in Hnd1 as [_ ?]. assumption.
      * intros x Hx Hx'.
        assert (Hx0 : x ∈ dict_keys (cache (memoryCache w))).
        { destruct (Z.of_nat (length (cache (memoryCache w))) >=? maxSize (memoryCache w));
            [|exact Hx].
          destruct (dict_keys (cache (memoryCache w))); [exact Hx|]. right. exact Hx. }
        exact (Hdisj _ Hx0 Hx').
      * apply NoDup_cons. split; assumption.
Qed.

(** C2 (as amended).  On a [MemoryCache] that holds exactly
    [maxSize >= 1] entries, [set] evicts the entry at the
    least-recently-used end (the first key of the iteration order) whether
    or not the key is already present, and then writes the entry: a key
    not present goes to the most-recently-used end and the map keeps
    [maxSize] entries; so does the first key itself; a key present further
    on keeps its place with the new entry, and the map is left with
    [maxSize - 1] entries.  Setting [maxSize + 1] distinct keys on an empty
    map leaves exactly [maxSize] entries, all but the first key set. *)
Theorem C2_set_at_capacity_evicts_first_key :
  (forall (w : World) (key : string) (v : value) (ttl : option Z),
     let c := cache (memoryCache w) in
     let item := mkItem v (clock w (ticks w) + default (5 * 60 * 1000) ttl)
                   (clock w (S (ticks w))) in
     let r := MemoryCache.set key v ttl w in
     let c' := cache (memoryCache (snd r)) in
     1 <= maxSize (memoryCache w) ->
     Z.of_nat (length c) = maxSize (memoryCache w) ->
     NoDup (dict_keys c) ->
     fst r = Normal tt
     /\ c' = dict_set key item (tail c)
     /\ (forall firstKey, first_key c = Some firstKey -> firstKey <> key ->
           firstKey ∉ dict_keys c')
     /\ (key ∉ dict_keys c ->
           c' = tail c ++ [(key, item)] /\ length c' = length c)
     /\ (first_key c = Some key ->
           c' = tail c ++ [(key, item)] /\ length c' = length c)
     /\ (key ∈ dict_keys (tail c) ->
           dict_keys c' = tail (dict_keys c)
           /\ dict_get key c' = Some item
           /\ length c' = (length c - 1)%nat))
  /\
  (forall (w : World) (keys : list string) (value_of : string -> value) (ttl : option Z),
     let w' := snd (for_of keys (fun key => MemoryCache.set key (value_of key) ttl) w) in
     cache (memoryCache w) = [] ->
     1 <= maxSize (memoryCache w) ->
     NoDup keys ->
     Z.of_nat (length keys) = maxSize (memoryCache w) + 1 ->
     dict_keys (cache (memoryCache w')) = tail keys
     /\ Z.of_nat (length (cache (memoryCache w'))) = maxSize (memoryCache w)
     /\ forall firstKey, head keys = Some firstKey ->
          firstKey ∉ dict_keys (cache (memoryCache w'))).
Proof.
  split.
  - intros w key v ttl c item r c' Hmax Hlen Hnd.
    assert (Hc' : c' = dict_set key item (tail c)).
    { subst c' r. rewrite MemoryCache_set_eq. cbn [snd with_cache memoryCache cache].
      fold c. destruct (Z.geb_spec (Z.of_nat (length c)) (maxSize (memoryCache w))); [|lia].
      destruct c as [|[k0 v0] rest] eqn:Hc; [cbn in Hlen; lia|].
      cbn [first_key dict_keys map fst head tail].
      rewrite dict_delete_first by exact Hnd. reflexivity. }
    split; [subst r; rewrite MemoryCache_set_eq; reflexivity|].
    split; [exact Hc'|].
    destruct c as [|[k0 v0] rest] eqn:Hc; [cbn in Hlen; lia|].
    cbn [tail] in Hc'.
    change (dict_keys ((k0, v0) :: rest)) with (k0 :: dict_keys rest) in Hnd |- *.
    apply NoDup_cons in Hnd as [Hk0 Hnd].
    assert (Hfresh : key ∉ dict_keys rest ->
                     c' = rest ++ [(key, item)] /\ length c' = length ((k0, v0) :: rest)).
    { intros Hnin. rewrite Hc', dict_set_absent by exact Hnin.
      split; [reflexivity|]. rewrite length_app. cbn. lia. }
    split; [|split; [|split]].
    + intros firstKey [= <-] Hne. rewrite Hc'.
      destruct (decide (key ∈ dict_keys rest)) as [Hin|Hnin].
      * rewrite dict_set_keys_present by exact Hin. exact Hk0.
      * rewrite dict_set_absent by exact Hnin. unfold dict_keys. rewrite map_app.
        intros Hin. apply elem_of_app in Hin as [Hin|Hin]; [exact (Hk0 Hin)|].
        cbn in Hin. apply list_elem_of_singleton in Hin. congruence.
    + intros Hnin. apply not_elem_of_cons in Hnin as [_ Hnin]. cbn [tail]. auto.
    + intros [= <-]. cbn [tail]. auto.
    + cbn [tail]. intros Hin. rewrite Hc'. split; [|split].
      * apply dict_set_keys_present, Hin.
      * apply dict_get_set_eq.
      * assert (H : length (dict_keys (dict_set key item rest)) = length (dict_keys rest))
          by (rewrite dict_set_keys_present by exact Hin; reflexivity).
        unfold dict_keys in H. rewrite !length_map in H. rewrite H. cbn. lia.
  - intros w keys value_of ttl w' Hempty Hmax Hnd Hlen.
    pose proof (MemoryCache_set_each_keys value_of ttl keys w Hmax) as H.
    rewrite Hempty in H. cbn [dict_keys map app length] in H.
    specialize (H ltac:(lia) Hnd). cbn zeta in H. fold w' in H.
    replace (length keys - Z.to_nat (maxSize (memoryCache w)))%nat with 1%nat in H by lia.
    assert (Hk : dict_keys (cache (memoryCache w')) = tail keys).
    { rewrite H. destruct keys; reflexivity. }
    split; [exact Hk|]. split.
    + assert (Hl : length (dict_keys (cache (memoryCache w'))) = length (tail keys))
        by (rewrite Hk; reflexivity).
      unfold dict_keys in Hl. rewrite length_map in Hl. rewrite Hl.
      destruct keys; cbn in Hlen |- *; lia.
    + intros firstKey Hhead. rewrite Hk. destruct keys as [|k0 ks]; [discriminate|].
      injection Hhead as <-. apply NoDup_cons in Hnd as [Hk0 _]. exact Hk0.
Qed.

Lemma C2_witness :
  let full :=
    mkWorld 0 (fun n => Z.of_nat n) 0 ∅ 0 []
      (mkMemoryCache [("a", mkItem (VNum 1) 300000 0); ("b", mkItem (VNum 2) 300001 1)] 2)
      CACHE_CONFIG.STORAGE_PREFIX (mkStats 0 0 0) in
  let empty :=
    mkWorld 0 (fun n => Z.of_nat n) 0 ∅ 0 [] (mkMemoryCache [] 2)
      CACHE_CONFIG.STORAGE_PREFIX (mkStats 0 0 0) in
  let after := fun keys =>
    snd (for_of keys (fun key => MemoryCache.set key (VStr key) None) empty) in
  cache (memoryCache (snd (MemoryCache.set "c" (VNum 3) None full))) =
    [("b", mkItem (VNum 2) 300001 1); ("c", mkItem (VNum 3) 300000 1)]
  /\ dict_keys (cache (memoryCache (snd (MemoryCache.set "b" (VNum 3) None full)))) = ["b"]
  /\ dict_keys (cache (memoryCache (after ["a"; "b"; "c"]))) = ["b"; "c"].
Proof.
  intros full empty after.
  destruct C2_set_at_capacity_evicts_first_key as [Hset Heach].
  assert (Hnd : NoDup (dict_keys (cache (memoryCache full)))) by compute_done.
  split; [|split].
  - destruct (Hset full "c" (VNum 3) None ltac:(vm_compute; discriminate) eq_refl Hnd)
      as (_ & _ & _ & Hfresh & _).
    apply Hfresh. compute_done.
  - destruct (Hset full "b" (VNum 3) None ltac:(vm_compute; discriminate) eq_refl Hnd)
      as (_ & _ & _ & _ & _ & Hpresent).
    apply Hpresent. compute_done.
  - apply (Heach empty ["a"; "b"; "c"] VStr None eq_refl ltac:(vm_compute; discriminate)
             ltac:(compute_done) eq_refl).
Defined.

(** C2 as stated fails: a map of capacity 2 holding [a] and [b]; setting
    [b], which is present, evicts [a]. *)
Lemma C2_counterexample :
  ~ (forall (w : World) (key other : string) (v : value) (ttl : option Z),
       1 <= maxSize (memoryCache w) ->
       Z.of_nat (length (cache (memoryCache w))) = maxSize (memoryCache w) ->
       NoDup (dict_keys (cache (memoryCache w))) ->
       key ∈ dict_keys (cache (memoryCache w)) ->
       other ∈ dict_keys (cache (memoryCache w)) ->
       other <> key ->
       other ∈ dict_keys (cache (memoryCache (snd (MemoryCache.set key v ttl w))))).
Proof.
  intros H.
  specialize (H
    (mkWorld 0 (fun n => Z.of_nat n) 0 ∅ 0 []
       (mkMemoryCache [("a", mkItem (VNum 1) 300000 0); ("b", mkItem (VNum 2) 300001 1)] 2)
       CACHE_CONFIG.STORAGE_PREFIX (mkStats 0 0 0))
    "b" "a" (VNum 3) None).
  assert (Hin : "a" ∈ ["b"]).
  { apply H; try compute_done; try (vm_compute; discriminate); reflexivity. }
  apply list_elem_of_singleton in Hin. discriminate.
Qed.

(** ** The durable tier *)

Lemma string_app_inj (p a b : string) : p +:+ a = p +:+ b -> a = b.
Proof. induction p as [|c p IH]; cbn; [auto|]. intros [= H]. auto. Qed.

Lemma string_length_app (a b : string) :
  String.length (a +:+ b) = (String.length a + String.length b)%nat.
Proof. induction a as [|c a IH]; simpl; [reflexivity|]. f_equal. exact IH. Qed.

Lemma slot_is_not_metadataKey w key :
  key <> CACHE_CONFIG.METADATA_KEY ->
  storagePrefix w +:+ key <> PersistentCache.metadataKey w.
Proof. intros Hne Heq. apply Hne. exact (string_app_inj _ _ _ Heq). Qed.

Lemma durable_step_refl w : durable_step w w.
Proof. repeat split. Qed.

Lemma durable_step_trans w1 w2 w3 :
  durable_step w1 w2 -> durable_step w2 w3 -> durable_step w1 w3.
Proof.
  intros (?&?&?&?&?&?) (?&?&?&?&?&?). repeat split; congruence.
Qed.

Lemma metadataKey_step w w' :
  durable_step w w' -> PersistentCache.metadataKey w' = PersistentCache.metadataKey w.
Proof. intros (_&_&_&_&Hp&_). unfold PersistentCache.metadataKey. rewrite Hp. reflexivity. Qed.

(** *** The primitives *)

Lemma setItem_step k d w : durable_step w (snd (localStorage_setItem k d w)).
Proof.
  unfold localStorage_setItem.
  destruct (storage_bytes (<[k:=d]> (localStorage w)) <=? quota w)%nat; repeat split.
Qed.

Lemma setItem_ticks k d w : ticks (snd (localStorage_setItem k d w)) = ticks w.
Proof.
  unfold localStorage_setItem.
  destruct (storage_bytes (<[k:=d]> (localStorage w)) <=? quota w)%nat; reflexivity.
Qed.

Lemma getMetadata_eq w : PersistentCache._getMetadata w = (Normal (metadata_of w), w).
Proof.
  unfold PersistentCache._getMetadata, metadata_of, try_catch, bind, gets, localStorage_getItem,
    gets, ret, throw.
  destruct (localStorage w !! PersistentCache.metadataKey w) as [[item|m|text]|]; reflexivity.
Qed.

Lemma setMetadata_eq m w :
  PersistentCache._setMetadata m w =
    (Normal tt, snd (localStorage_setItem (PersistentCache.metadataKey w) (DMeta m) w)).
Proof.
  unfold PersistentCache._setMetadata, try_catch, bind, gets, ret, localStorage_setItem.
  destruct (storage_bytes _ <=? quota w)%nat; reflexivity.
Qed.

(** [delete] never fails: it removes the slot of the key and writes the
    index without the key's record. *)
Lemma PersistentCache_delete_eq key w :
  let w1 := with_localStorage (base.delete (storagePrefix w +:+ key) (localStorage w)) w in
  PersistentCache.delete key w =
    (Normal true,
     snd (localStorage_setItem (PersistentCache.metadataKey w)
            (DMeta (dict_delete key (metadata_of w1))) w1)).
Proof.
  intros w1. unfold PersistentCache.delete, try_catch.
  unfold bind at 1. unfold PersistentCache._getStorageKey, gets.
  unfold bind at 1. unfold localStorage_removeItem, modify. fold w1.
  unfold bind at 1. rewrite getMetadata_eq.
  unfold bind at 1. rewrite setMetadata_eq. reflexivity.
Qed.

Lemma PersistentCache_delete_step key w : durable_step w (snd (PersistentCache.delete key w)).
Proof.
  rewrite PersistentCache_delete_eq. cbn [snd].
  eapply durable_step_trans; [|apply setItem_step]. repeat split.
Qed.

Lemma PersistentCache_delete_ticks key w : ticks (snd (PersistentCache.delete key w)) = ticks w.
Proof. rewrite PersistentCache_delete_eq. cbn [snd]. rewrite setItem_ticks. reflexivity. Qed.

(** A loop whose body always completes, and keeps a reflexive and
    transitive relation between the states, does so too. *)
Lemma for_of_normal {A} (R : World -> World -> Prop) (body : A -> M World unit) :
  (forall w, R w w) ->
  (forall a b c, R a b -> R b c -> R a c) ->
  (forall x w, fst (body x w) = Normal tt /\ R w (snd (body x w))) ->
  forall xs w, fst (for_of xs body w) = Normal tt /\ R w (snd (for_of xs body w)).
Proof.
  intros Hrefl Htrans Hbody. induction xs as [|x xs IH]; intros w.
  - cbn. auto.
  - cbn [for_of]. unfold bind. destruct (Hbody x w) as [Hn Hr].
    destruct (body x w) as [r w1]. cbn [fst snd] in Hn, Hr. subst r.
    destruct (IH w1) as [Hn' Hr']. split; [exact Hn'|]. exact (Htrans _ _ _ Hr Hr').
Qed.

Lemma quiet_step_refl w : quiet_step w w.
Proof. split; [apply durable_step_refl|reflexivity]. Qed.

Lemma quiet_step_trans w1 w2 w3 : quiet_step w1 w2 -> quiet_step w2 w3 -> quiet_step w1 w3.
Proof.
  intros [H1 T1] [H2 T2]. split; [exact (durable_step_trans _ _ _ H1 H2)|congruence].
Qed.

Lemma PersistentCache_delete_quiet key w : quiet_step w (snd (PersistentCache.delete key w)).
Proof. split; [apply PersistentCache_delete_step|apply PersistentCache_delete_ticks]. Qed.

(** *** cleanup *)

(** The loop of [cleanup] removes the slot of every record that has
    expired, removes nothing else it does not own, and writes nothing. *)
Lemma cleanup_entries_spec now :
  forall (entries updatedMetadata : Dict Meta) (w : World),
    exists updated w',
      PersistentCache.cleanup_entries now entries updatedMetadata w = (Normal updated, w')
      /\ quiet_step w w'
      /\ writes w' = writes w
      /\ (forall k m, (k, m) ∈ entries -> now > m_expiresAt m -> slot w' k = None)
      /\ (forall sk, localStorage w' !! sk = None \/ localStorage w' !! sk = localStorage w !! sk).
Proof.
  induction entries as [|[key meta] rest IH]; intros updatedMetadata w.
  - exists updatedMetadata, w. cbn. split; [reflexivity|]. split; [apply quiet_step_refl|].
    split; [reflexivity|]. split; [|auto].
    intros k m Hin. apply elem_of_nil in Hin. contradiction.
  - cbn [PersistentCache.cleanup_entries].
    destruct (Z.gtb_spec now (m_expiresAt meta)) as [Hexp|Hlive].
    + unfold bind at 1. unfold PersistentCache._getStorageKey, gets.
      unfold bind at 1. unfold localStorage_removeItem, modify.
      set (w1 := with_localStorage _ w).
      destruct (IH updatedMetadata w1) as (updated & w' & Heq & Hq & Hw & Hgone & Hmono).
      exists updated, w'. split; [exact Heq|].
      assert (Hq1 : quiet_step w w1) by (repeat split).
      split; [exact (quiet_step_trans _ _ _ Hq1 Hq)|]. split; [rewrite Hw; reflexivity|].
      assert (Hp : storagePrefix w' = storagePrefix w)
        by (apply (quiet_step_trans _ _ _ Hq1 Hq)).
      split.
      * intros k m Hin Hk. apply elem_of_cons in Hin as [[= -> ->]|Hin].
        -- unfold slot. rewrite Hp. destruct (Hmono (storagePrefix w +:+ key)) as [H|H];
             [exact H|]. rewrite H. subst w1. cbn. apply lookup_delete_eq.
        -- apply (Hgone k m Hin Hk).
      * intros sk. destruct (Hmono sk) as [H|H]; [left; exact H|].
        rewrite H. subst w1. cbn.
        destruct (decide (storagePrefix w +:+ key = sk)) as [<-|Hne].
        -- left. apply lookup_delete_eq.
        -- right. apply lookup_delete_ne, Hne.
    + destruct (IH (dict_set key meta updatedMetadata) w)
        as (updated & w' & Heq & Hq & Hw & Hgone & Hmono).
      exists updated, w'. split; [exact Heq|]. split; [exact Hq|]. split; [exact Hw|].
      split; [|exact Hmono].
      intros k m Hin Hk. apply elem_of_cons in Hin as [[= -> ->]|Hin]; [lia|].
      apply (Hgone k m Hin Hk).
Qed.

(** [cleanup] never fails.  It reads the clock once, removes the slot of
    every record that has expired, and then attempts one write, of the
    index. *)
Lemma PersistentCache_cleanup_spec w :
  let now := clock w (ticks w) in
  let w' := snd (PersistentCache.cleanup w) in
  fst (PersistentCache.cleanup w) = Normal tt
  /\ durable_step w w'
  /\ ticks w' = S (ticks w)
  /\ (exists ok, writes w' = (PersistentCache.metadataKey w, ok) :: writes w)
  /\ (forall k m, (k, m) ∈ metadata_of w -> now > m_expiresAt m ->
        k <> CACHE_CONFIG.METADATA_KEY -> slot w' k = None)
  /\ (forall k, k <> CACHE_CONFIG.METADATA_KEY -> slot w' k = None \/ slot w' k = slot w k).
Proof.
  intros now w'. subst w'.
  set (w0 := with_ticks (S (ticks w)) w).
  destruct (cleanup_entries_spec now (metadata_of w) [] w0)
    as (updated & w1 & Heq & [Hstep Hticks] & Hw & Hgone & Hmono).
  assert (Hmk : PersistentCache.metadataKey w1 = PersistentCache.metadataKey w).
  { rewrite (metadataKey_step _ _ Hstep). reflexivity. }
  assert (Hp : storagePrefix w1 = storagePrefix w) by (apply Hstep).
  assert (Hrun : PersistentCache.cleanup w =
                 (Normal tt,
                  snd (localStorage_setItem (PersistentCache.metadataKey w) (DMeta updated) w1))).
  { unfold PersistentCache.cleanup, bind, Date_now. fold now w0.
    rewrite getMetadata_eq. change (metadata_of w0) with (metadata_of w).
    rewrite Heq, setMetadata_eq, Hmk. reflexivity. }
  rewrite Hrun. cbn [fst snd].
  set (w2 := snd (localStorage_setItem (PersistentCache.metadataKey w) (DMeta updated) w1)).
  assert (Hstep2 : durable_step w1 w2) by apply setItem_step.
  assert (Hslots : forall k, k <> CACHE_CONFIG.METADATA_KEY -> slot w2 k = slot w1 k).
  { intros k Hk. unfold slot. subst w2. unfold localStorage_setItem.
    destruct (storage_bytes _ <=? quota w1)%nat; cbn; [|reflexivity].
    rewrite Hp. apply lookup_insert_ne. apply not_eq_sym, slot_is_not_metadataKey, Hk. }
  split; [reflexivity|]. split.
  { eapply durable_step_trans; [|exact Hstep2].
    eapply durable_step_trans; [|exact Hstep]. repeat split. }
  split.
  { subst w2. rewrite setItem_ticks, Hticks. reflexivity. }
  split.
  { subst w2. unfold localStorage_setItem.
    destruct (storage_bytes _ <=? quota w1)%nat; cbn; rewrite Hw; eauto. }
  split.
  - intros k m Hin Hexp Hk. rewrite (Hslots k Hk). exact (Hgone k m Hin Hexp).
  - intros k Hk. rewrite (Hslots k Hk). unfold slot. rewrite Hp.
    destruct (Hmono (storagePrefix w +:+ k)) as [H|H]; [left; exact H|right; exact H].
Qed.

(** *** _cleanupIfNeeded and set *)

Lemma cleanupIfNeeded_quiet w :
  fst (PersistentCache._cleanupIfNeeded w) = Normal tt
  /\ quiet_step w (snd (PersistentCache._cleanupIfNeeded w)).
Proof.
  unfold PersistentCache._cleanupIfNeeded, bind. rewrite getMetadata_eq.
  destruct (Z.of_nat (length (metadata_of w)) >? CACHE_CONFIG.MAX_ENTRIES).
  - apply (for_of_normal quiet_step); [apply quiet_step_refl|apply quiet_step_trans|].
    intros entry w0. unfold bind.
    pose proof (PersistentCache_delete_eq (fst entry) w0) as Heq. cbn zeta in Heq.
    pose proof (PersistentCache_delete_quiet (fst entry) w0) as Hq.
    rewrite Heq in Hq |- *. cbn [fst snd] in Hq |- *. split; [reflexivity|exact Hq].
  - cbn. split; [reflexivity|apply quiet_step_refl].
Qed.

(** The three ways through [PersistentCache.set]. *)
Section PersistentCacheSet.
Variables (w : World) (key : string) (v : value) (ttl : option Z).

Let item : Item :=
  mkItem v (clock w (ticks w) + default (5 * 60 * 1000) ttl) (clock w (S (ticks w))).
Let storageKey : string := storagePrefix w +:+ key.
Let w0 : World := with_ticks (S (S (ticks w))) w.

(** The value does not serialize: nothing is written. *)
Lemma PersistentCache_set_unserializable :
  serializable v = false ->
  PersistentCache.set key v ttl w = (Normal tt, w0).
Proof.
  intros Hser. unfold PersistentCache.set, bind, PersistentCache._getStorageKey, gets,
    Date_now, try_catch, JSON_stringify. cbn. rewrite Hser. reflexivity.
Qed.

(** The first write fits: the index is updated and [_cleanupIfNeeded]
    runs. *)
Lemma PersistentCache_set_fits :
  serializable v = true ->
  (storage_bytes (<[storageKey := DItem item]> (localStorage w)) <= quota w)%nat ->
  let w1 := with_writes ((storageKey, true) :: writes w)
              (with_localStorage (<[storageKey := DItem item]> (localStorage w)) w0) in
  let meta := mkMeta (expiresAt item) (Z.of_nat (String.length (text_of (DItem item)))) in
  let w2 := snd (localStorage_setItem (PersistentCache.metadataKey w)
                   (DMeta (set_property key meta (metadata_of w1))) w1) in
  PersistentCache.set key v ttl w = (Normal tt, snd (PersistentCache._cleanupIfNeeded w2)).
Proof.
  intros Hser Hfit w1 meta w2.
  unfold PersistentCache.set, bind, PersistentCache._getStorageKey, gets,
    Date_now, try_catch, JSON_stringify. cbn [data]. rewrite Hser.
  unfold ret at 1. unfold localStorage_setItem at 1.
  apply Nat.leb_le in Hfit.
  match goal with
  | |- context [(storage_bytes ?s <=? ?q)%nat] =>
      change (storage_bytes s <=? q)%nat
        with (storage_bytes (<[storageKey := DItem item]> (localStorage w)) <=? quota w)%nat
  end.
  rewrite Hfit.
  rewrite getMetadata_eq. unfold ret at 1. rewrite setMetadata_eq.
  match goal with
  | |- context [PersistentCache._cleanupIfNeeded ?W] => change W with w2
  end.
  destruct (cleanupIfNeeded_quiet w2) as [Hn _].
  destruct (PersistentCache._cleanupIfNeeded w2) as [r w3]. cbn [fst snd] in Hn |- *.
  subst r. reflexivity.
Qed.

(** The first write exceeds the quota: [cleanup] runs, the write is
    attempted once more, and a second failure is dropped. *)
Lemma PersistentCache_set_over_quota :
  serializable v = true ->
  (quota w < storage_bytes (<[storageKey := DItem item]> (localStorage w)))%nat ->
  let w1 := with_writes ((storageKey, false) :: writes w) w0 in
  let w2 := snd (PersistentCache.cleanup w1) in
  PersistentCache.set key v ttl w =
    (Normal tt, snd (localStorage_setItem storageKey (DItem item) w2)).
Proof.
  intros Hser Hover w1 w2.
  unfold PersistentCache.set, bind, PersistentCache._getStorageKey, gets,
    Date_now, try_catch, JSON_stringify. cbn [data]. rewrite Hser.
  unfold ret at 1. unfold localStorage_setItem at 1.
  apply Nat.leb_gt in Hover.
  match goal with
  | |- context [(storage_bytes ?s <=? ?q)%nat] =>
      change (storage_bytes s <=? q)%nat
        with (storage_bytes (<[storageKey := DItem item]> (localStorage w)) <=? quota w)%nat
  end.
  rewrite Hover.
  cbn [name QuotaExceededError String.eqb Ascii.eqb Bool.eqb]. cbn match.
  match goal with
  | |- context [PersistentCache.cleanup ?W] => change W with w1
  end.
  destruct (PersistentCache_cleanup_spec w1) as (Hn & _).
  fold w2. destruct (PersistentCache.cleanup w1) as [r w2'] eqn:Hc.
  cbn [fst snd] in Hn. subst r. subst w2. cbn [snd].
  unfold ret at 1.
  match goal with
  | |- context [localStorage_setItem ?k ?d w2'] =>
      change (localStorage_setItem k d w2')
        with (localStorage_setItem storageKey (DItem item) w2')
  end.
  destruct (localStorage_setItem storageKey (DItem item) w2') as [[[]|t] w3]; reflexivity.
Qed.

Lemma PersistentCache_set_normal : fst (PersistentCache.set key v ttl w) = Normal tt.
Proof.
  destruct (serializable v) eqn:Hser.
  - destruct (le_lt_dec (storage_bytes (<[storageKey := DItem item]> (localStorage w)))
                (quota w)) as [Hfit|Hover].
    + rewrite (PersistentCache_set_fits Hser Hfit). reflexivity.
    + rewrite (PersistentCache_set_over_quota Hser Hover). reflexivity.
  - rewrite (PersistentCache_set_unserializable Hser). reflexivity.
Qed.
End PersistentCacheSet.




(** *** The size of the durable medium *)

Lemma storage_bytes_delete (s : gmap string doc) k d :
  s !! k = Some d ->
  storage_bytes s =
    (String.length k + String.length (text_of d) + storage_bytes (base.delete k s))%nat.
Proof.
  intros Hk. unfold storage_bytes.
  apply (map_fold_delete_L (fun k d acc =>
    (String.length k + String.length (text_of d) + acc)%nat)); [|exact Hk].
  intros. lia.
Qed.

Lemma storage_bytes_insert (s : gmap string doc) k d :
  storage_bytes (<[k := d]> s) =
    (String.length k + String.length (text_of d) + storage_bytes (base.delete k s))%nat.
Proof.
  rewrite (storage_bytes_delete (<[k := d]> s) k d) by apply lookup_insert_eq.
  rewrite delete_insert_eq. reflexivity.
Qed.

Lemma storage_bytes_delete_le (s : gmap string doc) k :
  (storage_bytes (base.delete k s) <= storage_bytes s)%nat.
Proof.
  destruct (s !! k) as [d|] eqn:Hk.
  - rewrite (storage_bytes_delete s k d Hk). lia.
  - rewrite delete_id by exact Hk. lia.
Qed.

(** Writing a text no longer than the one it replaces does not grow the
    medium. *)
Lemma storage_bytes_replace_le (s : gmap string doc) k d d' :
  s !! k = Some d ->
  (String.length (text_of d') <= String.length (text_of d))%nat ->
  (storage_bytes (<[k := d']> s) <= storage_bytes s)%nat.
Proof.
  intros Hk Hle. rewrite storage_bytes_insert, (storage_bytes_delete s k d Hk). lia.
Qed.

Lemma comma_separated_cons t (rest : list string) :
  String.length (comma_separated (t :: rest)) =
    (String.length t + match rest with
                       | [] => 0
                       | _ => 1 + String.length (comma_separated rest)
                       end)%nat.
Proof.
  destruct rest as [|t' rest]; cbn [comma_separated]; [lia|].
  rewrite !string_length_app. reflexivity.
Qed.

(** The text of the index without a key is no longer than the text of
    the index. *)
Lemma text_of_meta_delete_le key (m : Dict Meta) :
  (String.length (text_of (DMeta (dict_delete key m))) <=
   String.length (text_of (DMeta m)))%nat.
Proof.
  cbn [text_of]. rewrite !string_length_app. cbn [String.length].
  enough (String.length (comma_separated (map text_of_meta (dict_delete key m))) <=
          String.length (comma_separated (map text_of_meta m)))%nat by lia.
  induction m as [|[k v] m IH]; [reflexivity|].
  assert (Htail : (String.length (comma_separated (map text_of_meta m)) <=
                   String.length (comma_separated (map text_of_meta ((k, v) :: m))))%nat).
  { cbn [map]. rewrite comma_separated_cons. destruct (map text_of_meta m); cbn; lia. }
  cbn [dict_delete]. destruct (String.eqb key k); [lia|].
  cbn [map] in *. rewrite !comma_separated_cons in *.
  destruct (dict_delete key m) as [|e rest] eqn:Hd.
  - cbn [map]. destruct (map text_of_meta m); lia.
  - destruct m as [|e0 m0]; [cbn in Hd; discriminate|].
    remember (map text_of_meta (e :: rest)) as l1 eqn:Hl1.
    remember (map text_of_meta (e0 :: m0)) as l2 eqn:Hl2.
    destruct l1 as [|t1 l1]; [cbn in Hl1; discriminate|].
    destruct l2 as [|t2 l2]; [cbn in Hl2; discriminate|]. lia.
Qed.

(** *** delete *)

(** Within the quota [delete] does what it is written to do: the slot of
    the key is removed and the index loses the key's record. *)
Lemma PersistentCache_delete_spec key w :
  let w' := snd (PersistentCache.delete key w) in
  within_quota w ->
  key <> CACHE_CONFIG.METADATA_KEY ->
  within_quota w'
  /\ metadata_of w' = dict_delete key (metadata_of w)
  /\ slot w' key = None
  /\ (forall k, k <> key -> k <> CACHE_CONFIG.METADATA_KEY -> slot w' k = slot w k).
Proof.
  intros w' Hq Hkey. subst w'. rewrite PersistentCache_delete_eq. cbn [snd].
  set (sk := storagePrefix w +:+ key).
  set (mk := PersistentCache.metadataKey w).
  set (w1 := with_localStorage (base.delete sk (localStorage w)) w).
  assert (Hne : sk <> mk) by (apply slot_is_not_metadataKey, Hkey).
  assert (Hm1 : metadata_of w1 = metadata_of w).
  { unfold metadata_of. cbn. fold mk sk. rewrite lookup_delete_ne by exact Hne. reflexivity. }
  assert (Hq1 : within_quota w1).
  { unfold within_quota in *. cbn. etransitivity; [apply storage_bytes_delete_le|exact Hq]. }
  rewrite Hm1. unfold localStorage_setItem.
  assert (Hslots : forall (s : gmap string doc) k,
             k <> CACHE_CONFIG.METADATA_KEY ->
             <[mk := DMeta (dict_delete key (metadata_of w))]> s !! (storagePrefix w +:+ k) =
             s !! (storagePrefix w +:+ k)).
  { intros s k Hk. apply lookup_insert_ne. apply not_eq_sym, slot_is_not_metadataKey, Hk. }
  destruct (Nat.leb_spec (storage_bytes
              (<[mk := DMeta (dict_delete key (metadata_of w))]> (localStorage w1)))
              (quota w1)) as [Hfit|Hover]; cbn [snd].
  - split; [exact Hfit|]. split.
    { unfold metadata_of. cbn. fold mk. rewrite lookup_insert_eq. reflexivity. }
    split.
    { unfold slot. cbn. rewrite Hslots by exact Hkey. fold sk. apply lookup_delete_eq. }
    intros k Hk Hkm. unfold slot. cbn. rewrite Hslots by exact Hkm. fold sk.
    apply lookup_delete_ne. unfold sk. intros Heq. apply Hk. symmetry.
    exact (string_app_inj _ _ _ Heq).
  - (* the write of the index can only fail when there was no index *)
    assert (Hnone : metadata_of w = []).
    { unfold metadata_of. fold mk.
      destruct (localStorage w !! mk) as [[item|m|text]|] eqn:Hmk; try reflexivity.
      exfalso.
      assert (Hmk1 : localStorage w1 !! mk = Some (DMeta m)).
      { cbn. rewrite lookup_delete_ne by exact Hne. exact Hmk. }
      pose proof (storage_bytes_replace_le (localStorage w1) mk (DMeta m)
                    (DMeta (dict_delete key (metadata_of w))) Hmk1) as Hle.
      unfold metadata_of in Hle. fold mk in Hle. rewrite Hmk in Hle.
      specialize (Hle (text_of_meta_delete_le key m)).
      unfold metadata_of in Hover. fold mk in Hover. rewrite Hmk in Hover.
      unfold within_quota in Hq1. lia. }
    split; [exact Hq1|]. split.
    { rewrite Hnone. cbn. rewrite <- Hnone. exact Hm1. }
    split.
    { unfold slot. cbn. fold sk. apply lookup_delete_eq. }
    intros k Hk Hkm. unfold slot. cbn. fold sk.
    apply lookup_delete_ne. unfold sk. intros Heq. apply Hk. symmetry.
    exact (string_app_inj _ _ _ Heq).
Qed.

Lemma dict_delete_filter {A} key (d : list (string * A)) :
  dict_delete key d = filter (fun entry => fst entry <> key) d.
Proof.
  induction d as [|[k v] d IH]; [reflexivity|].
  rewrite filter_cons. cbn [dict_delete fst].
  destruct (String.eqb_spec key k) as [->|Hne].
  - destruct (decide (k <> k)); [congruence|]. exact IH.
  - destruct (decide (k <> key)) as [_|Hn]; [|exfalso; apply Hn; congruence].
    f_equal. exact IH.
Qed.

Lemma filter_all {A} (P : A -> Prop) `{forall x, Decision (P x)} (l : list A) :
  (forall x, x ∈ l -> P x) -> filter P l = l.
Proof.
  induction l as [|x l IH]; intros Hall; [reflexivity|].
  rewrite filter_cons_True by (apply Hall; left).
  f_equal. apply IH. intros y Hy. apply Hall. right. exact Hy.
Qed.

Lemma filter_none {A} (P : A -> Prop) `{forall x, Decision (P x)} (l : list A) :
  (forall x, x ∈ l -> ~ P x) -> filter P l = [].
Proof.
  induction l as [|x l IH]; intros Hall; [reflexivity|].
  rewrite filter_cons_False by (apply Hall; left).
  apply IH. intros y Hy. apply Hall. right. exact Hy.
Qed.

(** The loop of [_cleanupIfNeeded]: within the quota, the records of the
    entries it is given leave the index, and their slots the medium. *)
Lemma evict_entries_spec :
  forall (entries : Dict Meta) (w : World),
    let w' := snd (for_of entries (fun entry => PersistentCache.delete (fst entry) ;;; ret tt) w) in
    within_quota w ->
    CACHE_CONFIG.METADATA_KEY ∉ dict_keys entries ->
    within_quota w'
    /\ metadata_of w' = filter (fun entry => fst entry ∉ dict_keys entries) (metadata_of w)
    /\ (forall k, k ∈ dict_keys entries -> slot w' k = None)
    /\ (forall k, k ∉ dict_keys entries -> k <> CACHE_CONFIG.METADATA_KEY ->
          slot w' k = slot w k).
Proof.
  induction entries as [|[key meta] rest IH]; intros w w' Hq Hkeys; subst w'.
  - cbn [for_of ret snd]. split; [exact Hq|]. split.
    { symmetry. apply filter_all. intros entry _. apply not_elem_of_nil. }
    split; [|reflexivity].
    intros k Hk. apply elem_of_nil in Hk. contradiction.
  - change (dict_keys ((key, meta) :: rest)) with (key :: dict_keys rest) in *.
    apply not_elem_of_cons in Hkeys as [Hkey Hrest].
    pose proof (PersistentCache_delete_eq key w) as Heq. cbn zeta in Heq.
    destruct (PersistentCache_delete_spec key w Hq (not_eq_sym Hkey))
      as (Hq1 & Hm1 & Hs1 & Ho1).
    rewrite Heq in Hq1, Hm1, Hs1, Ho1. cbn [snd] in Hq1, Hm1, Hs1, Ho1.
    set (w1 := snd (localStorage_setItem _ _ _)) in *.
    assert (Hrun : for_of ((key, meta) :: rest)
                     (fun entry => PersistentCache.delete (fst entry) ;;; ret tt) w =
                   for_of rest
                     (fun entry => PersistentCache.delete (fst entry) ;;; ret tt) w1).
    { cbn [for_of fst]. unfold bind at 1. unfold bind at 1. rewrite Heq. reflexivity. }
    rewrite Hrun.
    destruct (IH w1 Hq1 Hrest) as (Hq2 & Hm2 & Hs2 & Ho2).
    split; [exact Hq2|]. split; [|split].
    + rewrite Hm2, Hm1, dict_delete_filter, list_filter_filter.
      apply list_filter_iff. intros [k m]. cbn [fst]. rewrite not_elem_of_cons. tauto.
    + intros k Hk. destruct (decide (k ∈ dict_keys rest)) as [Hin|Hnin]; [exact (Hs2 k Hin)|].
      apply elem_of_cons in Hk as [->|Hk]; [|contradiction].
      rewrite (Ho2 key Hnin (not_eq_sym Hkey)). exact Hs1.
    + intros k Hk Hkm. apply not_elem_of_cons in Hk as [Hne Hnin].
      rewrite (Ho2 k Hnin Hkm). exact (Ho1 k Hne Hkm).
Qed.

(** *** The stable sort by [expiresAt] *)

Lemma sort_insert_Permutation x sorted :
  PersistentCache.sort_insert x sorted ≡ₚ x :: sorted.
Proof.
  induction sorted as [|y rest IH]; cbn; [reflexivity|].
  destruct (m_expiresAt (snd x) - m_expiresAt (snd y) <=? 0); [reflexivity|].
  rewrite IH. apply Permutation_swap.
Qed.

Lemma sort_by_expiresAt_Permutation entries :
  PersistentCache.sort_by_expiresAt entries ≡ₚ entries.
Proof.
  induction entries as [|x rest IH]; cbn; [reflexivity|].
  rewrite sort_insert_Permutation. rewrite IH. reflexivity.
Qed.

Lemma sort_insert_sorted x sorted :
  StronglySorted expires_le sorted ->
  StronglySorted expires_le (PersistentCache.sort_insert x sorted).
Proof.
  induction 1 as [|y rest Hs IH Hall]; cbn.
  - constructor; constructor.
  - destruct (Z.leb_spec (m_expiresAt (snd x) - m_expiresAt (snd y)) 0) as [Hle|Hgt].
    + constructor; [constructor; assumption|].
      constructor; [unfold expires_le; lia|].
      eapply Forall_impl; [exact Hall|]. intros z Hz. unfold expires_le in *. lia.
    + constructor; [exact IH|].
      rewrite sort_insert_Permutation. constructor; [unfold expires_le; lia|exact Hall].
Qed.

Lemma sort_by_expiresAt_sorted entries :
  StronglySorted expires_le (PersistentCache.sort_by_expiresAt entries).
Proof.
  induction entries as [|x rest IH]; cbn; [constructor|].
  apply sort_insert_sorted, IH.
Qed.

(** In a sorted list whatever comes first expires no later than what
    comes after. *)
Lemma sorted_take_drop n (sorted : Dict Meta) a b :
  StronglySorted expires_le sorted ->
  a ∈ take n sorted -> b ∈ drop n sorted -> expires_le a b.
Proof.
  intros Hs. revert n. induction Hs as [|y rest Hs IH Hall]; intros n Ha Hb.
  - rewrite take_nil in Ha. apply elem_of_nil in Ha. contradiction.
  - destruct n as [|n]; [cbn in Ha; apply elem_of_nil in Ha; contradiction|].
    cbn in Ha, Hb. apply elem_of_cons in Ha as [->|Ha].
    + rewrite Forall_forall in Hall. apply Hall.
      rewrite <- (take_drop n rest). apply elem_of_app. right. exact Hb.
    + exact (IH n Ha Hb).
Qed.

(** *** The invariant of the index

    On the paths where no write fails the index follows the medium:
    [delete], the eviction loop and [set] keep [index_consistent]. *)

Lemma index_consistent_evict (entries : list (string * Meta)) w :
  within_quota w ->
  CACHE_CONFIG.METADATA_KEY ∉ dict_keys entries ->
  index_consistent w ->
  index_consistent
    (snd (for_of entries (fun entry => PersistentCache.delete (fst entry) ;;; ret tt) w)).
Proof.
  intros Hq Hk [Hnd Hiff].
  destruct (evict_entries_spec entries w Hq Hk) as (_ & Hm & Hgone & Hkept).
  split.
  - rewrite Hm. eapply sublist_NoDup; [exact Hnd|].
    apply (fmap_sublist (@fst string Meta)), sublist_filter.
  - intros key Hkey. rewrite Hm.
    destruct (decide (key ∈ dict_keys entries)) as [Hin|Hnin].
    + rewrite (Hgone key Hin). split; [intros [d Hd]; discriminate|].
      intros Hin'. apply list_elem_of_fmap in Hin' as ([k m] & -> & Hf).
      apply list_elem_of_filter in Hf as [Hnot _]. contradiction.
    + rewrite (Hkept key Hnin Hkey), (Hiff key Hkey). split.
      * intros Hin. apply list_elem_of_fmap in Hin as ([k m] & -> & Hm0).
        apply list_elem_of_fmap. exists (k, m). split; [reflexivity|].
        apply list_elem_of_filter. auto.
      * intros Hin. apply list_elem_of_fmap in Hin as ([k m] & -> & Hf).
        apply list_elem_of_filter in Hf as [_ Hm0].
        apply list_elem_of_fmap. exists (k, m). auto.
Qed.

Lemma index_consistent_delete key w :
  within_quota w ->
  key <> CACHE_CONFIG.METADATA_KEY ->
  index_consistent w ->
  index_consistent (snd (PersistentCache.delete key w)).
Proof.
  intros Hq Hkey [Hnd Hiff].
  destruct (PersistentCache_delete_spec key w Hq Hkey) as (_ & Hm & Hgone & Hkept).
  split.
  - rewrite Hm. apply dict_delete_NoDup, Hnd.
  - intros k Hk. rewrite Hm, dict_keys_delete.
    destruct (decide (k = key)) as [->|Hne].
    + rewrite Hgone. split; [intros [d Hd]; discriminate|].
      intros Hin. apply list_elem_of_filter in Hin as [Hnot _]. congruence.
    + rewrite (Hkept k Hne Hk), (Hiff k Hk). rewrite list_elem_of_filter. tauto.
Qed.

(** [set] on the path where the write of the entry and the write of the
    index both fit. *)
Lemma index_consistent_set key v ttl w :
  let item := mkItem v (clock w (ticks w) + default (5 * 60 * 1000) ttl)
                (clock w (S (ticks w))) in
  let meta := mkMeta (expiresAt item) (Z.of_nat (String.length (text_of (DItem item)))) in
  let storage1 := <[storagePrefix w +:+ key := DItem item]> (localStorage w) in
  let storage2 :=
    <[PersistentCache.metadataKey w := DMeta (dict_set key meta (metadata_of w))]> storage1 in
  key <> CACHE_CONFIG.METADATA_KEY ->
  key <> "__proto__" ->
  CACHE_CONFIG.METADATA_KEY ∉ dict_keys (metadata_of w) ->
  serializable v = true ->
  (storage_bytes storage1 <= quota w)%nat ->
  (storage_bytes storage2 <= quota w)%nat ->
  index_consistent w ->
  index_consistent (snd (PersistentCache.set key v ttl w)).
Proof.
  intros item meta storage1 storage2 Hkey Hproto Hreserved Hser Hfit1 Hfit2 [Hnd Hiff].
  rewrite (PersistentCache_set_fits w key v ttl Hser Hfit1). cbn [snd].
  rewrite set_property_plain by exact Hproto.
  fold item meta storage1.
  set (w1 := with_writes _ (with_localStorage storage1 _)).
  assert (Hne : storagePrefix w +:+ key <> PersistentCache.metadataKey w)
    by (apply slot_is_not_metadataKey, Hkey).
  assert (Hm1 : metadata_of w1 = metadata_of w).
  { unfold metadata_of. subst w1 storage1. world_simpl.
    change (PersistentCache.metadataKey _) with (PersistentCache.metadataKey w).
    rewrite lookup_insert_ne by exact Hne. reflexivity. }
  rewrite Hm1.
  (* the write of the index *)
  set (w2 := snd (localStorage_setItem _ _ w1)).
  assert (Hw2 : w2 = with_writes ((PersistentCache.metadataKey w, true) :: writes w1)
                       (with_localStorage storage2 w1)).
  { subst w2. unfold localStorage_setItem.
    change (localStorage w1) with storage1. change (quota w1) with (quota w).
    fold storage2. apply Nat.leb_le in Hfit2. rewrite Hfit2. reflexivity. }
  assert (Hm2 : metadata_of w2 = dict_set key meta (metadata_of w)).
  { rewrite Hw2. unfold metadata_of. world_simpl.
    change (PersistentCache.metadataKey _) with (PersistentCache.metadataKey w).
    subst storage2. rewrite lookup_insert_eq. reflexivity. }
  assert (Hslot2 : forall k, k <> CACHE_CONFIG.METADATA_KEY ->
             slot w2 k = if decide (k = key) then Some (DItem item) else slot w k).
  { intros k Hk. rewrite Hw2. unfold slot. world_simpl.
    change (storagePrefix w1) with (storagePrefix w). subst storage2 storage1.
    rewrite lookup_insert_ne by (apply not_eq_sym, slot_is_not_metadataKey, Hk).
    destruct (decide (k = key)) as [->|Hkk].
    - apply lookup_insert_eq.
    - apply lookup_insert_ne. intros Heq. apply Hkk. symmetry.
      exact (string_app_inj _ _ _ Heq). }
  assert (Hcons2 : index_consistent w2).
  { split.
    - rewrite Hm2. apply dict_set_NoDup, Hnd.
    - intros k Hk. rewrite (Hslot2 k Hk), Hm2.
      destruct (decide (k = key)) as [->|Hkk].
      + split; [intros _|eauto].
        destruct (decide (key ∈ dict_keys (metadata_of w))) as [Hin|Hnin].
        * rewrite dict_set_keys_present by exact Hin. exact Hin.
        * rewrite dict_set_absent by exact Hnin. unfold dict_keys. rewrite map_app.
          apply elem_of_app. right. left.
      + rewrite (Hiff k Hk).
        destruct (decide (key ∈ dict_keys (metadata_of w))) as [Hin|Hnin].
        * rewrite dict_set_keys_present by exact Hin. reflexivity.
        * rewrite dict_set_absent by exact Hnin. unfold dict_keys. rewrite map_app.
          rewrite elem_of_app. cbn. rewrite list_elem_of_singleton. tauto. }
  (* _cleanupIfNeeded *)
  unfold PersistentCache._cleanupIfNeeded, bind. rewrite getMetadata_eq.
  destruct (Z.of_nat (length (metadata_of w2)) >? CACHE_CONFIG.MAX_ENTRIES);
    [|exact Hcons2].
  apply index_consistent_evict; [| |exact Hcons2].
  - rewrite Hw2. exact Hfit2.
  - intros Hin. apply list_elem_of_fmap in Hin as ([k m] & Hk & He).
    cbn in Hk. subst k.
    assert (Hkeys : CACHE_CONFIG.METADATA_KEY ∈ dict_keys (metadata_of w2)).
    { apply list_elem_of_fmap. exists (CACHE_CONFIG.METADATA_KEY, m).
      split; [reflexivity|].
      rewrite <- (sort_by_expiresAt_Permutation (metadata_of w2)).
      rewrite <- (take_drop PersistentCache.eviction_batch
                    (PersistentCache.sort_by_expiresAt (metadata_of w2))).
      apply elem_of_app. left. exact He. }
    rewrite Hm2 in Hkeys.
    destruct (decide (key ∈ dict_keys (metadata_of w))) as [Hp|Hnp].
    + rewrite dict_set_keys_present in Hkeys by exact Hp. contradiction.
    + rewrite dict_set_absent in Hkeys by exact Hnp. unfold dict_keys in Hkeys.
      rewrite map_app in Hkeys. apply elem_of_app in Hkeys as [?|Hk]; [contradiction|].
      cbn in Hk. apply list_elem_of_singleton in Hk. congruence.
Qed.

(** C4 (not met by the code).  Two calls of [set] on an empty store whose
    quota holds one entry and its index: the first entry has expired when
    the second is set; the second write exceeds the quota, [cleanup]
    removes the first entry, and the retried write succeeds.  The retry
    does not record the key in the index: the durable medium then holds an
    entry that has no metadata record. *)
Theorem C4_retried_write_is_not_indexed :
  let clk := fun n : nat => if (n <? 2)%nat then 0 else 1000 in
  let w0 := new_HybridCache clk ∅ 147 in
  let ops := [OpSet "old" (VNum 1) (Some 10); OpSet "new" (VNum 2) (Some 60000)] in
  let r := for_of ops run_op w0 in
  index_consistent w0
  /\ fst r = Normal tt
  /\ writes (snd r) =
       [("music_platform_cache_new", true);
        ("music_platform_cache_cache_metadata", true);
        ("music_platform_cache_new", false);
        ("music_platform_cache_cache_metadata", true);
        ("music_platform_cache_old", true)]
  /\ slot (snd r) "new" = Some (DItem (mkItem (VNum 2) 61000 1000))
  /\ metadata_of (snd r) = []
  /\ ~ index_consistent (snd r).
Proof.
  intros clk w0 ops r.
  assert (Hslot : slot (snd r) "new" = Some (DItem (mkItem (VNum 2) 61000 1000)))
    by (vm_compute; reflexivity).
  assert (Hmeta : metadata_of (snd r) = []) by (vm_compute; reflexivity).
  split.
  { split; [constructor|].
    intros key _. split.
    - intros [d Hd]. unfold slot in Hd. cbn in Hd. rewrite lookup_empty in Hd. discriminate.
    - intros Hin. apply elem_of_nil in Hin. contradiction. }
  split; [vm_compute; reflexivity|].
  split; [vm_compute; reflexivity|].
  split; [exact Hslot|]. split; [exact Hmeta|].
  intros [_ Hiff].
  destruct (Hiff "new" ltac:(discriminate)) as [Hin _].
  rewrite Hmeta in Hin. apply (elem_of_nil "new"). apply Hin.
  rewrite Hslot. eauto.
Qed.

(** C6 (as amended).  When the index tracks more than [MAX_ENTRIES]
    keys, none of them the reserved [METADATA_KEY], and the medium is
    within its quota, [_cleanupIfNeeded] sorts the records by [expiresAt]
    ascending and evicts the first [Math.floor(MAX_ENTRIES * 0.2) = 20] of
    them: a fixed batch, a fifth of the capacity and not of the number of
    records.  The evicted records leave the index and their slots the
    medium, every evicted record expires no later than every record kept,
    and the clock is not read, so that whether a record has expired plays
    no part.  With [MAX_ENTRIES] records or fewer nothing happens. *)
Theorem C6_cleanupIfNeeded_evicts_fixed_batch :
  (forall (w : World),
     let metadata := metadata_of w in
     let evicted :=
       take PersistentCache.eviction_batch (PersistentCache.sort_by_expiresAt metadata) in
     let r := PersistentCache._cleanupIfNeeded w in
     within_quota w ->
     CACHE_CONFIG.METADATA_KEY ∉ dict_keys metadata ->
     NoDup (dict_keys metadata) ->
     Z.of_nat (length metadata) > CACHE_CONFIG.MAX_ENTRIES ->
     fst r = Normal tt
     /\ length evicted = 20%nat
     /\ metadata_of (snd r) = filter (fun entry => fst entry ∉ dict_keys evicted) metadata
     /\ length (metadata_of (snd r)) = (length metadata - 20)%nat
     /\ (forall k, k ∈ dict_keys evicted -> slot (snd r) k = None)
     /\ (forall k, k ∉ dict_keys evicted -> k <> CACHE_CONFIG.METADATA_KEY ->
           slot (snd r) k = slot w k)
     /\ (forall a b, a ∈ evicted -> b ∈ metadata_of (snd r) -> expires_le a b)
     /\ ticks (snd r) = ticks w)
  /\
  (forall (w : World),
     Z.of_nat (length (metadata_of w)) <= CACHE_CONFIG.MAX_ENTRIES ->
     PersistentCache._cleanupIfNeeded w = (Normal tt, w)).
Proof.
  split.
  - intros w metadata evicted r Hq Hkey Hnd Hlen.
    pose proof (sort_by_expiresAt_Permutation metadata) as Hperm.
    pose proof (sort_by_expiresAt_sorted metadata) as Hsorted.
    assert (Hbatch : PersistentCache.eviction_batch = 20%nat) by reflexivity.
    assert (Hsplit : PersistentCache.sort_by_expiresAt metadata =
                     evicted ++ drop 20 (PersistentCache.sort_by_expiresAt metadata)).
    { subst evicted. rewrite Hbatch. symmetry. apply take_drop. }
    assert (Hlen_evicted : length evicted = 20%nat).
    { subst evicted. rewrite Hbatch. apply length_take_le.
      rewrite Hperm. unfold CACHE_CONFIG.MAX_ENTRIES in Hlen. lia. }
    assert (Hsub : forall e, e ∈ evicted -> e ∈ metadata).
    { intros e He. rewrite <- Hperm, Hsplit. apply elem_of_app. left. exact He. }
    assert (Hrun : r = for_of evicted
                         (fun entry => PersistentCache.delete (fst entry) ;;; ret tt) w).
    { subst r. unfold PersistentCache._cleanupIfNeeded, bind. rewrite getMetadata_eq.
      fold metadata. apply Z.gtb_gt in Hlen. rewrite Hlen. reflexivity. }
    assert (Hkey' : CACHE_CONFIG.METADATA_KEY ∉ dict_keys evicted).
    { intros Hin. apply Hkey. unfold dict_keys in *.
      apply list_elem_of_fmap in Hin as (e & -> & He).
      apply list_elem_of_fmap. exists e. split; [reflexivity|]. exact (Hsub e He). }
    destruct (evict_entries_spec evicted w Hq Hkey') as (_ & Hm & Hgone & Hkept).
    rewrite <- Hrun in Hm, Hgone, Hkept. fold metadata in Hm.
    destruct (cleanupIfNeeded_quiet w) as [Hn [_ Hticks]]. fold r in Hn, Hticks.
    split; [exact Hn|]. split; [exact Hlen_evicted|]. split; [exact Hm|].
    split; [|split; [exact Hgone|split; [exact Hkept|split; [|exact Hticks]]]].
    + (* each key has one record: exactly the evicted records go *)
      rewrite Hm.
      assert (Hnd' : NoDup (dict_keys (evicted ++
                        drop 20 (PersistentCache.sort_by_expiresAt metadata)))).
      { rewrite <- Hsplit. unfold dict_keys. rewrite Hperm. exact Hnd. }
      unfold dict_keys in Hnd'. rewrite map_app in Hnd'.
      apply NoDup_app in Hnd' as (_ & Hdisj & _).
      transitivity (length (filter (fun entry : string * Meta => fst entry ∉ dict_keys evicted)
                              (PersistentCache.sort_by_expiresAt metadata))).
      { apply Permutation_length. rewrite Hperm. reflexivity. }
      rewrite Hsplit at 1. rewrite filter_app.
      replace (filter _ evicted) with (@nil (string * Meta)).
      2:{ symmetry. apply filter_none. intros e He Hn'.
          apply Hn'. apply list_elem_of_fmap. exists e. auto. }
      rewrite filter_all.
      2:{ intros e He Hin. apply (Hdisj (fst e) Hin).
          apply list_elem_of_fmap. exists e. auto. }
      cbn [app]. rewrite length_drop. rewrite Hperm. reflexivity.
    + intros a b Ha Hb. rewrite Hm in Hb. apply list_elem_of_filter in Hb as [Hnot Hb].
      rewrite <- Hperm, Hsplit in Hb. apply elem_of_app in Hb as [Hb|Hb].
      * exfalso. apply Hnot. apply list_elem_of_fmap. exists b. auto.
      * apply (sorted_take_drop 20 (PersistentCache.sort_by_expiresAt metadata));
          [exact Hsorted| |exact Hb].
        subst evicted. rewrite Hbatch in Ha. exact Ha.
  - intros w Hlen. unfold PersistentCache._cleanupIfNeeded, bind. rewrite getMetadata_eq.
    destruct (Z.gtb_spec (Z.of_nat (length (metadata_of w))) CACHE_CONFIG.MAX_ENTRIES);
      [lia|reflexivity].
Qed.

Lemma C6_witness :
  let metadata :=
    map (fun i : nat => ("track:" +:+ pretty (Z.of_nat i), mkMeta (5000 - Z.of_nat i) 50))
      (seq 0 101) in
  let w :=
    mkWorld 0 (fun _ => 0) 0
      {[ "music_platform_cache_cache_metadata" := DMeta metadata ]} (Z.to_nat 100000) []
      (mkMemoryCache [] CACHE_CONFIG.MAX_ENTRIES) CACHE_CONFIG.STORAGE_PREFIX
      (mkStats 0 0 0) in
  let r := PersistentCache._cleanupIfNeeded w in
  fst r = Normal tt
  /\ length (metadata_of (snd r)) = 81%nat
  /\ ticks (snd r) = ticks w.
Proof.
  intros metadata w r.
  destruct C6_cleanupIfNeeded_evicts_fixed_batch as [Hover _].
  assert (Hm : metadata_of w = metadata) by reflexivity.
  destruct (Hover w) as (Hn & _ & _ & Hlen & _ & _ & _ & Hticks).
  - apply Nat.leb_le. vm_compute. reflexivity.
  - rewrite Hm. compute_done.
  - rewrite Hm. compute_done.
  - rewrite Hm. vm_compute. reflexivity.
  - split; [exact Hn|]. split; [|exact Hticks].
    etransitivity; [exact Hlen|]. rewrite Hm. reflexivity.
Defined.

(** C6 as stated fails: with 105 records in the index, a fifth of them,
    rounded down, is 21; [_cleanupIfNeeded] evicts 20 and leaves 85. *)
Lemma C6_counterexample :
  ~ (forall w : World,
       within_quota w ->
       CACHE_CONFIG.METADATA_KEY ∉ dict_keys (metadata_of w) ->
       NoDup (dict_keys (metadata_of w)) ->
       Z.of_nat (length (metadata_of w)) > CACHE_CONFIG.MAX_ENTRIES ->
       length (metadata_of (snd (PersistentCache._cleanupIfNeeded w))) =
         (length (metadata_of w) - length (metadata_of w) * 20 / 100)%nat).
Proof.
  intros H.
  set (metadata :=
    map (fun i : nat => ("track:" +:+ pretty (Z.of_nat i), mkMeta (5000 - Z.of_nat i) 50))
      (seq 0 105)).
  set (w :=
    mkWorld 0 (fun _ => 0) 0
      {[ "music_platform_cache_cache_metadata" := DMeta metadata ]} (Z.to_nat 100000) []
      (mkMemoryCache [] CACHE_CONFIG.MAX_ENTRIES) CACHE_CONFIG.STORAGE_PREFIX
      (mkStats 0 0 0)).
  assert (Hm : metadata_of w = metadata) by reflexivity.
  specialize (H w).
  assert (Hafter : length (metadata_of (snd (PersistentCache._cleanupIfNeeded w))) = 85%nat)
    by (vm_compute; reflexivity).
  rewrite Hafter, Hm in H.
  assert (H85 : 85%nat = (105 - 105 * 20 / 100)%nat).
  { apply H.
    - apply Nat.leb_le. vm_compute. reflexivity.
    - compute_done.
    - compute_done.
    - vm_compute. reflexivity. }
  vm_compute in H85. discriminate.
Qed.

(** ** The two tiers together *)


(** [MemoryCache.get] in one step. *)
Lemma MemoryCache_get_eq key w :
  MemoryCache.get key w =
    match dict_get key (cache (memoryCache w)) with
    | None => (Normal VNull, w)
    | Some item =>
        if clock w (ticks w) >? expiresAt item then
          (Normal VNull,
           with_cache (dict_delete key (cache (memoryCache w))) (with_ticks (S (ticks w)) w))
        else
          (Normal (data item),
           with_cache (dict_set key item (dict_delete key (cache (memoryCache w))))
             (with_ticks (S (ticks w)) w))
    end.
Proof.
  unfold MemoryCache.get, bind, gets, modify, ret, Date_now.
  destruct (dict_get key (cache (memoryCache w))) as [item|]; [|reflexivity].
  cbn. destruct (clock w (ticks w) >? expiresAt item); reflexivity.
Qed.

(** [PersistentCache.get] in one step: a miss for an empty slot and for
    a text that is not an entry; an expired entry is deleted. *)
Lemma PersistentCache_get_eq key w :
  PersistentCache.get key w =
    match slot w key with
    | Some (DItem parsed) =>
        if clock w (ticks w) >? expiresAt parsed then
          (Normal VNull, snd (PersistentCache.delete key (with_ticks (S (ticks w)) w)))
        else (Normal (data parsed), with_ticks (S (ticks w)) w)
    | _ => (Normal VNull, w)
    end.
Proof.
  unfold PersistentCache.get, try_catch, bind at 1 2, PersistentCache._getStorageKey, gets,
    localStorage_getItem, gets, slot.
  destruct (localStorage w !! (storagePrefix w +:+ key)) as [[parsed|m|text]|];
    try reflexivity.
  unfold bind at 1, Date_now.
  destruct (clock w (ticks w) >? expiresAt parsed); [|reflexivity].
  unfold bind. pose proof (PersistentCache_delete_eq key (with_ticks (S (ticks w)) w)) as Heq.
  cbn zeta in Heq. rewrite Heq. reflexivity.
Qed.

Lemma PersistentCache_get_step key w : durable_step w (snd (PersistentCache.get key w)).
Proof.
  rewrite PersistentCache_get_eq.
  destruct (slot w key) as [[parsed|m|text]|]; try apply durable_step_refl.
  destruct (clock w (ticks w) >? expiresAt parsed); cbn [snd].
  - eapply durable_step_trans; [|apply PersistentCache_delete_step]. repeat split.
  - repeat split.
Qed.

Lemma PersistentCache_set_step key v ttl w :
  durable_step w (snd (PersistentCache.set key v ttl w)).
Proof.
  destruct (serializable v) eqn:Hser.
  - destruct (le_lt_dec (storage_bytes (<[storagePrefix w +:+ key :=
        DItem (mkItem v (clock w (ticks w) + default (5 * 60 * 1000) ttl)
                 (clock w (S (ticks w))))]> (localStorage w))) (quota w)) as [Hfit|Hover].
    + rewrite (PersistentCache_set_fits w key v ttl Hser Hfit). cbn [snd].
      eapply durable_step_trans; [|apply cleanupIfNeeded_quiet].
      eapply durable_step_trans; [|apply setItem_step]. repeat split.
    + rewrite (PersistentCache_set_over_quota w key v ttl Hser Hover). cbn [snd].
      eapply durable_step_trans; [|apply setItem_step].
      eapply durable_step_trans; [|apply PersistentCache_cleanup_spec]. repeat split.
  - rewrite (PersistentCache_set_unserializable w key v ttl Hser). repeat split.
Qed.

Lemma MemoryCache_get_step key w : fast_step w (snd (MemoryCache.get key w)).
Proof.
  rewrite MemoryCache_get_eq.
  destruct (dict_get key (cache (memoryCache w))) as [item|]; [|repeat split].
  destruct (clock w (ticks w) >? expiresAt item); repeat split.
Qed.

Lemma MemoryCache_set_step key v ttl w : fast_step w (snd (MemoryCache.set key v ttl w)).
Proof. rewrite MemoryCache_set_eq. repeat split. Qed.

Lemma fast_step_slot w w' key : fast_step w w' -> slot w' key = slot w key.
Proof. intros (_&_&Hs&_&_&_&Hp&_). unfold slot. rewrite Hs, Hp. reflexivity. Qed.

Lemma durable_step_cache w w' : durable_step w w' -> memoryCache w' = memoryCache w.
Proof. intros H. apply H. Qed.

(** The fast tier never fails, and returns [null] on a miss. *)
Lemma MemoryCache_get_normal key w :
  exists v, MemoryCache.get key w = (Normal v, snd (MemoryCache.get key w)).
Proof.
  rewrite MemoryCache_get_eq.
  destruct (dict_get key (cache (memoryCache w))) as [item|]; [|eauto].
  destruct (clock w (ticks w) >? expiresAt item); eauto.
Qed.

Lemma PersistentCache_get_normal key w :
  exists v, PersistentCache.get key w = (Normal v, snd (PersistentCache.get key w)).
Proof.
  rewrite PersistentCache_get_eq.
  destruct (slot w key) as [[parsed|m|text]|]; eauto.
  destruct (clock w (ticks w) >? expiresAt parsed); eauto.
Qed.

(** The three ways through [HybridCache.get]. *)
Lemma HybridCache_get_fast_hit key w v w1 :
  MemoryCache.get key w = (Normal v, w1) ->
  is_null v = false ->
  HybridCache.get key w =
    (Normal v,
     with_stats (mkStats (hits (stats w1) + 1) (misses (stats w1)) (sets (stats w1))) w1).
Proof.
  intros Hget Hv. unfold HybridCache.get. unfold bind at 1. rewrite Hget, Hv. reflexivity.
Qed.

Lemma HybridCache_get_durable_hit key w v w1 w2 :
  MemoryCache.get key w = (Normal VNull, w1) ->
  PersistentCache.get key w1 = (Normal v, w2) ->
  is_null v = false ->
  let w3 := snd (MemoryCache.set key v (Some (5 * 60 * 1000)) w2) in
  HybridCache.get key w =
    (Normal v,
     with_stats (mkStats (hits (stats w3) + 1) (misses (stats w3)) (sets (stats w3))) w3).
Proof.
  intros Hget1 Hget2 Hv w3. unfold HybridCache.get. unfold bind at 1. rewrite Hget1.
  cbn [is_null negb]. unfold bind at 1. rewrite Hget2, Hv. cbn [negb].
  unfold bind at 1. subst w3. rewrite MemoryCache_set_eq. reflexivity.
Qed.

Lemma HybridCache_get_miss key w w1 w2 :
  MemoryCache.get key w = (Normal VNull, w1) ->
  PersistentCache.get key w1 = (Normal VNull, w2) ->
  HybridCache.get key w =
    (Normal VNull,
     with_stats (mkStats (hits (stats w2)) (misses (stats w2) + 1) (sets (stats w2))) w2).
Proof.
  intros Hget1 Hget2. unfold HybridCache.get. unfold bind at 1. rewrite Hget1.
  cbn [is_null negb]. unfold bind at 1. rewrite Hget2. reflexivity.
Qed.

(** C9 (as amended).  When the fast tier misses and the durable tier
    holds an unexpired entry whose value is not [null], [HybridCache.get]
    returns the value, adds one to [hits], and writes the value into the
    fast tier with a TTL of five minutes, so that a direct read of the fast
    tier made within those five minutes returns the same value.  When both
    tiers miss it returns [null] and adds one to [misses]. *)
Theorem C9_get_promotes_durable_hit :
  (forall (w : World) (key : string) (item : Item),
     let w1 := snd (MemoryCache.get key w) in
     let r := HybridCache.get key w in
     let promoted :=
       mkItem (data item) (clock w (S (ticks w1)) + 5 * 60 * 1000)
         (clock w (S (S (ticks w1)))) in
     fst (MemoryCache.get key w) = Normal VNull ->
     slot w key = Some (DItem item) ->
     clock w (ticks w1) <= expiresAt item ->
     data item <> VNull ->
     fst r = Normal (data item)
     /\ stats (snd r) = mkStats (hits (stats w) + 1) (misses (stats w)) (sets (stats w))
     /\ dict_get key (cache (memoryCache (snd r))) = Some promoted
     /\ (clock w (ticks (snd r)) <= expiresAt promoted ->
         fst (MemoryCache.get key (snd r)) = Normal (data item)))
  /\
  (forall (w : World) (key : string),
     let w1 := snd (MemoryCache.get key w) in
     let r := HybridCache.get key w in
     fst (MemoryCache.get key w) = Normal VNull ->
     fst (PersistentCache.get key w1) = Normal VNull ->
     fst r = Normal VNull
     /\ stats (snd r) = mkStats (hits (stats w)) (misses (stats w) + 1) (sets (stats w))).
Proof.
  split.
  - intros w key item w1 r promoted Hmiss Hslot Hlive Hval.
    destruct (MemoryCache_get_normal key w) as [v1 Hget1]. fold w1 in Hget1.
    rewrite Hget1 in Hmiss. cbn [fst] in Hmiss. injection Hmiss as ->.
    pose proof (MemoryCache_get_step key w) as Hstep1. fold w1 in Hstep1.
    assert (Hclock1 : clock w1 = clock w) by (apply Hstep1).
    assert (Hstats1 : stats w1 = stats w) by (apply Hstep1).
    assert (Hget2 : PersistentCache.get key w1 =
                    (Normal (data item), with_ticks (S (ticks w1)) w1)).
    { rewrite PersistentCache_get_eq, (fast_step_slot _ _ key Hstep1), Hslot, Hclock1.
      destruct (Z.gtb_spec (clock w (ticks w1)) (expiresAt item)); [lia|reflexivity]. }
    assert (Hnn : is_null (data item) = false)
      by (destruct (data item) eqn:Hd; try reflexivity; congruence).
    pose proof (HybridCache_get_durable_hit key w (data item) w1 _ Hget1 Hget2 Hnn) as Hrun.
    cbn zeta in Hrun. fold r in Hrun. rewrite MemoryCache_set_eq in Hrun.
    rewrite Hrun. world_simpl. rewrite Hclock1, Hstats1. fold promoted.
    split; [reflexivity|]. split; [reflexivity|]. split; [apply dict_get_set_eq|].
    intros Hsoon. rewrite MemoryCache_get_eq. world_simpl.
    rewrite Hclock1. fold promoted. rewrite dict_get_set_eq.
    destruct (Z.gtb_spec (clock w (S (S (S (ticks w1))))) (expiresAt promoted));
      [lia|reflexivity].
  - intros w key w1 r Hmiss1 Hmiss2.
    destruct (MemoryCache_get_normal key w) as [v1 Hget1]. fold w1 in Hget1.
    rewrite Hget1 in Hmiss1. cbn [fst] in Hmiss1. injection Hmiss1 as ->.
    destruct (PersistentCache_get_normal key w1) as [v2 Hget2].
    rewrite Hget2 in Hmiss2. cbn [fst] in Hmiss2. injection Hmiss2 as ->.
    subst r. rewrite (HybridCache_get_miss key w w1 _ Hget1 Hget2). cbn [fst snd stats with_stats].
    pose proof (MemoryCache_get_step key w) as Hstep1. fold w1 in Hstep1.
    pose proof (PersistentCache_get_step key w1) as Hstep2.
    assert (Hs : stats (snd (PersistentCache.get key w1)) = stats w).
    { transitivity (stats w1); [apply Hstep2|apply Hstep1]. }
    rewrite Hs. auto.
Qed.

Lemma C9_witness :
  let durable := fun v : value =>
    mkWorld 0 (fun n => Z.of_nat n) 0
      {[ "music_platform_cache_track:1" := DItem (mkItem v 1000 0) ]} 1000 []
      (mkMemoryCache [] CACHE_CONFIG.MAX_ENTRIES) CACHE_CONFIG.STORAGE_PREFIX
      (mkStats 0 0 0) in
  let r := HybridCache.get "track:1" (durable (VNum 7)) in
  let r' := HybridCache.get "track:2" (durable (VNum 7)) in
  (fst r = Normal (VNum 7)
   /\ stats (snd r) = mkStats 1 0 0
   /\ fst (MemoryCache.get "track:1" (snd r)) = Normal (VNum 7))
  /\ (fst r' = Normal VNull /\ stats (snd r') = mkStats 0 1 0).
Proof.
  intros durable r r'.
  destruct C9_get_promotes_durable_hit as [Hhit Hmiss].
  split.
  - destruct (Hhit (durable (VNum 7)) "track:1" (mkItem (VNum 7) 1000 0))
      as (Hv & Hs & _ & Hread).
    + reflexivity.
    + reflexivity.
    + vm_compute. discriminate.
    + discriminate.
    + split; [exact Hv|]. split; [exact Hs|]. apply Hread. vm_compute. discriminate.
  - apply (Hmiss (durable (VNum 7)) "track:2"); reflexivity.
Defined.

(** C9 as stated fails: the durable tier holds an unexpired entry whose
    value is [null]; [get] counts a miss and promotes nothing. *)
Lemma C9_counterexample :
  ~ (forall (w : World) (key : string) (item : Item),
       fst (MemoryCache.get key w) = Normal VNull ->
       slot w key = Some (DItem item) ->
       clock w (ticks (snd (MemoryCache.get key w))) <= expiresAt item ->
       hits (stats (snd (HybridCache.get key w))) = hits (stats w) + 1
       /\ is_Some (dict_get key (cache (memoryCache (snd (HybridCache.get key w)))))).
Proof.
  intros H.
  destruct (H (mkWorld 0 (fun n => Z.of_nat n) 0
                 {[ "music_platform_cache_track:1" := DItem (mkItem VNull 1000 0) ]} 1000 []
                 (mkMemoryCache [] CACHE_CONFIG.MAX_ENTRIES) CACHE_CONFIG.STORAGE_PREFIX
                 (mkStats 0 0 0))
              "track:1" (mkItem VNull 1000 0)) as [Hhits _].
  - reflexivity.
  - reflexivity.
  - vm_compute. discriminate.
  - vm_compute in Hhits. discriminate.
Qed.

(** After [delete] the slot of the key holds no entry. *)
Lemma PersistentCache_delete_slot key w item :
  slot (snd (PersistentCache.delete key w)) key <> Some (DItem item).
Proof.
  rewrite PersistentCache_delete_eq. cbn [snd]. unfold slot, localStorage_setItem.
  destruct (storage_bytes _ <=? _)%nat; world_simpl.
  - destruct (decide (PersistentCache.metadataKey w = storagePrefix w +:+ key)) as [<-|Hne].
    + rewrite lookup_insert_eq. discriminate.
    + rewrite lookup_insert_ne by exact Hne. rewrite lookup_delete_eq. discriminate.
  - rewrite lookup_delete_eq. discriminate.
Qed.

(** A key under which no tier holds anything but [null] reads as a miss,
    and stays such a key. *)
Lemma HybridCache_get_only_null key w :
  only_null key w ->
  let r := HybridCache.get key w in
  fst r = Normal VNull
  /\ stats (snd r) = mkStats (hits (stats w)) (misses (stats w) + 1) (sets (stats w))
  /\ calls (snd r) = calls w
  /\ clock (snd r) = clock w
  /\ only_null key (snd r).
Proof.
  intros [Hmem Hdur] r.
  (* the fast tier *)
  set (w1 := snd (MemoryCache.get key w)).
  pose proof (MemoryCache_get_step key w) as Hstep1. fold w1 in Hstep1.
  assert (Hget1 : MemoryCache.get key w = (Normal VNull, w1)
                  /\ forall item, dict_get key (cache (memoryCache w1)) = Some item ->
                                  data item = VNull).
  { subst w1. rewrite MemoryCache_get_eq.
    destruct (dict_get key (cache (memoryCache w))) as [item|] eqn:Hg.
    - pose proof (Hmem item eq_refl) as Hnull.
      destruct (clock w (ticks w) >? expiresAt item); world_simpl.
      + split; [reflexivity|]. intros item'. rewrite dict_get_delete_eq. discriminate.
      + rewrite Hnull. split; [reflexivity|]. intros item'. rewrite dict_get_set_eq.
        intros [= <-]. exact Hnull.
    - split; [reflexivity|]. world_simpl. rewrite Hg. discriminate. }
  destruct Hget1 as [Hget1 Hmem1].
  (* the durable tier *)
  set (w2 := snd (PersistentCache.get key w1)).
  pose proof (PersistentCache_get_step key w1) as Hstep2. fold w2 in Hstep2.
  assert (Hslot1 : slot w1 key = slot w key) by (apply fast_step_slot, Hstep1).
  assert (Hget2 : PersistentCache.get key w1 = (Normal VNull, w2)
                  /\ forall item, slot w2 key = Some (DItem item) -> data item = VNull).
  { subst w2. rewrite PersistentCache_get_eq, Hslot1.
    destruct (slot w key) as [[parsed|m|text]|] eqn:Hs.
    - pose proof (Hdur parsed eq_refl) as Hnull.
      destruct (clock w1 (ticks w1) >? expiresAt parsed); cbn [snd].
      + split; [reflexivity|]. intros item Hitem.
        exfalso. exact (PersistentCache_delete_slot key _ item Hitem).
      + rewrite Hnull. split; [reflexivity|]. intros item.
        change (slot (with_ticks (S (ticks w1)) w1) key) with (slot w1 key).
        rewrite Hslot1. intros [= <-]. exact Hnull.
    - split; [reflexivity|]. cbn [snd]. rewrite Hslot1. discriminate.
    - split; [reflexivity|]. cbn [snd]. rewrite Hslot1. discriminate.
    - split; [reflexivity|]. cbn [snd]. rewrite Hslot1. discriminate. }
  destruct Hget2 as [Hget2 Hdur2].
  subst r. rewrite (HybridCache_get_miss key w w1 w2 Hget1 Hget2). world_simpl.
  assert (Hs : stats w2 = stats w) by (transitivity (stats w1); [apply Hstep2|apply Hstep1]).
  rewrite Hs. split; [reflexivity|]. split; [reflexivity|].
  split; [transitivity (calls w1); [apply Hstep2|apply Hstep1]|].
  split; [transitivity (clock w1); [apply Hstep2|apply Hstep1]|].
  split.
  - intros item. world_simpl. rewrite (durable_step_cache _ _ Hstep2). apply Hmem1.
  - exact Hdur2.
Qed.


(** [HybridCache.set] never fails; it writes the fast tier first, with a
    TTL capped at five minutes. *)
Lemma HybridCache_set_eq key v ttl w :
  let ttl' := default (5 * 60 * 1000) ttl in
  let w1 := snd (MemoryCache.set key v (Some (Z.min ttl' (5 * 60 * 1000))) w) in
  let w2 := snd (PersistentCache.set key v (Some ttl') w1) in
  HybridCache.set key v ttl w =
    (Normal tt, with_stats (mkStats (hits (stats w2)) (misses (stats w2)) (sets (stats w2) + 1)) w2).
Proof.
  intros ttl' w1 w2. subst w1 w2. unfold HybridCache.set, bind. fold ttl'.
  pose proof (MemoryCache_set_eq key v (Some (Z.min ttl' (5 * 60 * 1000))) w) as H1.
  destruct (MemoryCache.set key v (Some (Z.min ttl' (5 * 60 * 1000))) w) as [r1 w1].
  injection H1 as -> _. cbn [snd].
  pose proof (PersistentCache_set_normal w1 key v (Some ttl')) as H2.
  destruct (PersistentCache.set key v (Some ttl') w1) as [r2 w2].
  cbn [fst snd] in *. subst r2. reflexivity.
Qed.

Lemma HybridCache_get_normal key w :
  exists v, HybridCache.get key w = (Normal v, snd (HybridCache.get key w))
            /\ calls (snd (HybridCache.get key w)) = calls w
            /\ clock (snd (HybridCache.get key w)) = clock w.
Proof.
  destruct (MemoryCache_get_normal key w) as [v1 Hget1].
  pose proof (MemoryCache_get_step key w) as Hstep1.
  set (w1 := snd (MemoryCache.get key w)) in *.
  destruct (is_null v1) eqn:Hv1.
  - destruct v1; try discriminate.
    destruct (PersistentCache_get_normal key w1) as [v2 Hget2].
    pose proof (PersistentCache_get_step key w1) as Hstep2.
    set (w2 := snd (PersistentCache.get key w1)) in *.
    assert (Hc : calls w2 = calls w) by (transitivity (calls w1); [apply Hstep2|apply Hstep1]).
    assert (Hk : clock w2 = clock w) by (transitivity (clock w1); [apply Hstep2|apply Hstep1]).
    destruct (is_null v2) eqn:Hv2.
    + destruct v2; try discriminate.
      rewrite (HybridCache_get_miss key w w1 w2 Hget1 Hget2). exists VNull. auto.
    + pose proof (HybridCache_get_durable_hit key w v2 w1 w2 Hget1 Hget2 Hv2) as Hrun.
      cbn zeta in Hrun. rewrite Hrun. exists v2. world_simpl.
      pose proof (MemoryCache_set_step key v2 (Some (5 * 60 * 1000)) w2) as Hstep3.
      split; [reflexivity|]. split.
      * transitivity (calls w2); [apply Hstep3|exact Hc].
      * transitivity (clock w2); [apply Hstep3|exact Hk].
  - rewrite (HybridCache_get_fast_hit key w v1 w1 Hget1 Hv1). exists v1. world_simpl.
    split; [reflexivity|]. split; apply Hstep1.
Qed.

Lemma HybridCache_delete_eq key w :
  HybridCache.delete key w =
    (Normal true,
     snd (PersistentCache.delete key
            (with_cache (dict_delete key (cache (memoryCache w))) w))).
Proof.
  unfold HybridCache.delete, bind at 1, MemoryCache.delete, bind, gets, modify, ret.
  pose proof (PersistentCache_delete_eq key
                (with_cache (dict_delete key (cache (memoryCache w))) w)) as Heq.
  cbn zeta in Heq. rewrite Heq. reflexivity.
Qed.

(** The wrapper on a remote operation: a hit, a miss followed by a value,
    a miss followed by an error. *)
Section WithCacheFacts.
Context {Args : Type}.
Variables (script : Args -> nat -> outcome) (keyGenerator : Args -> string)
          (ttl : option Z) (args : Args) (w : World).

Let wrapped : Args -> M World value :=
  withCache (fun args => remote (script args)) keyGenerator ttl.
Let w0 : World := snd (HybridCache.get (keyGenerator args) w).



End WithCacheFacts.










(** * Further properties of the tiered cache *)

(** ** The fast tier *)

Lemma dict_get_elem_of {A} key (v : A) (d : list (string * A)) :
  dict_get key d = Some v -> (key, v) ∈ d.
Proof.
  induction d as [|[k v0] d IH]; cbn; [discriminate|].
  destruct (String.eqb_spec key k) as [->|Hne].
  - intros [= ->]. left.
  - intros H. right. auto.
Qed.

Lemma dict_get_app_absent {A} key (d1 d2 : list (string * A)) :
  key ∉ dict_keys d1 -> dict_get key (d1 ++ d2) = dict_get key d2.
Proof.
  induction d1 as [|[k v] d1 IH]; cbn; [reflexivity|].
  intros Hnin. apply not_elem_of_cons in Hnin as [Hne Hnin].
  destruct (String.eqb_spec key k); [congruence|auto].
Qed.

Lemma dict_delete_length {A} key (d : list (string * A)) :
  (length (dict_delete key d) <= length d)%nat.
Proof.
  induction d as [|[k v] d IH]; cbn; [lia|].
  destruct (String.eqb key k); cbn; lia.
Qed.

Lemma dict_delete_length_present {A} key (d : list (string * A)) :
  key ∈ dict_keys d -> (length (dict_delete key d) < length d)%nat.
Proof.
  induction d as [|[k v] d IH]; cbn; [intros H; inversion H|].
  intros Hin. destruct (String.eqb_spec key k) as [->|Hne].
  - pose proof (dict_delete_length k d). lia.
  - apply elem_of_cons in Hin as [?|Hin]; [congruence|]. cbn. specialize (IH Hin). lia.
Qed.

Lemma dict_delete_length_NoDup {A} key (d : list (string * A)) :
  NoDup (dict_keys d) -> key ∈ dict_keys d ->
  S (length (dict_delete key d)) = length d.
Proof.
  induction d as [|[k v] d IH]; cbn; [intros _ H; inversion H|].
  intros Hnd Hin. apply NoDup_cons in Hnd as [Hnot Hnd].
  destruct (String.eqb_spec key k) as [->|Hne].
  - rewrite dict_delete_absent by exact Hnot. reflexivity.
  - apply elem_of_cons in Hin as [?|Hin]; [congruence|]. cbn. rewrite IH; auto.
Qed.

Lemma dict_set_length {A} key (v : A) (d : list (string * A)) :
  (length (dict_set key v d) <= S (length d))%nat.
Proof.
  induction d as [|[k v0] d IH]; cbn; [lia|].
  destruct (String.eqb key k); cbn; lia.
Qed.

Lemma dict_get_Some_keys {A} key (v : A) (d : list (string * A)) :
  dict_get key d = Some v -> key ∈ dict_keys d.
Proof.
  intros H. destruct (decide (key ∈ dict_keys d)) as [|Hnin]; [assumption|].
  apply dict_get_None in Hnin. congruence.
Qed.

(** X15. The fast tier approximates a least-recently-used order: an entry
    that was just read is at the most-recently-used end, so that it
    outlives the next insertion of a new key, whatever the capacity,
    when the tier holds another entry to evict. *)
Theorem MemoryCache_entry_read_survives_next_insertion :
  forall (w : World) (key key' : string) (item : Item) (v : value) (ttl : option Z),
    let c := cache (memoryCache w) in
    let r1 := MemoryCache.get key w in
    let r2 := MemoryCache.set key' v ttl (snd r1) in
    dict_get key c = Some item ->
    clock w (ticks w) <= expiresAt item ->
    (2 <= length c)%nat ->
    NoDup (dict_keys c) ->
    key' <> key ->
    fst r1 = Normal (data item)
    /\ cache (memoryCache (snd r1)) = dict_delete key c ++ [(key, item)]
    /\ dict_get key (cache (memoryCache (snd r2))) = Some item.
Proof.
  intros w key key' item v ttl c r1 r2 Hget Hlive Hlen Hnd Hne.
  assert (Hin : key ∈ dict_keys c) by (eapply dict_get_Some_keys; exact Hget).
  assert (Hdel : key ∉ dict_keys (dict_delete key c)).
  { apply dict_get_None, dict_get_delete_eq. }
  assert (Hr1 : r1 = (Normal (data item),
                      with_cache (dict_delete key c ++ [(key, item)])
                        (with_ticks (S (ticks w)) w))).
  { subst r1. rewrite MemoryCache_get_eq. fold c. rewrite Hget.
    destruct (Z.gtb_spec (clock w (ticks w)) (expiresAt item)); [lia|].
    rewrite dict_set_absent by exact Hdel. reflexivity. }
  rewrite Hr1. cbn [fst snd]. split; [reflexivity|]. split; [reflexivity|].
  subst r2. rewrite Hr1. cbn [snd]. rewrite MemoryCache_set_eq. world_simpl.
  cbn [snd memoryCache cache with_cache with_ticks].
  rewrite dict_get_set_ne by congruence.
  set (c1 := dict_delete key c ++ [(key, item)]).
  assert (Hc1 : dict_get key c1 = Some item).
  { subst c1. rewrite dict_get_app_absent by exact Hdel. cbn.
    rewrite String.eqb_refl. reflexivity. }
  destruct (Z.of_nat (length c1) >=? _); [|exact Hc1].
  destruct (dict_delete key c) as [|[k0 m0] rest] eqn:Ed.
  - pose proof (dict_delete_length_NoDup key c Hnd Hin) as Hl.
    rewrite Ed in Hl. cbn in Hl. lia.
  - subst c1. cbn [app first_key dict_keys map head fst].
    assert (Hk0 : k0 <> key).
    { intros ->. apply Hdel. left. }
    rewrite dict_get_delete_ne by congruence.
    change ((k0, m0) :: rest ++ [(key, item)]) with (((k0, m0) :: rest) ++ [(key, item)]).
    rewrite dict_get_app_absent by exact Hdel. cbn.
    rewrite String.eqb_refl. reflexivity.
Qed.

Lemma MemoryCache_entry_read_survives_next_insertion_witness :
  let w :=
    mkWorld 0 (fun n => Z.of_nat n) 0 ∅ 0 []
      (mkMemoryCache [("a", mkItem (VNum 1) 300000 0); ("b", mkItem (VNum 2) 300001 1)] 2)
      CACHE_CONFIG.STORAGE_PREFIX (mkStats 0 0 0) in
  let w' := snd (MemoryCache.set "c" (VNum 3) None (snd (MemoryCache.get "a" w))) in
  dict_get "a" (cache (memoryCache w')) = Some (mkItem (VNum 1) 300000 0)
  /\ dict_keys (cache (memoryCache w')) = ["a"; "c"].
Proof.
  intros w w'. split; [|vm_compute; reflexivity].
  refine (proj2 (proj2 (MemoryCache_entry_read_survives_next_insertion w "a" "c"
                          (mkItem (VNum 1) 300000 0) (VNum 3) None _ _ _ _ _))).
  - reflexivity.
  - vm_compute. discriminate.
  - cbn. lia.
  - compute_done.
  - discriminate.
Defined.

(** X16. Round trip through the fast tier, whatever its capacity and
    contents: a value set under a key is what [get] returns for the key
    while the entry has not expired; once the time to live has passed,
    [get] returns [null] and removes the entry. *)
Theorem MemoryCache_set_then_get :
  forall (w : World) (key : string) (v : value) (ttl : option Z),
    let written := clock w (ticks w) in
    let read := clock w (S (S (ticks w))) in
    let r := MemoryCache.get key (snd (MemoryCache.set key v ttl w)) in
    (read <= written + default (5 * 60 * 1000) ttl -> fst r = Normal v)
    /\ (read > written + default (5 * 60 * 1000) ttl ->
        fst r = Normal VNull
        /\ dict_get key (cache (memoryCache (snd r))) = None).
Proof.
  intros w key v ttl written read r. subst r.
  rewrite MemoryCache_set_eq. cbn [snd]. rewrite MemoryCache_get_eq.
  cbn [memoryCache cache with_cache with_ticks clock ticks].
  rewrite dict_get_set_eq. cbn [expiresAt data]. fold written read.
  destruct (Z.gtb_spec read (written + default (5 * 60 * 1000) ttl)); split; intros H';
    try lia; cbn [fst snd memoryCache cache]; [|reflexivity].
  split; [reflexivity|]. apply dict_get_delete_eq.
Qed.

Lemma MemoryCache_set_then_get_witness :
  let w := new_HybridCache (fun n => 1000 * Z.of_nat n) ∅ 0 in
  fst (MemoryCache.get "track:1" (snd (MemoryCache.set "track:1" (VNum 7) (Some 5000) w)))
    = Normal (VNum 7)
  /\ fst (MemoryCache.get "track:1" (snd (MemoryCache.set "track:1" (VNum 7) (Some 1000) w)))
    = Normal VNull.
Proof.
  intros w. split.
  - apply (MemoryCache_set_then_get w "track:1" (VNum 7) (Some 5000)).
    vm_compute. discriminate.
  - apply (MemoryCache_set_then_get w "track:1" (VNum 7) (Some 1000)).
    vm_compute. reflexivity.
Defined.

(** The loop of [MemoryCache.cleanup] on the entries not yet visited,
    the entries kept so far coming first. *)
Lemma MemoryCache_cleanup_loop now w :
  forall (rest kept : list (string * Item)),
    NoDup (dict_keys (kept ++ rest)) ->
    for_of rest (fun entry =>
      if now >? expiresAt (snd entry) then
        modify (fun w => with_cache (dict_delete (fst entry) (cache (memoryCache w))) w)
      else ret tt) (with_cache (kept ++ rest) w) =
    (Normal tt,
     with_cache (kept ++ filter (fun entry => now <= expiresAt (snd entry)) rest) w).
Proof.
  induction rest as [|[k item] rest IH]; intros kept Hnd.
  - reflexivity.
  - cbn [for_of fst snd]. unfold bind.
    assert (Hnd' : NoDup (dict_keys (kept ++ rest))).
    { unfold dict_keys in *. rewrite map_app in *. cbn in Hnd.
      apply NoDup_app in Hnd as (H1 & H2 & H3). apply NoDup_cons in H3 as [_ H3].
      apply NoDup_app. split; [exact H1|]. split; [|exact H3].
      intros x Hx Hx'. apply (H2 x Hx). right. exact Hx'. }
    destruct (Z.gtb_spec now (expiresAt item)) as [Hexp|Hlive].
    + unfold modify at 1. cbn [memoryCache cache with_cache].
      assert (Hdel : dict_delete k (kept ++ (k, item) :: rest) = kept ++ rest).
      { rewrite dict_delete_filter, filter_app, filter_cons. cbn [fst].
        destruct (decide (k <> k)) as [?|_]; [congruence|].
        unfold dict_keys in Hnd. rewrite map_app in Hnd. cbn in Hnd.
        apply NoDup_app in Hnd as (H1 & H2 & H3). apply NoDup_cons in H3 as [H3 _].
        rewrite !filter_all; [reflexivity| |].
        - intros [k' v'] Hin Heq. cbn in Heq. subst k'. apply H3.
          apply list_elem_of_fmap. exists (k, v'). auto.
        - intros [k' v'] Hin Heq. cbn in Heq. subst k'.
          apply (H2 k); [|left]. apply list_elem_of_fmap. exists (k, v'). auto. }
      rewrite Hdel. cbn beta iota.
      match goal with
      | |- for_of _ _ ?W = _ => change W with (with_cache (kept ++ rest) w)
      end.
      rewrite (IH kept Hnd'). rewrite filter_cons. cbn [snd].
      destruct (decide (now <= expiresAt item)); [lia|reflexivity].
    + unfold ret at 1.
      replace (kept ++ (k, item) :: rest) with ((kept ++ [(k, item)]) ++ rest)
        by (rewrite <- app_assoc; reflexivity).
      rewrite IH.
      * rewrite filter_cons. cbn [snd].
        destruct (decide (now <= expiresAt item)); [|lia].
        rewrite <- app_assoc. reflexivity.
      * rewrite <- app_assoc. exact Hnd.
Qed.

(** X17. [cleanup] of the fast tier reads the clock once and removes exactly
    the entries that have expired by then; the entries that remain keep
    their order. *)
Theorem MemoryCache_cleanup_removes_expired_entries :
  forall (w : World),
    NoDup (dict_keys (cache (memoryCache w))) ->
    let now := clock w (ticks w) in
    MemoryCache.cleanup w =
      (Normal tt,
       with_cache (filter (fun entry => now <= expiresAt (snd entry)) (cache (memoryCache w)))
         (with_ticks (S (ticks w)) w)).
Proof.
  intros w Hnd now. unfold MemoryCache.cleanup, bind, Date_now, gets.
  cbn [memoryCache with_ticks]. fold now.
  pose proof (MemoryCache_cleanup_loop now (with_ticks (S (ticks w)) w)
                (cache (memoryCache w)) [] Hnd) as H.
  cbn [app] in H. rewrite <- H. f_equal.
  destruct w as [c k t s q wr [m ms] p st]. reflexivity.
Qed.

Lemma MemoryCache_cleanup_removes_expired_entries_witness :
  let w :=
    mkWorld 0 (fun _ => 1000) 0 ∅ 0 []
      (mkMemoryCache [("a", mkItem (VNum 1) 500 0); ("b", mkItem (VNum 2) 2000 1);
                      ("c", mkItem (VNum 3) 999 2)] 100)
      CACHE_CONFIG.STORAGE_PREFIX (mkStats 0 0 0) in
  cache (memoryCache (snd (MemoryCache.cleanup w))) = [("b", mkItem (VNum 2) 2000 1)].
Proof.
  intros w.
  rewrite (MemoryCache_cleanup_removes_expired_entries w); [reflexivity|compute_done].
Defined.

(** ** The durable tier *)

(** *** Removing slots *)

Lemma foldl_delete_other (p : string) (keys : list string) :
  forall (s : gmap string doc) sk,
    (forall k, k ∈ keys -> sk <> p +:+ k) ->
    foldl (fun storage key => base.delete (p +:+ key) storage) s keys !! sk = s !! sk.
Proof.
  induction keys as [|k keys IH]; intros s sk Hne; [reflexivity|].
  cbn [foldl]. rewrite IH by (intros k' Hk'; apply Hne; right; exact Hk').
  apply lookup_delete_ne. apply not_eq_sym, Hne. left.
Qed.

Lemma foldl_delete_None (p : string) (keys : list string) :
  forall (s : gmap string doc) sk,
    s !! sk = None ->
    foldl (fun storage key => base.delete (p +:+ key) storage) s keys !! sk = None.
Proof.
  induction keys as [|k keys IH]; intros s sk Hs; [exact Hs|].
  cbn [foldl]. apply IH. rewrite lookup_delete. case_decide; [reflexivity|exact Hs].
Qed.

Lemma foldl_delete_gone (p : string) (keys : list string) :
  forall (s : gmap string doc) k,
    k ∈ keys ->
    foldl (fun storage key => base.delete (p +:+ key) storage) s keys !! (p +:+ k) = None.
Proof.
  induction keys as [|k0 keys IH]; intros s k Hin; [inversion Hin|].
  cbn [foldl]. destruct (decide (k = k0)) as [->|Hne].
  - apply foldl_delete_None, lookup_delete_eq.
  - apply IH. apply elem_of_cons in Hin as [?|Hin]; [congruence|exact Hin].
Qed.

Lemma foldl_delete_bytes (p : string) (keys : list string) :
  forall (s : gmap string doc),
    (storage_bytes (foldl (fun storage key => base.delete (p +:+ key) storage) s keys)
     <= storage_bytes s)%nat.
Proof.
  induction keys as [|k keys IH]; intros s; [reflexivity|].
  cbn [foldl]. etransitivity; [apply IH|apply storage_bytes_delete_le].
Qed.

Lemma with_localStorage_id w : with_localStorage (localStorage w) w = w.
Proof. destruct w. reflexivity. Qed.

(** The loop of [clear]. *)
Lemma remove_each_eq (keys : list string) :
  forall w,
    for_of keys (fun key =>
      storageKey <- PersistentCache._getStorageKey key ;;
      localStorage_removeItem storageKey) w =
    (Normal tt, with_localStorage (remove_slots keys w) w).
Proof.
  induction keys as [|k keys IH]; intros w.
  - cbn. unfold ret, remove_slots. cbn. rewrite with_localStorage_id. reflexivity.
  - cbn [for_of]. unfold bind at 1. unfold bind at 1.
    unfold PersistentCache._getStorageKey at 1, gets at 1.
    unfold localStorage_removeItem at 1, modify at 1. rewrite IH. reflexivity.
Qed.

Lemma PersistentCache_clear_eq w :
  PersistentCache.clear w =
    (Normal tt,
     with_localStorage
       (base.delete (PersistentCache.metadataKey w)
          (remove_slots (dict_keys (metadata_of w)) w)) w).
Proof.
  unfold PersistentCache.clear, try_catch, bind. rewrite getMetadata_eq, remove_each_eq.
  reflexivity.
Qed.

(** The loop of [cleanup]. *)
Lemma cleanup_entries_eq now :
  forall (entries updatedMetadata : list (string * Meta)) (w : World),
    PersistentCache.cleanup_entries now entries updatedMetadata w =
      (Normal (object_spread updatedMetadata
                 (filter (fun entry => ~ expired now entry) entries)),
       with_localStorage
         (remove_slots (dict_keys (filter (expired now) entries)) w) w).
Proof.
  induction entries as [|[key meta] rest IH]; intros updatedMetadata w.
  - cbn. unfold ret, remove_slots. cbn. rewrite with_localStorage_id. reflexivity.
  - cbn [PersistentCache.cleanup_entries]. rewrite !filter_cons.
    assert (Hiff : expired now (key, meta) <-> m_expiresAt meta < now) by reflexivity.
    destruct (Z.gtb_spec now (m_expiresAt meta)) as [Hexp|Hlive].
    + destruct (decide (~ expired now (key, meta))) as [?|_]; [tauto|].
      destruct (decide (expired now (key, meta))) as [_|?]; [|tauto].
      unfold bind at 1. unfold PersistentCache._getStorageKey, gets.
      unfold bind at 1. unfold localStorage_removeItem, modify.
      rewrite IH. reflexivity.
    + destruct (decide (~ expired now (key, meta))) as [_|Hn];
        [|exfalso; apply Hn; unfold expired; cbn; lia].
      destruct (decide (expired now (key, meta))) as [He|_];
        [unfold expired in He; cbn in He; lia|].
      rewrite IH. reflexivity.
Qed.

Lemma object_spread_fresh {A} (source : list (string * A)) :
  forall target,
    NoDup (dict_keys (target ++ source)) ->
    object_spread target source = target ++ source.
Proof.
  induction source as [|[k v] source IH]; intros target Hnd.
  - cbn. rewrite app_nil_r. reflexivity.
  - unfold object_spread in *. cbn [foldl fst snd].
    assert (Hk : k ∉ dict_keys target).
    { unfold dict_keys in *. rewrite map_app in Hnd. cbn in Hnd.
      apply NoDup_app in Hnd as (_ & H & _). intros Hin. apply (H k Hin). left. }
    rewrite dict_set_absent by exact Hk. rewrite IH.
    + rewrite <- app_assoc. reflexivity.
    + rewrite <- app_assoc. exact Hnd.
Qed.

Lemma PersistentCache_cleanup_eq w :
  let now := clock w (ticks w) in
  let m := metadata_of w in
  PersistentCache.cleanup w =
    (Normal tt,
     snd (localStorage_setItem (PersistentCache.metadataKey w)
            (DMeta (object_spread [] (filter (fun entry => ~ expired now entry) m)))
            (with_localStorage (remove_slots (dict_keys (filter (expired now) m)) w)
               (with_ticks (S (ticks w)) w)))).
Proof.
  intros now m. unfold PersistentCache.cleanup, bind, Date_now. fold now.
  rewrite getMetadata_eq. change (metadata_of (with_ticks _ w)) with m.
  rewrite cleanup_entries_eq, setMetadata_eq. reflexivity.
Qed.

(** *** Writing an index that has shrunk *)

Lemma comma_separated_length (texts : list string) :
  String.length (comma_separated texts) =
    (list_sum (map String.length texts) + (length texts - 1))%nat.
Proof.
  induction texts as [|t texts IH]; [reflexivity|].
  rewrite comma_separated_cons. cbn [map list_sum length].
  destruct texts as [|t' texts]; [unfold list_sum; cbn [fold_right map length]; lia|].
  rewrite IH. unfold list_sum. cbn [fold_right map length]. lia.
Qed.

Lemma list_sum_sublist (l1 l2 : list nat) :
  sublist l1 l2 -> (list_sum l1 <= list_sum l2)%nat.
Proof. induction 1; unfold list_sum in *; cbn [fold_right]; lia. Qed.

Lemma text_of_meta_sublist_le (m' m : list (string * Meta)) :
  sublist m' m ->
  (String.length (text_of (DMeta m')) <= String.length (text_of (DMeta m)))%nat.
Proof.
  intros Hsub. cbn [text_of]. rewrite !string_length_app. cbn [String.length].
  rewrite !comma_separated_length, !length_map.
  assert (H1 : (list_sum (map String.length (map text_of_meta m')) <=
                list_sum (map String.length (map text_of_meta m)))%nat).
  { apply list_sum_sublist.
    apply (fmap_sublist String.length), (fmap_sublist text_of_meta), Hsub. }
  pose proof (sublist_length _ _ Hsub) as H2. lia.
Qed.

(** Within the quota, the write of an index that lists some of the
    records of the present index takes. *)
Lemma setMetadata_shrunk (m' : list (string * Meta)) w :
  within_quota w ->
  sublist m' (metadata_of w) ->
  let w' := snd (localStorage_setItem (PersistentCache.metadataKey w) (DMeta m') w) in
  within_quota w'
  /\ metadata_of w' = m'
  /\ (forall k, k <> CACHE_CONFIG.METADATA_KEY -> slot w' k = slot w k)
  /\ (exists ok, writes w' = (PersistentCache.metadataKey w, ok) :: writes w)
  /\ quiet_step w w'.
Proof.
  intros Hq Hsub w'. subst w'.
  set (mk := PersistentCache.metadataKey w).
  assert (Hquiet : quiet_step w (snd (localStorage_setItem mk (DMeta m') w)))
    by (split; [apply setItem_step|apply setItem_ticks]).
  unfold localStorage_setItem in *.
  destruct (Nat.leb_spec (storage_bytes (<[mk := DMeta m']> (localStorage w))) (quota w))
    as [Hfit|Hover]; cbn [snd] in *.
  - split; [exact Hfit|]. split.
    { unfold metadata_of. cbn. fold mk. rewrite lookup_insert_eq. reflexivity. }
    split; [|split; [eauto|exact Hquiet]].
    intros k Hk. unfold slot. cbn. apply lookup_insert_ne.
    apply not_eq_sym, slot_is_not_metadataKey, Hk.
  - assert (Hnone : metadata_of w = []).
    { unfold metadata_of in *. fold mk in Hsub |- *.
      destruct (localStorage w !! mk) as [[item|m|text]|] eqn:Hmk; try reflexivity.
      exfalso.
      pose proof (storage_bytes_replace_le (localStorage w) mk (DMeta m) (DMeta m') Hmk
                    (text_of_meta_sublist_le _ _ Hsub)) as Hle.
      unfold within_quota in Hq. lia. }
    rewrite Hnone in Hsub. apply sublist_nil_r in Hsub. subst m'.
    split; [exact Hq|]. split; [exact Hnone|]. split; [reflexivity|].
    split; [eauto|exact Hquiet].
Qed.

(** *** cleanup and clear *)

Lemma dict_record_unique {A} k (v v' : A) (d : list (string * A)) :
  NoDup (dict_keys d) -> (k, v) ∈ d -> (k, v') ∈ d -> v = v'.
Proof.
  induction d as [|[k0 v0] d IH]; intros Hnd Hin Hin'; [inversion Hin|].
  cbn in Hnd. apply NoDup_cons in Hnd as [Hnot Hnd].
  apply elem_of_cons in Hin as [Heq|Hin]; apply elem_of_cons in Hin' as [Heq'|Hin'].
  - congruence.
  - exfalso. apply Hnot. injection Heq as <- <-.
    apply list_elem_of_fmap. exists (k, v'). auto.
  - exfalso. apply Hnot. injection Heq' as <- <-.
    apply list_elem_of_fmap. exists (k, v). auto.
  - auto.
Qed.

(** [cleanup], within the quota. *)
Lemma PersistentCache_cleanup_within_quota w :
  let now := clock w (ticks w) in
  let m := metadata_of w in
  let w' := snd (PersistentCache.cleanup w) in
  within_quota w ->
  NoDup (dict_keys m) ->
  CACHE_CONFIG.METADATA_KEY ∉ dict_keys m ->
  within_quota w'
  /\ metadata_of w' = filter (fun entry => ~ expired now entry) m
  /\ (forall entry, entry ∈ m -> expired now entry -> slot w' (fst entry) = None)
  /\ (forall k, k ∉ dict_keys (filter (expired now) m) ->
        k <> CACHE_CONFIG.METADATA_KEY -> slot w' k = slot w k)
  /\ (exists ok, writes w' = (PersistentCache.metadataKey w, ok) :: writes w).
Proof.
  intros now m w' Hq Hnd Hres. subst w'. rewrite PersistentCache_cleanup_eq. cbn [snd].
  fold now m.
  set (dead := filter (expired now) m).
  set (live := filter (fun entry => ~ expired now entry) m).
  set (w1 := with_localStorage (remove_slots (dict_keys dead) w) (with_ticks (S (ticks w)) w)).
  assert (Hlive : object_spread [] live = live).
  { apply (object_spread_fresh live []). cbn [app].
    eapply sublist_NoDup; [exact Hnd|].
    apply (fmap_sublist (@fst string Meta)), sublist_filter. }
  rewrite Hlive.
  assert (Hdead : forall k, k ∈ dict_keys dead -> k ∈ dict_keys m).
  { intros k Hk. apply list_elem_of_fmap in Hk as (e & -> & He).
    apply list_elem_of_filter in He as [_ He]. apply list_elem_of_fmap. eauto. }
  assert (Hmk : localStorage w1 !! PersistentCache.metadataKey w =
                localStorage w !! PersistentCache.metadataKey w).
  { subst w1. cbn. unfold remove_slots. apply foldl_delete_other.
    intros k Hk Heq. apply Hres. unfold PersistentCache.metadataKey in Heq.
    apply string_app_inj in Heq. subst k. apply Hdead, Hk. }
  assert (Hm1 : metadata_of w1 = m).
  { unfold metadata_of. change (PersistentCache.metadataKey w1)
      with (PersistentCache.metadataKey w). rewrite Hmk. reflexivity. }
  assert (Hq1 : within_quota w1).
  { unfold within_quota in *. subst w1. cbn. unfold remove_slots.
    etransitivity; [apply foldl_delete_bytes|exact Hq]. }
  destruct (setMetadata_shrunk live w1 Hq1) as (Hq2 & Hm2 & Hslots & Hw & _).
  { rewrite Hm1. apply sublist_filter. }
  change (PersistentCache.metadataKey w1) with (PersistentCache.metadataKey w) in *.
  split; [exact Hq2|]. split; [exact Hm2|]. split; [|split; [|exact Hw]].
  - intros [k meta] Hin Hexp. cbn [fst].
    assert (Hk : k ∈ dict_keys dead).
    { apply list_elem_of_fmap. exists (k, meta). split; [reflexivity|].
      apply list_elem_of_filter. auto. }
    assert (Hkr : k <> CACHE_CONFIG.METADATA_KEY).
    { intros ->. apply Hres, Hdead, Hk. }
    rewrite (Hslots k Hkr). unfold slot. subst w1. cbn. unfold remove_slots.
    apply foldl_delete_gone, Hk.
  - intros k Hk Hkr. rewrite (Hslots k Hkr). unfold slot. subst w1. cbn.
    unfold remove_slots. apply foldl_delete_other.
    intros k' Hk' Heq. apply string_app_inj in Heq. subst k'. contradiction.
Qed.

(** [cleanup] keeps the durable tier in order. *)
Lemma PersistentCache_cleanup_keeps_order w :
  durable_tier_ok w -> durable_tier_ok (snd (PersistentCache.cleanup w)).
Proof.
  intros ([Hnd Hiff] & Hq & Hres).
  destruct (PersistentCache_cleanup_within_quota w Hq Hnd Hres)
    as (Hq' & Hm' & Hgone & Hkept & _).
  set (now := clock w (ticks w)) in *. set (m := metadata_of w) in *.
  set (w' := snd (PersistentCache.cleanup w)) in *.
  split; [split|split; [exact Hq'|]].
  - rewrite Hm'. eapply sublist_NoDup; [exact Hnd|].
    apply (fmap_sublist (@fst string Meta)), sublist_filter.
  - intros key Hkey. rewrite Hm'.
    destruct (decide (key ∈ dict_keys (filter (expired now) m))) as [Hdead|Hlive].
    + apply list_elem_of_fmap in Hdead as ([k meta] & -> & He).
      apply list_elem_of_filter in He as [Hexp Hin]. cbn [fst] in *.
      pose proof (Hgone (k, meta) Hin Hexp) as Hg. cbn [fst] in Hg. rewrite Hg.
      split; [intros [d Hd]; discriminate|].
      intros Hin'. apply list_elem_of_fmap in Hin' as ([k' meta'] & Hk' & He').
      cbn in Hk'. subst k'. apply list_elem_of_filter in He' as [Hne Hin'].
      exfalso. apply Hne.
      rewrite (dict_record_unique k meta' meta m Hnd Hin' Hin). exact Hexp.
    + rewrite (Hkept key Hlive Hkey), (Hiff key Hkey). fold m. split.
      * intros Hin. apply list_elem_of_fmap in Hin as ([k meta] & -> & Hin).
        apply list_elem_of_fmap. exists (k, meta). split; [reflexivity|].
        apply list_elem_of_filter. split; [|exact Hin].
        intros Hexp. apply Hlive. apply list_elem_of_fmap. exists (k, meta).
        split; [reflexivity|]. apply list_elem_of_filter. auto.
      * intros Hin. apply list_elem_of_fmap in Hin as ([k meta] & -> & Hin).
        apply list_elem_of_filter in Hin as [_ Hin].
        apply list_elem_of_fmap. exists (k, meta). auto.
  - rewrite Hm'. intros Hin. apply Hres.
    apply list_elem_of_fmap in Hin as (e & He & Hin).
    apply list_elem_of_filter in Hin as [_ Hin]. apply list_elem_of_fmap. eauto.
Qed.



(** The medium after [clear]. *)
Lemma PersistentCache_clear_slots w :
  let w' := snd (PersistentCache.clear w) in
  metadata_of w' = []
  /\ (forall k, k ∈ dict_keys (metadata_of w) -> slot w' k = None)
  /\ (forall k, k ∉ dict_keys (metadata_of w) -> k <> CACHE_CONFIG.METADATA_KEY ->
        slot w' k = slot w k)
  /\ (storage_bytes (localStorage w') <= storage_bytes (localStorage w))%nat.
Proof.
  intros w'. subst w'. rewrite PersistentCache_clear_eq. cbn [fst snd].
  set (w' := with_localStorage _ w).
  split; [|split; [|split]].
  - unfold metadata_of. subst w'. cbn.
    change (PersistentCache.metadataKey _) with (PersistentCache.metadataKey w).
    rewrite lookup_delete_eq. reflexivity.
  - intros k Hk. unfold slot. subst w'. cbn. rewrite lookup_delete.
    case_decide; [reflexivity|]. unfold remove_slots. apply foldl_delete_gone, Hk.
  - intros k Hk Hkr. unfold slot. subst w'. cbn.
    rewrite lookup_delete_ne by (apply not_eq_sym, slot_is_not_metadataKey, Hkr).
    unfold remove_slots. apply foldl_delete_other.
    intros k' Hk' Heq. apply string_app_inj in Heq. subst k'. contradiction.
  - subst w'. cbn. etransitivity; [apply storage_bytes_delete_le|].
    unfold remove_slots. apply foldl_delete_bytes.
Qed.

(** After [clear] on a consistent index, the medium holds no entry. *)
Lemma PersistentCache_clear_empties w :
  index_consistent w ->
  forall k, k <> CACHE_CONFIG.METADATA_KEY -> slot (snd (PersistentCache.clear w)) k = None.
Proof.
  intros [Hnd Hiff] k Hkr.
  destruct (PersistentCache_clear_slots w) as (_ & Hgone & Hkept & _).
  destruct (decide (k ∈ dict_keys (metadata_of w))) as [Hk|Hk].
  - apply Hgone, Hk.
  - rewrite (Hkept k Hk Hkr).
    destruct (slot w k) as [d|] eqn:Hs; [|reflexivity].
    exfalso. apply Hk, (Hiff k Hkr). eauto.
Qed.

(** [clear] keeps the durable tier in order. *)
Lemma PersistentCache_clear_keeps_order w :
  durable_tier_ok w -> durable_tier_ok (snd (PersistentCache.clear w)).
Proof.
  intros (Hcons & Hq & Hres).
  destruct (PersistentCache_clear_slots w) as (Hm & _ & _ & Hbytes).
  pose proof (PersistentCache_clear_empties w Hcons) as Hnone.
  split; [split|split].
  - rewrite Hm. constructor.
  - intros k Hkr. rewrite Hm, (Hnone k Hkr). split.
    + intros [d Hd]. discriminate.
    + intros Hin. inversion Hin.
  - unfold within_quota in *. rewrite PersistentCache_clear_eq in *. cbn in *. lia.
  - rewrite Hm. apply not_elem_of_nil.
Qed.



(** *** Sequences of operations on the durable tier *)

Lemma setItem_writes k d w :
  exists ok, writes (snd (localStorage_setItem k d w)) = (k, ok) :: writes w.
Proof.
  unfold localStorage_setItem. destruct (storage_bytes _ <=? quota w)%nat; cbn; eauto.
Qed.

Lemma PersistentCache_delete_writes key w :
  exists ok, writes (snd (PersistentCache.delete key w)) =
             (PersistentCache.metadataKey w, ok) :: writes w.
Proof.
  rewrite PersistentCache_delete_eq. cbn [snd].
  destruct (setItem_writes (PersistentCache.metadataKey w)
              (DMeta (dict_delete key (metadata_of
                 (with_localStorage (base.delete (storagePrefix w +:+ key) (localStorage w)) w))))
              (with_localStorage (base.delete (storagePrefix w +:+ key) (localStorage w)) w))
    as [ok Hok].
  exists ok. exact Hok.
Qed.

Lemma evict_entries_writes :
  forall (entries : list (string * Meta)) (w : World),
    exists new,
      writes (snd (for_of entries
                     (fun entry => PersistentCache.delete (fst entry) ;;; ret tt) w)) =
        new ++ writes w.
Proof.
  induction entries as [|[key meta] rest IH]; intros w.
  - exists []. reflexivity.
  - pose proof (PersistentCache_delete_eq key w) as Heq. cbn zeta in Heq.
    destruct (PersistentCache_delete_writes key w) as [ok Hok].
    rewrite Heq in Hok. cbn [snd] in Hok.
    set (w1 := snd (localStorage_setItem _ _ _)) in *.
    assert (Hrun : for_of ((key, meta) :: rest)
                     (fun entry => PersistentCache.delete (fst entry) ;;; ret tt) w =
                   for_of rest
                     (fun entry => PersistentCache.delete (fst entry) ;;; ret tt) w1).
    { cbn [for_of fst]. unfold bind at 1. unfold bind at 1. rewrite Heq. reflexivity. }
    rewrite Hrun. destruct (IH w1) as [new Hnew].
    exists (new ++ [(PersistentCache.metadataKey w, ok)]).
    rewrite Hnew, Hok, <- app_assoc. reflexivity.
Qed.

Lemma cleanupIfNeeded_writes w :
  exists new, writes (snd (PersistentCache._cleanupIfNeeded w)) = new ++ writes w.
Proof.
  unfold PersistentCache._cleanupIfNeeded, bind. rewrite getMetadata_eq.
  destruct (Z.of_nat (length (metadata_of w)) >? CACHE_CONFIG.MAX_ENTRIES).
  - apply evict_entries_writes.
  - exists []. reflexivity.
Qed.

Section SetOnTheDurableTier.
Variables (w : World) (key : string) (v : value) (ttl : option Z).

Let item : Item :=
  mkItem v (clock w (ticks w) + default (5 * 60 * 1000) ttl) (clock w (S (ticks w))).
Let meta : Meta :=
  mkMeta (expiresAt item) (Z.of_nat (String.length (text_of (DItem item)))).
Let storageKey : string := storagePrefix w +:+ key.
Let storage1 : gmap string doc := <[storageKey := DItem item]> (localStorage w).
Let storage2 : gmap string doc :=
  <[PersistentCache.metadataKey w := DMeta (set_property key meta (metadata_of w))]> storage1.

(** The writes of [set], when its first write takes. *)
Lemma PersistentCache_set_fits_writes :
  key <> CACHE_CONFIG.METADATA_KEY ->
  serializable v = true ->
  (storage_bytes storage1 <= quota w)%nat ->
  exists new,
    writes (snd (PersistentCache.set key v ttl w)) =
      new ++ (PersistentCache.metadataKey w, (storage_bytes storage2 <=? quota w)%nat)
          :: (storageKey, true) :: writes w.
Proof.
  intros Hkey Hser Hfit1.
  rewrite (PersistentCache_set_fits w key v ttl Hser Hfit1). cbn [snd].
  fold item storageKey storage1.
  set (w1 := with_writes _ (with_localStorage storage1 _)).
  assert (Hm1 : metadata_of w1 = metadata_of w).
  { unfold metadata_of. subst w1 storage1. world_simpl.
    change (PersistentCache.metadataKey _) with (PersistentCache.metadataKey w).
    rewrite lookup_insert_ne by (apply slot_is_not_metadataKey, Hkey). reflexivity. }
  rewrite Hm1. fold meta.
  set (w2 := snd (localStorage_setItem _ _ w1)).
  destruct (cleanupIfNeeded_writes w2) as [new Hnew]. exists new. rewrite Hnew.
  f_equal. subst w2. unfold localStorage_setItem.
  change (localStorage w1) with storage1. change (quota w1) with (quota w).
  fold storage2. destruct (storage_bytes storage2 <=? quota w)%nat; reflexivity.
Qed.

(** The writes of [set], when its first write exceeds the quota. *)
Lemma PersistentCache_set_over_quota_writes :
  serializable v = true ->
  (quota w < storage_bytes storage1)%nat ->
  exists new,
    writes (snd (PersistentCache.set key v ttl w)) =
      new ++ (storageKey, false) :: writes w.
Proof.
  intros Hser Hover.
  rewrite (PersistentCache_set_over_quota w key v ttl Hser Hover). cbn [snd].
  fold item storageKey.
  set (w1 := with_writes _ _).
  destruct (PersistentCache_cleanup_spec w1) as (_ & _ & _ & [ok Hok] & _).
  destruct (setItem_writes storageKey (DItem item) (snd (PersistentCache.cleanup w1)))
    as [ok' Hok'].
  exists [(storageKey, ok'); (PersistentCache.metadataKey w1, ok)].
  rewrite Hok', Hok. reflexivity.
Qed.

(** Every write of [set] is recorded after the writes made before. *)
Lemma PersistentCache_set_writes :
  key <> CACHE_CONFIG.METADATA_KEY ->
  exists new, writes (snd (PersistentCache.set key v ttl w)) = new ++ writes w.
Proof.
  intros Hkey. destruct (serializable v) eqn:Hser.
  - destruct (Nat.leb_spec (storage_bytes storage1) (quota w)) as [Hfit|Hover].
    + destruct (PersistentCache_set_fits_writes Hkey Hser Hfit) as [new Hnew].
      exists (new ++ [(PersistentCache.metadataKey w,
                       (storage_bytes storage2 <=? quota w)%nat); (storageKey, true)]).
      rewrite Hnew, <- app_assoc. reflexivity.
    + destruct (PersistentCache_set_over_quota_writes Hser Hover) as [new Hnew].
      exists (new ++ [(storageKey, false)]). rewrite Hnew, <- app_assoc. reflexivity.
  - rewrite (PersistentCache_set_unserializable w key v ttl Hser). exists []. reflexivity.
Qed.

(** A [set] none of whose writes fails keeps the durable tier in
    order. *)
Lemma PersistentCache_set_keeps_order new :
  key <> CACHE_CONFIG.METADATA_KEY ->
  key <> "__proto__" ->
  durable_tier_ok w ->
  writes (snd (PersistentCache.set key v ttl w)) = new ++ writes w ->
  Forall (fun write => snd write = true) new ->
  durable_tier_ok (snd (PersistentCache.set key v ttl w)).
Proof.
  intros Hkey Hproto (Hcons & Hq & Hres) Hnew Hok.
  pose proof (set_property_plain key meta (metadata_of w) Hproto) as Hset.
  destruct (serializable v) eqn:Hser.
  2:{ rewrite (PersistentCache_set_unserializable w key v ttl Hser).
      split; [exact Hcons|split; [exact Hq|exact Hres]]. }
  destruct (Nat.leb_spec (storage_bytes storage1) (quota w)) as [Hfit1|Hover].
  2:{ exfalso. destruct (PersistentCache_set_over_quota_writes Hser Hover) as [new' Hnew'].
      rewrite Hnew' in Hnew.
      change (new' ++ (storageKey, false) :: writes w)
        with (new' ++ [(storageKey, false)] ++ writes w) in Hnew.
      rewrite app_assoc in Hnew. apply app_inv_tail in Hnew. subst new.
      apply Forall_app in Hok as [_ Hok]. apply Forall_cons in Hok as [Hf _].
      discriminate. }
  destruct (PersistentCache_set_fits_writes Hkey Hser Hfit1) as [new' Hnew'].
  destruct (Nat.leb_spec (storage_bytes storage2) (quota w)) as [Hfit2|Hover].
  2:{ exfalso. rewrite Hnew' in Hnew.
      change (new' ++ (PersistentCache.metadataKey w, false) :: (storageKey, true)
                   :: writes w)
        with (new' ++ [(PersistentCache.metadataKey w, false); (storageKey, true)]
                   ++ writes w) in Hnew.
      rewrite app_assoc in Hnew. apply app_inv_tail in Hnew. subst new.
      apply Forall_app in Hok as [_ Hok]. apply Forall_cons in Hok as [Hf _].
      discriminate. }
  clear Hnew Hok Hnew'.
  rewrite (PersistentCache_set_fits w key v ttl Hser Hfit1). cbn [snd].
  fold item storageKey storage1.
  set (w1 := with_writes _ (with_localStorage storage1 _)).
  assert (Hne : storageKey <> PersistentCache.metadataKey w)
    by (apply slot_is_not_metadataKey, Hkey).
  assert (Hm1 : metadata_of w1 = metadata_of w).
  { unfold metadata_of. subst w1 storage1. world_simpl.
    change (PersistentCache.metadataKey _) with (PersistentCache.metadataKey w).
    rewrite lookup_insert_ne by exact Hne. reflexivity. }
  rewrite Hm1. fold meta.
  set (w2 := snd (localStorage_setItem _ _ w1)).
  assert (Hw2 : w2 = with_writes ((PersistentCache.metadataKey w, true) :: writes w1)
                       (with_localStorage storage2 w1)).
  { subst w2. unfold localStorage_setItem.
    change (localStorage w1) with storage1. change (quota w1) with (quota w).
    fold storage2. apply Nat.leb_le in Hfit2. rewrite Hfit2. reflexivity. }
  assert (Hc : index_consistent (snd (PersistentCache.set key v ttl w))).
  { apply index_consistent_set; try assumption.
    fold item meta storageKey storage1. rewrite <- Hset. exact Hfit2. }
  rewrite (PersistentCache_set_fits w key v ttl Hser Hfit1) in Hc. cbn [snd] in Hc.
  fold item storageKey storage1 w1 in Hc. rewrite Hm1 in Hc. fold meta w2 in Hc.
  assert (Hok2 : within_quota w2 /\ CACHE_CONFIG.METADATA_KEY ∉ dict_keys (metadata_of w2)).
  { rewrite Hw2. split; [exact Hfit2|].
    unfold metadata_of. world_simpl.
    change (PersistentCache.metadataKey _) with (PersistentCache.metadataKey w).
    subst storage2. rewrite lookup_insert_eq, Hset.
    destruct (decide (key ∈ dict_keys (metadata_of w))) as [Hin|Hnin].
    - rewrite dict_set_keys_present by exact Hin. exact Hres.
    - rewrite dict_set_absent by exact Hnin. unfold dict_keys. rewrite map_app.
      intros Hin. apply elem_of_app in Hin as [Hin|Hin]; [contradiction|].
      cbn in Hin. apply list_elem_of_singleton in Hin. congruence. }
  destruct Hok2 as [Hq2 Hres2].
  (* the index of [w2] is consistent: [_cleanupIfNeeded] on it is the identity or an
     eviction *)
  unfold PersistentCache._cleanupIfNeeded in Hc |- *.
  unfold bind at 1 in Hc. unfold bind at 1.
  rewrite getMetadata_eq in Hc |- *.
  destruct (Z.of_nat (length (metadata_of w2)) >? CACHE_CONFIG.MAX_ENTRIES) eqn:Hfull.
  - set (entries := take PersistentCache.eviction_batch
                      (PersistentCache.sort_by_expiresAt (metadata_of w2))) in *.
    assert (Hent : CACHE_CONFIG.METADATA_KEY ∉ dict_keys entries).
    { intros Hin. apply Hres2. apply list_elem_of_fmap in Hin as (e & He & Hin).
      apply list_elem_of_fmap. exists e. split; [exact He|].
      rewrite <- (sort_by_expiresAt_Permutation (metadata_of w2)).
      rewrite <- (take_drop PersistentCache.eviction_batch
                    (PersistentCache.sort_by_expiresAt (metadata_of w2))).
      apply elem_of_app. left. exact Hin. }
    destruct (evict_entries_spec entries w2 Hq2 Hent) as (Hq' & Hm' & _).
    split; [exact Hc|]. split; [exact Hq'|].
    rewrite Hm'. intros Hin. apply Hres2.
    apply list_elem_of_fmap in Hin as (e & He & Hin).
    apply list_elem_of_filter in Hin as [_ Hin]. apply list_elem_of_fmap. eauto.
  - split; [exact Hc|]. split; assumption.
Qed.

End SetOnTheDurableTier.

(** An operation of the durable tier returns normally, and what it
    writes is recorded after the writes made before. *)
Lemma run_op_writes op w :
  names_no_index op ->
  fst (run_op op w) = Normal tt
  /\ exists new, writes (snd (run_op op w)) = new ++ writes w.
Proof.
  intros Hop. destruct op as [key v ttl|key| |]; cbn [run_op names_no_index] in *.
  - split; [apply PersistentCache_set_normal|apply PersistentCache_set_writes, Hop].
  - unfold bind. pose proof (PersistentCache_delete_eq key w) as Heq. cbn zeta in Heq.
    destruct (PersistentCache_delete_writes key w) as [ok Hok].
    rewrite Heq in Hok |- *. cbn [fst snd] in *. split; [reflexivity|].
    exists [(PersistentCache.metadataKey w, ok)]. exact Hok.
  - rewrite PersistentCache_clear_eq. split; [reflexivity|]. exists []. reflexivity.
  - destruct (PersistentCache_cleanup_spec w) as (Hn & _ & _ & [ok Hok] & _).
    split; [exact Hn|]. exists [(PersistentCache.metadataKey w, ok)]. exact Hok.
Qed.

(** An operation none of whose writes fails keeps the durable tier in
    order. *)
Lemma run_op_keeps_order op w new :
  names_no_index op ->
  sets_own_property op ->
  durable_tier_ok w ->
  writes (snd (run_op op w)) = new ++ writes w ->
  Forall (fun write => snd write = true) new ->
  durable_tier_ok (snd (run_op op w)).
Proof.
  intros Hop Hown Hok Hnew Hall.
  destruct op as [key v ttl|key| |]; cbn [run_op names_no_index sets_own_property] in *.
  - exact (PersistentCache_set_keeps_order w key v ttl new Hop Hown Hok Hnew Hall).
  - destruct Hok as (Hcons & Hq & Hres).
    assert (Hrun : snd ((PersistentCache.delete key ;;; ret tt) w) =
                   snd (PersistentCache.delete key w)).
    { unfold bind. pose proof (PersistentCache_delete_eq key w) as Heq. cbn zeta in Heq.
      rewrite Heq. reflexivity. }
    rewrite Hrun.
    destruct (PersistentCache_delete_spec key w Hq Hop) as (Hq' & Hm' & _).
    split; [apply index_consistent_delete; assumption|]. split; [exact Hq'|].
    rewrite Hm', dict_keys_delete. intros Hin.
    apply list_elem_of_filter in Hin as [_ Hin]. contradiction.
  - apply PersistentCache_clear_keeps_order, Hok.
  - apply PersistentCache_cleanup_keeps_order, Hok.
Qed.

Lemma run_ops_keep_order :
  forall (ops : list store_op) (w : World),
    Forall names_no_index ops ->
    Forall sets_own_property ops ->
    let r := for_of ops run_op w in
    fst r = Normal tt
    /\ exists new,
         writes (snd r) = new ++ writes w
         /\ (durable_tier_ok w -> Forall (fun write => snd write = true) new ->
             durable_tier_ok (snd r)).
Proof.
  induction ops as [|op ops IH]; intros w Hops Howns r; subst r.
  - cbn. split; [reflexivity|]. exists []. split; [reflexivity|]. auto.
  - apply Forall_cons in Hops as [Hop Hops]. apply Forall_cons in Howns as [Hown Howns].
    destruct (run_op_writes op w Hop) as [Hn [new1 Hnew1]].
    cbn [for_of]. unfold bind.
    destruct (run_op op w) as [c w1] eqn:Hrun. cbn [fst snd] in Hn, Hnew1. subst c.
    destruct (IH w1 Hops Howns) as [Hn' (new2 & Hnew2 & Hkeep)].
    split; [exact Hn'|]. exists (new2 ++ new1). split.
    + rewrite Hnew2, Hnew1, app_assoc. reflexivity.
    + intros Hok Hall. apply Forall_app in Hall as [Hall2 Hall1].
      apply Hkeep; [|exact Hall2].
      pose proof (run_op_keeps_order op w new1 Hop Hown Hok) as H.
      rewrite Hrun in H. cbn [snd] in H. apply H; assumption.
Qed.

(** X20. The index of the durable tier stays consistent with the medium over
    every sequence of [set], [delete], [clear] and [cleanup] in which no
    write to the medium fails and no [set] is on the key ["__proto__"]
    (which the index object does not record): started on an empty medium,
    after such a sequence of calls on cache keys every entry in the medium
    has its one record in the index, and every record its entry. *)
Theorem durable_index_consistent_when_no_write_fails :
  forall (ops : list store_op) (clock : nat -> Z) (quota : nat),
    Forall names_no_index ops ->
    Forall sets_own_property ops ->
    let r := for_of ops run_op (new_HybridCache clock ∅ quota) in
    Forall (fun write => snd write = true) (writes (snd r)) ->
    fst r = Normal tt
    /\ index_consistent (snd r)
    /\ within_quota (snd r).
Proof.
  intros ops clock quota Hops Howns r Hall.
  destruct (run_ops_keep_order ops (new_HybridCache clock ∅ quota) Hops Howns)
    as [Hn (new & Hnew & Hkeep)].
  fold r in Hn, Hnew, Hkeep. cbn [writes new_HybridCache] in Hnew.
  rewrite app_nil_r in Hnew. rewrite Hnew in Hall.
  split; [exact Hn|].
  assert (Hstart : durable_tier_ok (new_HybridCache clock ∅ quota)).
  { split; [split|split].
    - constructor.
    - intros key _. unfold slot, metadata_of. cbn. rewrite !lookup_empty. split.
      + intros [d Hd]. discriminate.
      + intros Hin. inversion Hin.
    - unfold within_quota. cbn. unfold storage_bytes. rewrite map_fold_empty. lia.
    - unfold metadata_of. cbn. rewrite lookup_empty. apply not_elem_of_nil. }
  destruct (Hkeep Hstart Hall) as (Hcons & Hq & _). auto.
Qed.

Lemma durable_index_consistent_when_no_write_fails_witness :
  let ops := [OpSet "a" (VNum 1) (Some 10); OpSet "b" (VStr "x") None; OpDelete "a";
              OpCleanup; OpSet "c" VNull None] in
  let r := for_of ops run_op (new_HybridCache (fun n => Z.of_nat n) ∅ 1000) in
  index_consistent (snd r) /\ dict_keys (metadata_of (snd r)) = ["b"; "c"].
Proof.
  intros ops r. split; [|vm_compute; reflexivity].
  refine (proj1 (proj2 (durable_index_consistent_when_no_write_fails ops
                          (fun n => Z.of_nat n) 1000 _ _ _))).
  - repeat constructor; discriminate.
  - repeat constructor; discriminate.
  - vm_compute. repeat constructor.
Defined.

(** The condition on ["__proto__"] is needed: a [set] on this key stores
    its entry, no write failing, and the index records nothing. *)
Lemma set_on_proto_key_is_not_indexed :
  let r := for_of [OpSet "__proto__" (VNum 1) None] run_op
             (new_HybridCache (fun n => Z.of_nat n) ∅ 1000) in
  writes (snd r) =
    [("music_platform_cache_cache_metadata", true); ("music_platform_cache___proto__", true)]
  /\ slot (snd r) "__proto__" = Some (DItem (mkItem (VNum 1) 300000 1))
  /\ metadata_of (snd r) = []
  /\ ~ index_consistent (snd r).
Proof.
  intros r.
  assert (Hslot : slot (snd r) "__proto__" = Some (DItem (mkItem (VNum 1) 300000 1)))
    by (vm_compute; reflexivity).
  assert (Hmeta : metadata_of (snd r) = []) by (vm_compute; reflexivity).
  split; [vm_compute; reflexivity|]. split; [exact Hslot|]. split; [exact Hmeta|].
  intros [_ Hiff].
  destruct (Hiff "__proto__" ltac:(discriminate)) as [Hin _].
  rewrite Hmeta in Hin. apply (elem_of_nil "__proto__"). apply Hin.
  rewrite Hslot. eauto.
Qed.

(** *** Reading the durable tier *)

(** The slot of a cache key after [delete] of the key. *)
Lemma PersistentCache_delete_removes_slot key w :
  key <> CACHE_CONFIG.METADATA_KEY ->
  slot (snd (PersistentCache.delete key w)) key = None.
Proof.
  intros Hkey. rewrite PersistentCache_delete_eq. cbn [snd].
  unfold slot, localStorage_setItem.
  destruct (storage_bytes _ <=? _)%nat; cbn.
  - rewrite lookup_insert_ne by (apply not_eq_sym, slot_is_not_metadataKey, Hkey).
    apply lookup_delete_eq.
  - apply lookup_delete_eq.
Qed.

(** X21. Round trip through the durable tier: when the write of the entry
    fits in the medium and the index has room for one more record, [set]
    stores the entry under the key, and [get] returns the value as long
    as the entry has not expired, and [null] afterwards. *)
Theorem PersistentCache_set_then_get :
  forall (w : World) (key : string) (v : value) (ttl : option Z),
    let item := mkItem v (clock w (ticks w) + default (5 * 60 * 1000) ttl)
                  (clock w (S (ticks w))) in
    let w1 := snd (PersistentCache.set key v ttl w) in
    let r := PersistentCache.get key w1 in
    key <> CACHE_CONFIG.METADATA_KEY ->
    serializable v = true ->
    (storage_bytes (<[storagePrefix w +:+ key := DItem item]> (localStorage w)) <= quota w)%nat ->
    Z.of_nat (length (metadata_of w)) < CACHE_CONFIG.MAX_ENTRIES ->
    slot w1 key = Some (DItem item)
    /\ ticks w1 = S (S (ticks w))
    /\ (clock w (S (S (ticks w))) <= expiresAt item -> fst r = Normal v)
    /\ (clock w (S (S (ticks w))) > expiresAt item ->
        fst r = Normal VNull /\ slot (snd r) key = None).
Proof.
  intros w key v ttl item w1 r Hkey Hser Hfit Hroom.
  assert (Hw1 : slot w1 key = Some (DItem item) /\ ticks w1 = S (S (ticks w))
                /\ clock w1 = clock w).
  { subst w1. rewrite (PersistentCache_set_fits w key v ttl Hser Hfit). cbn [snd].
    fold item.
    set (wa := with_writes _ (with_localStorage _ _)).
    assert (Hma : metadata_of wa = metadata_of w).
    { unfold metadata_of. subst wa. world_simpl.
      change (PersistentCache.metadataKey _) with (PersistentCache.metadataKey w).
      rewrite lookup_insert_ne by (apply slot_is_not_metadataKey, Hkey). reflexivity. }
    set (wb := snd (localStorage_setItem _ _ wa)).
    assert (Hslot : slot wb key = Some (DItem item)).
    { subst wb. unfold slot, localStorage_setItem.
      destruct (storage_bytes _ <=? _)%nat; cbn.
      - rewrite lookup_insert_ne by (apply not_eq_sym, slot_is_not_metadataKey, Hkey).
        apply lookup_insert_eq.
      - apply lookup_insert_eq. }
    assert (Hlen : Z.of_nat (length (metadata_of wb)) <= CACHE_CONFIG.MAX_ENTRIES).
    { assert (Hcase : metadata_of wb = metadata_of wa
                      \/ metadata_of wb =
                         set_property key
                           (mkMeta (expiresAt item)
                              (Z.of_nat (String.length (text_of (DItem item)))))
                           (metadata_of wa)).
      { subst wb. unfold localStorage_setItem.
        destruct (storage_bytes _ <=? _)%nat; cbn [snd]; [right|left; reflexivity].
        unfold metadata_of at 1. cbn.
        change (PersistentCache.metadataKey _) with (PersistentCache.metadataKey w).
        rewrite lookup_insert_eq. reflexivity. }
      destruct Hcase as [->| ->]; rewrite Hma; [lia|].
      destruct (set_property_cases key
                  (mkMeta (expiresAt item) (Z.of_nat (String.length (text_of (DItem item)))))
                  (metadata_of w)) as [->| ->]; [|lia].
      pose proof (dict_set_length key
                    (mkMeta (expiresAt item) (Z.of_nat (String.length (text_of (DItem item)))))
                    (metadata_of w)). lia. }
    assert (Hid : PersistentCache._cleanupIfNeeded wb = (Normal tt, wb)).
    { unfold PersistentCache._cleanupIfNeeded, bind. rewrite getMetadata_eq.
      destruct (Z.gtb_spec (Z.of_nat (length (metadata_of wb))) CACHE_CONFIG.MAX_ENTRIES);
        [lia|reflexivity]. }
    rewrite Hid. cbn [snd]. split; [exact Hslot|].
    subst wb. rewrite setItem_ticks. split; [reflexivity|].
    apply (setItem_step _ _ wa). }
  destruct Hw1 as (Hslot & Hticks & Hclock).
  split; [exact Hslot|]. split; [exact Hticks|].
  subst r. rewrite PersistentCache_get_eq, Hslot, Hclock, Hticks.
  destruct (Z.gtb_spec (clock w (S (S (ticks w)))) (expiresAt item)); split; intros H';
    try lia; cbn [fst snd]; [|reflexivity].
  split; [reflexivity|]. apply PersistentCache_delete_removes_slot, Hkey.
Qed.

Lemma PersistentCache_set_then_get_witness :
  let w := new_HybridCache (fun n => 1000 * Z.of_nat n) ∅ 1000 in
  fst (PersistentCache.get "track:1"
         (snd (PersistentCache.set "track:1" (VStr "song") (Some 5000) w)))
    = Normal (VStr "song").
Proof.
  intros w.
  refine (proj1 (proj2 (proj2 (PersistentCache_set_then_get w "track:1" (VStr "song")
                                 (Some 5000) _ _ _ _))) _).
  - discriminate.
  - reflexivity.
  - vm_compute. lia.
  - vm_compute. reflexivity.
  - vm_compute. discriminate.
Defined.

(** X22. Expiry is lazy in the durable tier: a [get] that finds an expired
    entry returns [null] and deletes the key, from the medium and from
    the index, touching no other entry; a [get] that finds no entry, or a
    text that does not parse, returns [null] and changes nothing. *)
Theorem PersistentCache_get_deletes_expired_entry :
  forall (w : World) (key : string),
    let r := PersistentCache.get key w in
    (forall item,
       slot w key = Some (DItem item) ->
       clock w (ticks w) > expiresAt item ->
       key <> CACHE_CONFIG.METADATA_KEY ->
       within_quota w ->
       fst r = Normal VNull
       /\ slot (snd r) key = None
       /\ metadata_of (snd r) = dict_delete key (metadata_of w)
       /\ (forall k, k <> key -> k <> CACHE_CONFIG.METADATA_KEY ->
             slot (snd r) k = slot w k))
    /\ (slot w key = None \/ (exists text, slot w key = Some (DRaw text)) ->
        r = (Normal VNull, w)).
Proof.
  intros w key r. subst r. rewrite PersistentCache_get_eq. split.
  - intros item Hslot Hexp Hkey Hq. rewrite Hslot.
    destruct (Z.gtb_spec (clock w (ticks w)) (expiresAt item)); [|lia].
    cbn [fst snd].
    destruct (PersistentCache_delete_spec key (with_ticks (S (ticks w)) w) Hq Hkey)
      as (_ & Hm & Hs & Ho).
    split; [reflexivity|]. split; [exact Hs|]. split; [exact Hm|exact Ho].
  - intros [Hnone|[text Htext]]; [rewrite Hnone|rewrite Htext]; reflexivity.
Qed.

Lemma PersistentCache_get_deletes_expired_entry_witness :
  let clk := fun n : nat => if (n <? 2)%nat then 0 else 1000 in
  let w := snd (PersistentCache.set "old" (VNum 1) (Some 10) (new_HybridCache clk ∅ 1000)) in
  let r := PersistentCache.get "old" w in
  is_Some (slot w "old") /\ fst r = Normal VNull /\ slot (snd r) "old" = None
  /\ metadata_of (snd r) = [].
Proof.
  intros clk w r. split; [vm_compute; eauto|].
  destruct (PersistentCache_get_deletes_expired_entry w "old") as [Hexp _].
  destruct (Hexp (mkItem (VNum 1) 10 0)) as (H1 & H2 & H3 & _).
  - vm_compute. reflexivity.
  - vm_compute. reflexivity.
  - discriminate.
  - vm_compute. lia.
  - split; [exact H1|]. split; [exact H2|]. unfold r. rewrite H3. vm_compute. reflexivity.
Defined.

(** ** Statistics *)







(** ** The two tiers together *)



(** The slot of another cache key is not touched by [delete]. *)
Lemma PersistentCache_delete_other_slot key k w :
  k <> key -> k <> CACHE_CONFIG.METADATA_KEY ->
  slot (snd (PersistentCache.delete key w)) k = slot w k.
Proof.
  intros Hne Hk. rewrite PersistentCache_delete_eq. cbn [snd].
  assert (Hdel : base.delete (storagePrefix w +:+ key) (localStorage w)
                   !! (storagePrefix w +:+ k) = localStorage w !! (storagePrefix w +:+ k)).
  { apply lookup_delete_ne. intros Heq. apply Hne. symmetry.
    exact (string_app_inj _ _ _ Heq). }
  unfold slot, localStorage_setItem.
  destruct (storage_bytes _ <=? _)%nat; cbn; [|exact Hdel].
  rewrite lookup_insert_ne by (apply not_eq_sym, slot_is_not_metadataKey, Hk). exact Hdel.
Qed.

(** [delete] on the cache removes the key from both tiers and touches
    no other key; it reports [true] whether or not the key was cached. *)
Lemma HybridCache_delete_spec key w :
  key <> CACHE_CONFIG.METADATA_KEY ->
  let r := HybridCache.delete key w in
  fst r = Normal true
  /\ dict_get key (cache (memoryCache (snd r))) = None
  /\ slot (snd r) key = None
  /\ (forall k, k <> key ->
        dict_get k (cache (memoryCache (snd r))) = dict_get k (cache (memoryCache w)))
  /\ (forall k, k <> key -> k <> CACHE_CONFIG.METADATA_KEY -> slot (snd r) k = slot w k)
  /\ stats (snd r) = stats w.
Proof.
  intros Hkey r. subst r. rewrite HybridCache_delete_eq. cbn [fst snd].
  set (w1 := with_cache (dict_delete key (cache (memoryCache w))) w).
  pose proof (PersistentCache_delete_step key w1) as Hstep.
  pose proof (durable_step_cache _ _ Hstep) as Hcache.
  split; [reflexivity|]. split; [rewrite Hcache; apply dict_get_delete_eq|].
  split; [apply PersistentCache_delete_removes_slot, Hkey|]. split; [|split].
  - intros k Hne. rewrite Hcache. apply dict_get_delete_ne, Hne.
  - intros k Hne Hk. rewrite (PersistentCache_delete_other_slot key k w1 Hne Hk).
    reflexivity.
  - destruct Hstep as (_ & _ & _ & _ & _ & Hs). exact Hs.
Qed.

(** X26. After [delete] of a key, [get] of the key is a miss; [delete]
    returns [true] whether or not the key was cached, and leaves the
    entries of the other keys in both tiers. *)
Theorem HybridCache_delete_then_get_misses :
  forall (w : World) (key : string),
    let rd := HybridCache.delete key w in
    let r := HybridCache.get key (snd rd) in
    key <> CACHE_CONFIG.METADATA_KEY ->
    fst rd = Normal true
    /\ fst r = Normal VNull
    /\ stats (snd r) = mkStats (hits (stats w)) (misses (stats w) + 1) (sets (stats w))
    /\ (forall k, k <> key ->
          dict_get k (cache (memoryCache (snd rd))) = dict_get k (cache (memoryCache w)))
    /\ (forall k, k <> key -> k <> CACHE_CONFIG.METADATA_KEY -> slot (snd rd) k = slot w k).
Proof.
  intros w key rd r Hkey.
  destruct (HybridCache_delete_spec key w Hkey) as (Hd & Hmem & Hslot & Hmo & Hso & Hst).
  fold rd in Hd, Hmem, Hslot, Hmo, Hso, Hst.
  assert (Hnull : only_null key (snd rd)).
  { split; intros item; [rewrite Hmem|rewrite Hslot]; discriminate. }
  destruct (HybridCache_get_only_null key (snd rd) Hnull) as (Hr & Hs & _).
  fold r in Hr, Hs. rewrite Hst in Hs. auto.
Qed.

Lemma HybridCache_delete_then_get_misses_witness :
  let w := snd (HybridCache.set "track:1" (VNum 7) None
                  (new_HybridCache (fun n => Z.of_nat n) ∅ 1000)) in
  fst (HybridCache.get "track:1" w) = Normal (VNum 7)
  /\ fst (HybridCache.get "track:1" (snd (HybridCache.delete "track:1" w))) = Normal VNull.
Proof.
  intros w. split; [vm_compute; reflexivity|].
  refine (proj1 (proj2 (HybridCache_delete_then_get_misses w "track:1" _))).
  discriminate.
Defined.

(** X27. After [clear], every key is a miss and the counters start again, if
    the index of the durable tier listed every entry of the medium. *)
Theorem HybridCache_clear_then_get_misses :
  forall (w : World) (key : string),
    let rc := HybridCache.clear w in
    let r := HybridCache.get key (snd rc) in
    index_consistent w ->
    key <> CACHE_CONFIG.METADATA_KEY ->
    fst rc = Normal tt
    /\ cache (memoryCache (snd rc)) = []
    /\ stats (snd rc) = mkStats 0 0 0
    /\ fst r = Normal VNull
    /\ stats (snd r) = mkStats 0 1 0.
Proof.
  intros w key rc r Hcons Hkey.
  assert (Hrc : rc = (Normal tt,
                      with_stats (mkStats 0 0 0)
                        (snd (PersistentCache.clear (with_cache [] w))))).
  { subst rc. unfold HybridCache.clear, bind, MemoryCache.clear, modify.
    rewrite PersistentCache_clear_eq. reflexivity. }
  assert (Hcons' : index_consistent (with_cache [] w)) by exact Hcons.
  pose proof (PersistentCache_clear_empties (with_cache [] w) Hcons' key Hkey) as Hslot.
  assert (Hcache : cache (memoryCache (snd rc)) = []).
  { rewrite Hrc, PersistentCache_clear_eq. reflexivity. }
  assert (Hnull : only_null key (snd rc)).
  { split; intros item.
    - rewrite Hcache. discriminate.
    - rewrite Hrc. cbn [snd].
      change (slot (with_stats _ ?W) key) with (slot W key). rewrite Hslot. discriminate. }
  destruct (HybridCache_get_only_null key (snd rc) Hnull) as (Hr & Hs & _).
  fold r in Hr, Hs.
  assert (Hst : stats (snd rc) = mkStats 0 0 0) by (rewrite Hrc; reflexivity).
  rewrite Hst in Hs. rewrite Hrc at 1. cbn [fst]. auto.
Qed.

Lemma HybridCache_clear_then_get_misses_witness :
  let w := snd (for_of [OpSet "track:1" (VNum 7) None] run_op
                  (new_HybridCache (fun n => Z.of_nat n) ∅ 1000)) in
  let r := HybridCache.get "track:1" (snd (HybridCache.clear w)) in
  fst (HybridCache.get "track:1" w) = Normal (VNum 7)
  /\ fst r = Normal VNull /\ stats (snd r) = mkStats 0 1 0.
Proof.
  intros w r. split; [vm_compute; reflexivity|].
  destruct (HybridCache_clear_then_get_misses w "track:1") as (_ & _ & _ & H1 & H2).
  - destruct (run_ops_keep_order [OpSet "track:1" (VNum 7) None]
                (new_HybridCache (fun n => Z.of_nat n) ∅ 1000))
      as [_ (new & Hnew & Hkeep)].
    + repeat constructor. discriminate.
    + repeat constructor. discriminate.
    + apply Hkeep.
      * split; [split|split].
        -- constructor.
        -- intros key _. unfold slot, metadata_of. cbn. rewrite !lookup_empty. split.
           ++ intros [d Hd]. discriminate.
           ++ intros Hin. inversion Hin.
        -- unfold within_quota. cbn. unfold storage_bytes. rewrite map_fold_empty. lia.
        -- unfold metadata_of. cbn. rewrite lookup_empty. apply not_elem_of_nil.
      * cbn [writes new_HybridCache] in Hnew. rewrite app_nil_r in Hnew.
        rewrite <- Hnew. vm_compute. repeat constructor.
  - discriminate.
  - split; [exact H1|exact H2].
Defined.

(** ** Key generators and invalidation *)

(** X28. The keys of the four generators that prefix an identifier never
    collide: each generator is injective, the keys of two different
    generators differ whatever the identifiers, and none is the name of
    the index. *)
Theorem cacheKeys_do_not_collide :
  forall (a b : string),
    (cacheKeys.userPlaylists a = cacheKeys.userPlaylists b -> a = b)
    /\ (cacheKeys.trackDetails a = cacheKeys.trackDetails b -> a = b)
    /\ (cacheKeys.userProfile a = cacheKeys.userProfile b -> a = b)
    /\ (cacheKeys.playlistTracks a = cacheKeys.playlistTracks b -> a = b)
    /\ cacheKeys.userPlaylists a <> cacheKeys.trackDetails b
    /\ cacheKeys.userPlaylists a <> cacheKeys.userProfile b
    /\ cacheKeys.userPlaylists a <> cacheKeys.playlistTracks b
    /\ cacheKeys.trackDetails a <> cacheKeys.userProfile b
    /\ cacheKeys.trackDetails a <> cacheKeys.playlistTracks b
    /\ cacheKeys.userProfile a <> cacheKeys.playlistTracks b
    /\ (forall key, key ∈ [cacheKeys.userPlaylists a; cacheKeys.trackDetails a;
                           cacheKeys.userProfile a; cacheKeys.playlistTracks a] ->
          key <> CACHE_CONFIG.METADATA_KEY).
Proof.
  intros a b.
  unfold cacheKeys.userPlaylists, cacheKeys.trackDetails, cacheKeys.userProfile,
    cacheKeys.playlistTracks, CACHE_CONFIG.METADATA_KEY.
  repeat split; try (apply string_app_inj); try discriminate.
  intros key Hin.
  repeat (apply elem_of_cons in Hin as [->|Hin]; [discriminate|]).
  inversion Hin.
Qed.

Lemma cacheKeys_do_not_collide_witness :
  cacheKeys.userPlaylists "42" <> cacheKeys.userProfile "42"
  /\ cacheKeys.userPlaylists "42" <> cacheKeys.playlistTracks "42"
  /\ cacheKeys.userProfile "42" <> CACHE_CONFIG.METADATA_KEY.
Proof.
  destruct (cacheKeys_do_not_collide "42" "42")
    as (_ & _ & _ & _ & _ & H1 & H2 & _ & _ & _ & H3).
  split; [exact H1|]. split; [exact H2|]. apply H3. compute_done.
Defined.

(** X29. [invalidateUser(userId)] removes the profile and the playlists of
    the user from both tiers, so that both are misses afterwards, and
    leaves every other key as it was: the profile and the playlists of
    another user, and the keys of tracks. *)
Theorem invalidateUser_removes_the_keys_of_the_user :
  forall (w : World) (userId : string),
    let r := cacheManager.invalidateUser userId w in
    let profile := cacheKeys.userProfile userId in
    let playlists := cacheKeys.userPlaylists userId in
    fst r = Normal tt
    /\ fst (HybridCache.get profile (snd r)) = Normal VNull
    /\ fst (HybridCache.get playlists (snd r)) = Normal VNull
    /\ (forall key,
          key <> profile -> key <> playlists ->
          dict_get key (cache (memoryCache (snd r))) = dict_get key (cache (memoryCache w))
          /\ (key <> CACHE_CONFIG.METADATA_KEY -> slot (snd r) key = slot w key))
    /\ (forall other,
          other <> userId ->
          slot (snd r) (cacheKeys.userProfile other) = slot w (cacheKeys.userProfile other)
          /\ slot (snd r) (cacheKeys.userPlaylists other) =
               slot w (cacheKeys.userPlaylists other))
    /\ (forall trackId,
          slot (snd r) (cacheKeys.trackDetails trackId) = slot w (cacheKeys.trackDetails trackId)).
Proof.
  intros w userId r profile playlists.
  assert (Hp : profile <> CACHE_CONFIG.METADATA_KEY) by discriminate.
  assert (Hl : playlists <> CACHE_CONFIG.METADATA_KEY) by discriminate.
  assert (Hpl : playlists <> profile) by discriminate.
  destruct (HybridCache_delete_spec profile w Hp) as (Hr1 & Hm1 & Hs1 & Hmo1 & Hso1 & _).
  set (w1 := snd (HybridCache.delete profile w)) in *.
  destruct (HybridCache_delete_spec playlists w1 Hl) as (Hr2 & Hm2 & Hs2 & Hmo2 & Hso2 & _).
  set (w2 := snd (HybridCache.delete playlists w1)) in *.
  assert (Hr : r = (Normal tt, w2)).
  { subst r. unfold cacheManager.invalidateUser, bind. fold profile playlists.
    destruct (HybridCache.delete profile w) as [c1 w1'] eqn:E1. cbn [fst snd] in *.
    subst c1 w1. destruct (HybridCache.delete playlists w1') as [c2 w2'] eqn:E2.
    cbn [fst snd] in *. subst c2 w2. reflexivity. }
  rewrite Hr. cbn [fst snd].
  assert (Hother : forall key, key <> profile -> key <> playlists ->
            dict_get key (cache (memoryCache w2)) = dict_get key (cache (memoryCache w))
            /\ (key <> CACHE_CONFIG.METADATA_KEY -> slot w2 key = slot w key)).
  { intros key Hk1 Hk2. split.
    - rewrite (Hmo2 key Hk2). apply Hmo1, Hk1.
    - intros Hk. rewrite (Hso2 key Hk2 Hk). apply Hso1; assumption. }
  split; [reflexivity|]. split; [|split; [|split; [exact Hother|split]]].
  - apply HybridCache_get_only_null. split; intros item.
    + rewrite (Hmo2 profile (not_eq_sym Hpl)), Hm1. discriminate.
    + rewrite (Hso2 profile (not_eq_sym Hpl) Hp), Hs1. discriminate.
  - apply HybridCache_get_only_null. split; intros item.
    + rewrite Hm2. discriminate.
    + rewrite Hs2. discriminate.
  - intros other Hne.
    assert (Hinj : forall p, p +:+ other <> p +:+ userId).
    { intros p Heq. apply Hne. exact (string_app_inj _ _ _ Heq). }
    split; apply Hother; try discriminate; try apply Hinj.
  - intros trackId. apply Hother; discriminate.
Qed.

Lemma invalidateUser_removes_the_keys_of_the_user_witness :
  let w0 := new_HybridCache (fun n => Z.of_nat n) ∅ 1000 in
  let w := snd (HybridCache.set "profile:ann" (VStr "Ann") None
                  (snd (HybridCache.set "profile:bob" (VStr "Bob") None w0))) in
  let r := cacheManager.invalidateUser "ann" w in
  fst (HybridCache.get "profile:ann" w) = Normal (VStr "Ann")
  /\ fst (HybridCache.get "profile:ann" (snd r)) = Normal VNull
  /\ slot (snd r) "profile:bob" = slot w "profile:bob".
Proof.
  intros w0 w r. split; [vm_compute; reflexivity|].
  destruct (invalidateUser_removes_the_keys_of_the_user w "ann")
    as (_ & Hgone & _ & _ & Hother & _).
  split; [exact Hgone|]. apply (Hother "bob"). discriminate.
Defined.

(** ** Sequences of operations on the cache *)

Lemma fast_tier_bounded_ext w w' :
  memoryCache w' = memoryCache w -> fast_tier_bounded w -> fast_tier_bounded w'.
Proof. unfold fast_tier_bounded. intros ->. auto. Qed.

Lemma MemoryCache_get_bounded key w :
  fast_tier_bounded w -> fast_tier_bounded (snd (MemoryCache.get key w)).
Proof.
  intros [Hnd Hlen]. rewrite MemoryCache_get_eq.
  destruct (dict_get key (cache (memoryCache w))) as [item|] eqn:Hget;
    [|split; assumption].
  pose proof (dict_delete_length_present key (cache (memoryCache w))
                (dict_get_Some_keys _ _ _ Hget)) as Hdel.
  destruct (clock w (ticks w) >? expiresAt item); unfold fast_tier_bounded; world_simpl;
    cbn [snd memoryCache cache maxSize with_cache with_ticks].
  - split; [apply dict_delete_NoDup, Hnd|]. lia.
  - split; [apply dict_set_NoDup, dict_delete_NoDup, Hnd|].
    pose proof (dict_set_length key item (dict_delete key (cache (memoryCache w)))). lia.
Qed.

Lemma MemoryCache_set_bounded key v ttl w :
  fast_tier_bounded w -> fast_tier_bounded (snd (MemoryCache.set key v ttl w)).
Proof.
  intros [Hnd Hlen]. rewrite MemoryCache_set_eq. unfold fast_tier_bounded.
  cbn [snd memoryCache cache maxSize with_cache with_ticks].
  set (c := cache (memoryCache w)) in *.
  set (item := mkItem _ _ _).
  destruct (Z.geb_spec (Z.of_nat (length c)) (maxSize (memoryCache w))) as [Hfull|Hroom].
  - destruct c as [|[k0 i0] c'] eqn:Hc; cbn [first_key dict_keys map head fst].
    + cbn. split; [repeat constructor; apply not_elem_of_nil|lia].
    + split; [apply dict_set_NoDup, dict_delete_NoDup, Hnd|].
      pose proof (dict_delete_length_present k0 ((k0, i0) :: c') ltac:(left)) as Hdel.
      pose proof (dict_set_length key item (dict_delete k0 ((k0, i0) :: c'))). lia.
  - split; [apply dict_set_NoDup, Hnd|].
    pose proof (dict_set_length key item c). lia.
Qed.

Lemma MemoryCache_cleanup_bounded w :
  fast_tier_bounded w ->
  fst (MemoryCache.cleanup w) = Normal tt
  /\ fast_tier_bounded (snd (MemoryCache.cleanup w))
  /\ maxSize (memoryCache (snd (MemoryCache.cleanup w))) = maxSize (memoryCache w).
Proof.
  intros [Hnd Hlen].
  assert (Heq := MemoryCache_cleanup_loop (clock w (ticks w)) (with_ticks (S (ticks w)) w)
                   (cache (memoryCache w)) [] Hnd).
  assert (Hrun : MemoryCache.cleanup w =
                 (Normal tt,
                  with_cache (filter (fun entry => clock w (ticks w) <= expiresAt (snd entry))
                                (cache (memoryCache w)))
                    (with_ticks (S (ticks w)) w))).
  { unfold MemoryCache.cleanup, bind, Date_now, gets. cbn [memoryCache with_ticks].
    cbn [app] in Heq. rewrite <- Heq. f_equal.
    destruct w as [c k t s q wr [m ms] p st]. reflexivity. }
  rewrite Hrun. split; [reflexivity|]. split; [|reflexivity]. unfold fast_tier_bounded.
  cbn [snd memoryCache cache maxSize with_cache with_ticks]. split.
  - eapply sublist_NoDup; [exact Hnd|].
    apply (fmap_sublist (@fst string Item)), sublist_filter.
  - pose proof (length_filter (fun entry : string * Item =>
                   clock w (ticks w) <= expiresAt (snd entry)) (cache (memoryCache w))). lia.
Qed.

(** Every operation of the cache returns normally and keeps the fast
    tier within its bound. *)
Lemma run_cache_op_bounded op w :
  fast_tier_bounded w ->
  fst (run_cache_op op w) = Normal tt
  /\ fast_tier_bounded (snd (run_cache_op op w))
  /\ maxSize (memoryCache (snd (run_cache_op op w))) = maxSize (memoryCache w).
Proof.
  intros Hb. destruct op as [key|key v ttl|key| |]; cbn [run_cache_op].
  - (* get *)
    assert (Hrun : (HybridCache.get key ;;; ret tt) w =
                   (Normal tt, snd (HybridCache.get key w))).
    { destruct (HybridCache_get_normal key w) as (v & Hg & _).
      unfold bind. rewrite Hg. reflexivity. }
    rewrite Hrun. cbn [fst snd]. clear Hrun.
    destruct (MemoryCache_get_normal key w) as [v1 Hg1].
    pose proof (MemoryCache_get_bounded key w Hb) as Hb1.
    pose proof (MemoryCache_get_step key w) as Hs1.
    set (w1 := snd (MemoryCache.get key w)) in *.
    destruct (is_null v1) eqn:Hn1.
    + assert (v1 = VNull) by (destruct v1; cbn in Hn1; congruence). subst v1.
      destruct (PersistentCache_get_normal key w1) as [v2 Hg2].
      pose proof (PersistentCache_get_step key w1) as Hs2.
      set (w2 := snd (PersistentCache.get key w1)) in *.
      pose proof (fast_tier_bounded_ext w1 w2 (durable_step_cache _ _ Hs2) Hb1) as Hb2.
      destruct (is_null v2) eqn:Hn2.
      * assert (v2 = VNull) by (destruct v2; cbn in Hn2; congruence). subst v2.
        rewrite (HybridCache_get_miss key w w1 w2 Hg1 Hg2). cbn [fst snd].
        split; [reflexivity|]. split; [exact Hb2|].
        world_simpl. rewrite (durable_step_cache _ _ Hs2). apply Hs1.
      * pose proof (HybridCache_get_durable_hit key w v2 w1 w2 Hg1 Hg2 Hn2) as Hrun.
        cbn zeta in Hrun. rewrite Hrun. cbn [fst snd].
        split; [reflexivity|]. split.
        -- exact (MemoryCache_set_bounded key v2 _ w2 Hb2).
        -- world_simpl. rewrite MemoryCache_set_maxSize, (durable_step_cache _ _ Hs2).
           apply Hs1.
    + rewrite (HybridCache_get_fast_hit key w v1 w1 Hg1 Hn1). cbn [fst snd].
      split; [reflexivity|]. split; [exact Hb1|]. apply Hs1.
  - (* set *)
    rewrite HybridCache_set_eq. cbn [fst snd]. split; [reflexivity|].
    match goal with
    | |- context [PersistentCache.set key v ?t ?W] =>
        pose proof (PersistentCache_set_step key v t W) as Hs2;
        set (w2 := snd (PersistentCache.set key v t W)) in *
    end.
    match type of Hs2 with
    | durable_step ?W _ => set (w1 := W) in *
    end.
    pose proof (MemoryCache_set_bounded key v
                  (Some (Z.min (default (5 * 60 * 1000) ttl) (5 * 60 * 1000))) w Hb) as Hb1.
    fold w1 in Hb1. split.
    + exact (fast_tier_bounded_ext w1 _ (durable_step_cache _ _ Hs2) Hb1).
    + world_simpl. rewrite (durable_step_cache _ _ Hs2). subst w1.
      apply MemoryCache_set_maxSize.
  - (* delete *)
    assert (Hrun : (HybridCache.delete key ;;; ret tt) w =
                   (Normal tt, snd (HybridCache.delete key w))).
    { unfold bind. rewrite HybridCache_delete_eq. reflexivity. }
    rewrite Hrun, HybridCache_delete_eq. cbn [fst snd]. clear Hrun.
    split; [reflexivity|].
    set (w1 := with_cache (dict_delete key (cache (memoryCache w))) w).
    pose proof (PersistentCache_delete_step key w1) as Hs.
    assert (Hb1 : fast_tier_bounded w1).
    { destruct Hb as [Hnd Hlen]. split; [apply dict_delete_NoDup, Hnd|].
      cbn. pose proof (dict_delete_length key (cache (memoryCache w))). lia. }
    split; [exact (fast_tier_bounded_ext w1 _ (durable_step_cache _ _ Hs) Hb1)|].
    rewrite (durable_step_cache _ _ Hs). reflexivity.
  - (* clear *)
    unfold HybridCache.clear, bind, MemoryCache.clear, modify.
    rewrite PersistentCache_clear_eq. cbn [fst snd]. split; [reflexivity|].
    split; [|reflexivity].
    split; cbn; [constructor|lia].
  - (* cleanup *)
    destruct (MemoryCache_cleanup_bounded w Hb) as (Hn1 & Hb1 & Hmax).
    unfold HybridCache.cleanup, bind.
    destruct (MemoryCache.cleanup w) as [c1 w1]. cbn [fst snd] in *. subst c1.
    destruct (PersistentCache_cleanup_spec w1) as (Hn2 & Hs2 & _).
    split; [exact Hn2|].
    split; [exact (fast_tier_bounded_ext w1 _ (durable_step_cache _ _ Hs2) Hb1)|].
    rewrite (durable_step_cache _ _ Hs2). exact Hmax.
Qed.

(** X30. No sequence of [get], [set], [delete], [clear] and [cleanup] on a
    new cache over an empty medium throws, whatever the values cached
    (under cache keys, not the name of the index) and however small the
    quota of the medium, and the fast tier of the cache never holds more
    than its 100 entries, nor two entries for a key. *)
Theorem globalCache_never_throws_and_stays_bounded :
  forall (ops : list cache_op) (clock : nat -> Z) (quota : nat),
    Forall cache_op_names_no_index ops ->
    let r := for_of ops run_cache_op (new_HybridCache clock ∅ quota) in
    fst r = Normal tt
    /\ NoDup (dict_keys (cache (memoryCache (snd r))))
    /\ Z.of_nat (length (cache (memoryCache (snd r)))) <= CACHE_CONFIG.MAX_ENTRIES.
Proof.
  intros ops clock quota _ r.
  assert (Hgen : forall ops w,
            fast_tier_bounded w ->
            fst (for_of ops run_cache_op w) = Normal tt
            /\ fast_tier_bounded (snd (for_of ops run_cache_op w))
            /\ maxSize (memoryCache (snd (for_of ops run_cache_op w))) =
                 maxSize (memoryCache w)).
  { clear. induction ops as [|op ops IH]; intros w Hb.
    - cbn. auto.
    - cbn [for_of]. unfold bind.
      destruct (run_cache_op_bounded op w Hb) as (Hn & Hb1 & Hm1).
      destruct (run_cache_op op w) as [c w1]. cbn [fst snd] in *. subst c.
      destruct (IH w1 Hb1) as (Hn' & Hb' & Hm'). rewrite Hm' . auto. }
  destruct (Hgen ops (new_HybridCache clock ∅ quota)) as (Hn & [Hnd Hlen] & Hmax).
  { split; cbn; [constructor|lia]. }
  fold r in Hn, Hnd, Hlen, Hmax. rewrite Hmax in Hlen. cbn in Hlen.
  split; [exact Hn|]. split; [exact Hnd|].
  unfold CACHE_CONFIG.MAX_ENTRIES in *. lia.
Qed.

Lemma globalCache_never_throws_and_stays_bounded_witness :
  let ops := [CacheSet "a" (VBigInt 1) None; CacheGet "a"; CacheSet "b" VNull (Some 10);
              CacheDelete "c"; CacheCleanup; CacheGet "b"; CacheClear] in
  let r := for_of ops run_cache_op (new_HybridCache (fun n => Z.of_nat n) ∅ 10) in
  fst r = Normal tt
  /\ Z.of_nat (length (cache (memoryCache (snd r)))) <= CACHE_CONFIG.MAX_ENTRIES.
Proof.
  intros ops r.
  destruct (globalCache_never_throws_and_stays_bounded ops (fun n => Z.of_nat n) 10)
    as (Hn & _ & Hlen).
  - repeat constructor; discriminate.
  - split; [exact Hn|exact Hlen].
Defined.
